(** * 2048: the grid engine and the game controller of [main.py]

    A shallow embedding of the classes [Board], [Game] and of the move
    wrappers of [Enhanced2048App].  Python integers are unbounded, so cell
    values, the score and the counters are [Z]; the grid [gridCell] is a list
    of rows.  Indexing a Python list out of range raises [IndexError]: every
    operation that indexes the grid returns an [option], [None] standing for
    the raised exception.  The widgets, the dialogs and the best-score file
    are presentation and persistence glue and are left out; the draws of the
    [random] module are explicit arguments. *)

From stdpp Require Import base option list.
From Stdlib Require Import ZArith Lia.

Open Scope Z_scope.

(** ** Loops *)

(** [for j in range(lo, lo + len): s = body(j, s)] *)
Fixpoint for_range {St : Type} (lo len : nat) (body : nat → St → option St) (s : St)
  : option St :=
  match len with
  | O => Some s
  | S len' => s' ← body lo s; for_range (S lo) len' body s'
  end.

(** A [for] loop over a range whose body may [return v]: the inner option is
    [Some v] when the body returned and [None] when the loop fell through. *)
Fixpoint for_return {R : Type} (lo len : nat) (body : nat → option (option R))
  : option (option R) :=
  match len with
  | O => Some None
  | S len' =>
      r ← body lo;
      match r with
      | Some v => Some (Some v)
      | None => for_return (S lo) len' body
      end
  end.

(** ** Grids *)

(** [g[i][j]] *)
Definition cell (g : list (list Z)) (i j : nat) : option Z :=
  row ← g !! i; row !! j.

(** [g[i][j] = v] *)
Definition set_cell (g : list (list Z)) (i j : nat) (v : Z) : option (list (list Z)) :=
  row ← g !! i;
  _ ← row !! j;
  Some (<[i := <[j := v]> row]> g).

(** [[[0] * n for _ in range(n)]] *)
Definition zeros (n : nat) : list (list Z) := replicate n (replicate n 0).

(** The rows that [zip] yields when it is given the rows of [g] as its
    arguments (the unpacking call in [transpose]), each turned into a list:
    [zip] stops at the shortest row, and yields nothing when it is given no
    row at all. *)
Fixpoint zip_star (g : list (list Z)) : list (list Z) :=
  match g with
  | [] => []
  | [r] => map (λ x, [x]) r
  | r :: rs => zip_with cons r (zip_star rs)
  end.

(** [[row[:] for row in g]] *)
Definition copy_grid (g : list (list Z)) : list (list Z) := map (λ row, row) g.

(** The two draws one call of [random_cell] may take from [random]:
    [choice] is the index [random.choice] lands on (taken modulo the number
    of candidates) and [lt_tenth] the outcome of [random.random() < 0.1]. *)
Record Draw := mkDraw { choice : nat; lt_tenth : bool }.

Module Board.

Record t := mk {
  size : nat;
  gridCell : list (list Z);
  compress : bool;
  merge : bool;
  moved : bool;
  score : Z
}.

Definition set_gridCell (g : list (list Z)) (b : t) : t :=
  mk (size b) g (compress b) (merge b) (moved b) (score b).
Definition set_compress (c : bool) (b : t) : t :=
  mk (size b) (gridCell b) c (merge b) (moved b) (score b).
Definition set_merge (m : bool) (b : t) : t :=
  mk (size b) (gridCell b) (compress b) m (moved b) (score b).
Definition set_score (s : Z) (b : t) : t :=
  mk (size b) (gridCell b) (compress b) (merge b) (moved b) s.

(** [Board.__init__] *)
Definition init (n : nat) : t := mk n (zeros n) false false false 0.

(** The [while i < j] loop of [reverse] on row [ind]; [j] goes down by one
    each turn.  The swap reads [g[ind][j]] and [g[ind][i]], then writes
    [g[ind][i]] and [g[ind][j]]. *)
Fixpoint reverse_while (ind i j : nat) (g : list (list Z))
  : option (list (list Z)) :=
  match j with
  | O => Some g
  | S j' =>
      if decide (i < S j')%nat then
        x ← cell g ind (S j');
        y ← cell g ind i;
        g ← set_cell g ind i x;
        g ← set_cell g ind (S j') y;
        reverse_while ind (S i) j' g
      else Some g
  end.

Definition reverse (b : t) : option t :=
  g ← for_range 0 (size b) (λ ind g, reverse_while ind 0 (size b - 1) g)
        (gridCell b);
  Some (set_gridCell g b).

Definition transpose (b : t) : option t :=
  Some (set_gridCell (zip_star (gridCell b)) b).

Definition compressGrid (b : t) : option t :=
  '(temp, flag) ← for_range 0 (size b) (λ i '(temp, flag),
      '(temp, flag, _) ← for_range 0 (size b) (λ j '(temp, flag, cnt),
          v ← cell (gridCell b) i j;
          if decide (v ≠ 0) then
            temp' ← set_cell temp i cnt v;
            Some (temp', if decide (cnt ≠ j) then true else flag, S cnt)
          else Some (temp, flag, cnt)) (temp, flag, O);
      Some (temp, flag)) (zeros (size b), false);
  Some (set_gridCell temp (set_compress flag b)).

Definition mergeGrid (b : t) : option t :=
  for_range 0 (size b) (λ i b,
    for_range 0 (size b - 1) (λ j b,
      x ← cell (gridCell b) i j;
      y ← cell (gridCell b) i (S j);
      if decide (x = y ∧ x ≠ 0) then
        g1 ← set_cell (gridCell b) i j (x * 2);
        g2 ← set_cell g1 i (S j) 0;
        d ← cell g2 i j;
        Some (set_merge true (set_score (score b + d) (set_gridCell g2 b)))
      else Some b) b) (set_merge false b).

Definition random_cell (d : Draw) (b : t) : option (bool * t) :=
  cells ← for_range 0 (size b) (λ i cells,
      for_range 0 (size b) (λ j cells,
        v ← cell (gridCell b) i j;
        Some (if decide (v = 0) then cells ++ [(i, j)] else cells)) cells) [];
  match cells with
  | [] => Some (false, b)
  | _ :: _ =>
      '(i, j) ← cells !! (choice d `mod` length cells)%nat;
      g ← set_cell (gridCell b) i j (if lt_tenth d then 4 else 2);
      Some (true, set_gridCell g b)
  end.

Definition can_merge (b : t) : option bool :=
  r ← for_return 0 (size b) (λ i,
        for_return 0 (size b - 1) (λ j,
          x ← cell (gridCell b) i j;
          y ← cell (gridCell b) i (S j);
          Some (if decide (x = y) then Some true else None)));
  match r with
  | Some v => Some v
  | None =>
      r ← for_return 0 (size b - 1) (λ i,
            for_return 0 (size b) (λ j,
              x ← cell (gridCell b) (S i) j;
              y ← cell (gridCell b) i j;
              Some (if decide (x = y) then Some true else None)));
      match r with
      | Some v => Some v
      | None => Some false
      end
  end.

End Board.

Module Game.

Record t := mk {
  board : Board.t;
  end_ : bool;
  won : bool;
  move_count : Z;
  prev_grid : option (list (list Z));
  prev_score : Z;
  best_score : Z;
  target : Z
}.

Definition set_board (b : Board.t) (g : t) : t :=
  mk b (end_ g) (won g) (move_count g) (prev_grid g) (prev_score g)
     (best_score g) (target g).
Definition set_end (e : bool) (g : t) : t :=
  mk (board g) e (won g) (move_count g) (prev_grid g) (prev_score g)
     (best_score g) (target g).
Definition set_won (w : bool) (g : t) : t :=
  mk (board g) (end_ g) w (move_count g) (prev_grid g) (prev_score g)
     (best_score g) (target g).
Definition set_move_count (n : Z) (g : t) : t :=
  mk (board g) (end_ g) (won g) n (prev_grid g) (prev_score g)
     (best_score g) (target g).
Definition set_prev (pg : option (list (list Z))) (ps : Z) (g : t) : t :=
  mk (board g) (end_ g) (won g) (move_count g) pg ps (best_score g) (target g).
Definition set_best_score (s : Z) (g : t) : t :=
  mk (board g) (end_ g) (won g) (move_count g) (prev_grid g) (prev_score g)
     s (target g).

(** [Game.__init__]; [best] is what [_load_best_score] read. *)
Definition init (b : Board.t) (best tgt : Z) : t :=
  mk b false false 0 None 0 best tgt.

Definition start (d1 d2 : Draw) (g : t) : option t :=
  '(_, b) ← Board.random_cell d1 (board g);
  '(_, b) ← Board.random_cell d2 b;
  Some (set_board b g).

Definition reset (d1 d2 : Draw) (g : t) : option t :=
  let b := Board.set_score 0
             (Board.set_gridCell (zeros (Board.size (board g))) (board g)) in
  let g := mk b false false 0 None 0 (best_score g) (target g) in
  '(_, b) ← Board.random_cell d1 (board g);
  '(_, b) ← Board.random_cell d2 b;
  Some (set_board b g).

Definition set_target (tgt : Z) (g : t) : t :=
  mk (board g) (end_ g) (won g) (move_count g) (prev_grid g) (prev_score g)
     (best_score g) tgt.

Definition can_move (g : t) : option bool :=
  r ← for_return 0 (Board.size (board g)) (λ i,
        for_return 0 (Board.size (board g)) (λ j,
          v ← cell (Board.gridCell (board g)) i j;
          Some (if decide (v = 0) then Some true else None)));
  match r with
  | Some v => Some v
  | None => Board.can_merge (board g)
  end.

Definition save_undo (g : t) : t :=
  set_prev (Some (copy_grid (Board.gridCell (board g))))
           (Board.score (board g)) g.

Definition undo (g : t) : t :=
  match prev_grid g with
  | Some pg =>
      set_prev None 0
        (set_board (Board.set_score (prev_score g)
                      (Board.set_gridCell (copy_grid pg) (board g))) g)
  | None => g
  end.

(** The tail shared by the four moves: [if moved: ...; return moved]. *)
Definition finish_move (d : Draw) (moved : bool) (b : Board.t) (g : t)
  : option (bool * t) :=
  if moved then
    '(_, b) ← Board.random_cell d b;
    Some (moved, set_board b (set_move_count (move_count g + 1) g))
  else Some (moved, set_board b g).

Definition move_left (d : Draw) (g : t) : option (bool * t) :=
  if end_ g || won g then Some (false, g) else
  let g := save_undo g in
  b ← Board.compressGrid (board g);
  b ← Board.mergeGrid b;
  let moved := Board.compress b || Board.merge b in
  b ← Board.compressGrid b;
  finish_move d moved b g.

Definition move_right (d : Draw) (g : t) : option (bool * t) :=
  if end_ g || won g then Some (false, g) else
  let g := save_undo g in
  b ← Board.reverse (board g);
  b ← Board.compressGrid b;
  b ← Board.mergeGrid b;
  let moved := Board.compress b || Board.merge b in
  b ← Board.compressGrid b;
  b ← Board.reverse b;
  finish_move d moved b g.

Definition move_up (d : Draw) (g : t) : option (bool * t) :=
  if end_ g || won g then Some (false, g) else
  let g := save_undo g in
  b ← Board.transpose (board g);
  b ← Board.compressGrid b;
  b ← Board.mergeGrid b;
  let moved := Board.compress b || Board.merge b in
  b ← Board.compressGrid b;
  b ← Board.transpose b;
  finish_move d moved b g.

Definition move_down (d : Draw) (g : t) : option (bool * t) :=
  if end_ g || won g then Some (false, g) else
  let g := save_undo g in
  b ← Board.transpose (board g);
  b ← Board.reverse b;
  b ← Board.compressGrid b;
  b ← Board.mergeGrid b;
  let moved := Board.compress b || Board.merge b in
  b ← Board.compressGrid b;
  b ← Board.reverse b;
  b ← Board.transpose b;
  finish_move d moved b g.

(** The win check: the first [val == self.target] found sets [won] and
    returns. *)
Definition has_target (g : t) : bool :=
  existsb (λ row, existsb (λ val, bool_decide (val = target g)) row)
          (Board.gridCell (board g)).

Definition after_move_updates (g : t) : option t :=
  let g := if decide (Board.score (board g) > best_score g)
           then set_best_score (Board.score (board g)) g else g in
  if has_target g then Some (set_won true g)
  else
    cm ← can_move g;
    if negb cm then Some (set_end true g) else Some g.

End Game.

(** The four directions of the key handler. *)
Inductive Direction := Left | Right | Up | Down.

Module App.

(** The application owns one board, shared with its game: the state of the
    application is the state of the game. *)
Definition _post_move_updates (g : Game.t) : Game.t :=
  if decide (Board.score (Game.board g) > Game.best_score g)
  then Game.set_best_score (Board.score (Game.board g)) g else g.

(** The body shared by the four wrappers. *)
Definition after (r : option (bool * Game.t)) : option Game.t :=
  '(moved, g) ← r;
  g ← (if moved : bool then Game.after_move_updates g else Some g);
  Some (_post_move_updates g).

Definition move_left (d : Draw) (g : Game.t) := after (Game.move_left d g).
Definition move_right (d : Draw) (g : Game.t) := after (Game.move_right d g).
Definition move_up (d : Draw) (g : Game.t) := after (Game.move_up d g).
Definition move_down (d : Draw) (g : Game.t) := after (Game.move_down d g).

Definition _key_handler (key : Direction) (d : Draw) (g : Game.t) : option Game.t :=
  match key with
  | Left => move_left d g
  | Right => move_right d g
  | Up => move_up d g
  | Down => move_down d g
  end.

(** [Enhanced2048App.__init__]: a board of size 4, target 2048, then
    [start]. *)
Definition init (best : Z) (d1 d2 : Draw) : option Game.t :=
  Game.start d1 d2 (Game.init (Board.init 4) best 2048).

End App.

(** The move of the game controller in a direction. *)
Definition move (dir : Direction) (d : Draw) (g : Game.t) : option (bool * Game.t) :=
  match dir with
  | Left => Game.move_left d g
  | Right => Game.move_right d g
  | Up => Game.move_up d g
  | Down => Game.move_down d g
  end.

(** The directional transform of a move: what [move_left], [move_right],
    [move_up] and [move_down] do to the board between [save_undo] and the
    test of [moved], with the value of [moved]. *)
Definition slide (dir : Direction) (b : Board.t) : option (bool * Board.t) :=
  match dir with
  | Left =>
      b ← Board.compressGrid b;
      b ← Board.mergeGrid b;
      let moved := Board.compress b || Board.merge b in
      b ← Board.compressGrid b;
      Some (moved, b)
  | Right =>
      b ← Board.reverse b;
      b ← Board.compressGrid b;
      b ← Board.mergeGrid b;
      let moved := Board.compress b || Board.merge b in
      b ← Board.compressGrid b;
      b ← Board.reverse b;
      Some (moved, b)
  | Up =>
      b ← Board.transpose b;
      b ← Board.compressGrid b;
      b ← Board.mergeGrid b;
      let moved := Board.compress b || Board.merge b in
      b ← Board.compressGrid b;
      b ← Board.transpose b;
      Some (moved, b)
  | Down =>
      b ← Board.transpose b;
      b ← Board.reverse b;
      b ← Board.compressGrid b;
      b ← Board.mergeGrid b;
      let moved := Board.compress b || Board.merge b in
      b ← Board.compressGrid b;
      b ← Board.reverse b;
      b ← Board.transpose b;
      Some (moved, b)
  end.

(** The user actions of the application on the state of the game: a key or
    an arrow button, Undo, New Game (confirmed), Set Target and Reset Best
    (confirmed). *)
Inductive step : Game.t → Game.t → Prop :=
  | step_move key d g g' : App._key_handler key d g = Some g' → step g g'
  | step_undo g : step g (Game.undo g)
  | step_new_game d1 d2 g g' : Game.reset d1 d2 g = Some g' → step g g'
  | step_set_target t g : step g (Game.set_target t g)
  | step_reset_best g : step g (Game.set_best_score 0 g).

(** The states the application can be in: the one it starts in, and those
    the user actions lead to. *)
Inductive reachable : Game.t → Prop :=
  | reach_init best d1 d2 g : App.init best d1 d2 = Some g → reachable g
  | reach_step g g' : reachable g → step g g' → reachable g'.

(** ** What the specification talks about *)

(** A grid of [n] rows of [n] cells. *)
Definition wf (n : nat) (g : list (list Z)) : Prop :=
  length g = n ∧ Forall (λ row, length row = n) g.

(** Every cell of the grid satisfies [P]. *)
Definition all_cells (P : Z → Prop) (g : list (list Z)) : Prop :=
  Forall (Forall P) g.

(** A power of two that is at least 2. *)
Definition pow2 (v : Z) : Prop := ∃ k : nat, v = 2 ^ Z.of_nat (S k).

(** The invariant of the data model on one cell. *)
Definition tile (v : Z) : Prop := v = 0 ∨ pow2 v.

(** The grid has an empty cell. *)
Definition has_empty (g : list (list Z)) : Prop :=
  ∃ i j, cell g i j = Some 0.

(** Two cells next to each other in a row, or in a column, hold the same
    value, whatever it is. *)
Definition equal_neighbours (g : list (list Z)) : Prop :=
  ∃ i j x, cell g i j = Some x ∧
           (cell g i (S j) = Some x ∨ cell g (S i) j = Some x).

(** Two horizontally or vertically adjacent cells hold equal non-zero
    values. *)
Definition mergeable_neighbours (g : list (list Z)) : Prop :=
  ∃ i j x, x ≠ 0 ∧ cell g i j = Some x ∧
           (cell g i (S j) = Some x ∨ cell g (S i) j = Some x).

(** The row with its non-zero values slid to the left in their order and
    the trailing cells filled with 0. *)
Definition slid_left (row : list Z) : list Z :=
  filter (λ v, v ≠ 0) row
  ++ replicate (length row - length (filter (λ v, v ≠ 0) row)) 0.

(** Some non-zero cell of the row has an empty cell somewhere to its left:
    sliding the row moves it. *)
Definition slides (row : list Z) : Prop :=
  ∃ k j v, (k < j)%nat ∧ row !! k = Some 0 ∧ row !! j = Some v ∧ v ≠ 0.

(** The cells [j] and [j+1] of the row hold the same non-zero value. *)
Definition equal_pair (row : list Z) (j : nat) : bool :=
  match row !! j, row !! S j with
  | Some x, Some y => bool_decide (x = y ∧ x ≠ 0)
  | _, _ => false
  end.

(** The single left-to-right pass merges the cells [j] and [j+1] of the
    original row: they hold the same non-zero value and cell [j] was not
    itself zeroed by a merge at [j-1]. *)
Fixpoint merges_at (row : list Z) (j : nat) : bool :=
  match j with
  | O => equal_pair row 0
  | S j' => negb (merges_at row j') && equal_pair row j
  end.

(** The value of cell [k], which held [x], after the pass: doubled when the
    pass merges at [k], zeroed when it merges at [k-1], kept otherwise. *)
Definition merged_cell (row : list Z) (k : nat) (x : Z) : Z :=
  if merges_at row k then x * 2
  else match k with
       | S k' => if merges_at row k' then 0 else x
       | O => x
       end.

Definition merged_row (row : list Z) : list Z := imap (merged_cell row) row.

(** The sum of the doubled values of the merges at the cells before [j]. *)
Fixpoint gain_before (row : list Z) (j : nat) : Z :=
  match j with
  | O => 0
  | S j' => gain_before row j'
            + (if merges_at row j' then default 0 (row !! j') * 2 else 0)
  end.

(** Some merge happens at a cell before [j]. *)
Fixpoint merges_before (row : list Z) (j : nat) : bool :=
  match j with
  | O => false
  | S j' => merges_before row j' || merges_at row j'
  end.

Definition row_gain (row : list Z) : Z := gain_before row (length row - 1).
Definition row_merges (row : list Z) : bool := merges_before row (length row - 1).

(** What one merge pass over the grid adds to the score. *)
Definition grid_gain (g : list (list Z)) : Z :=
  foldr (λ row acc, acc + row_gain row) 0 g.

(** ** Sample states *)

Definition row_2222 : list (list Z) :=
  [[2;2;2;2]; [0;0;0;0]; [4;0;4;8]; [2;4;8;16]].

Definition board_2222 : Board.t := Board.mk 4 row_2222 false false false 0.

Definition game_2222 : Game.t := Game.init board_2222 0 2048.

(** A grid as the game starts with: a 2 and a 4, far apart. *)
Definition board_two_tiles : Board.t :=
  Board.mk 4 [[2;0;0;0]; [0;0;0;0]; [0;0;0;4]; [0;0;0;0]] false false false 0.

(** A full grid in which no two neighbours are equal. *)
Definition checkers : list (list Z) :=
  [[2;4;2;4]; [4;2;4;2]; [2;4;2;4]; [4;2;4;2]].

Definition game_checkers : Game.t :=
  Game.init (Board.mk 4 checkers false false false 0) 0 2048.

(** A game that was won. *)
Definition game_won : Game.t :=
  Game.mk board_2222 false true 7 (Some row_2222) 12 40 2048.

(** The state the application starts in when both spawns draw the first
    empty cell and a 2. *)
Definition game_start : Game.t :=
  Game.init (Board.mk 4 [[2;2;0;0]; [0;0;0;0]; [0;0;0;0]; [0;0;0;0]]
               false false false 0) 0 2048.

(** One move to the left fills this grid and leaves no equal neighbours. *)
Definition last_move : list (list Z) :=
  [[0;2;4;8]; [4;8;16;4]; [2;4;8;2]; [4;8;16;4]].

Definition game_last_move : Game.t :=
  Game.init (Board.mk 4 last_move false false false 0) 0 2048.

(** One merge to the left reaches the target here. *)
Definition game_near_win : Game.t :=
  Game.init (Board.mk 4 [[1024;1024;0;0]; [0;0;0;0]; [0;0;0;0]; [0;0;0;0]]
               false false false 0) 0 2048.

Definition draw0 : Draw := mkDraw 0 false.

Close Scope Z_scope.

(** ** Notions used by the proofs *)

(** The row while the pass stands at cell [j]. *)
Definition merged_upto (row : list Z) (j k : nat) (x : Z) : Z :=
  if decide (k < j ∧ merges_at row k = true) then (x * 2)%Z
  else if decide (0 < k ≤ j ∧ merges_at row (k - 1) = true) then 0%Z
  else x.

(** The first [i] rows processed by [f], the others as they were. *)
Definition rows_done (f : list Z → list Z) (i : nat) (g : list (list Z)) :=
  map f (take i g) ++ drop i g.

(** The grid turned so that the move becomes a move to the left, and turned
    back. *)
Definition pre (dir : Direction) (g : list (list Z)) : list (list Z) :=
  match dir with
  | Left => g
  | Right => map reverse g
  | Up => zip_star g
  | Down => map reverse (zip_star g)
  end.

Definition post (dir : Direction) (g : list (list Z)) : list (list Z) :=
  match dir with
  | Left => g
  | Right => map reverse g
  | Up => zip_star g
  | Down => zip_star (map reverse g)
  end.

(** The grid before the merge pass of a move, and after the whole move. *)
Definition slid (dir : Direction) (g : list (list Z)) : list (list Z) :=
  map slid_left (pre dir g).

Definition slide_grid (dir : Direction) (g : list (list Z)) : list (list Z) :=
  post dir (map slid_left (map merged_row (slid dir g))).

(** The board a move in direction [dir] leaves before the spawn. *)
Definition slid_board (dir : Direction) (c2 : bool) (b : Board.t) : Board.t :=
  Board.mk (Board.size b) (slide_grid dir (Board.gridCell b)) c2
    (existsb row_merges (slid dir (Board.gridCell b))) (Board.moved b)
    (Board.score b + grid_gain (slid dir (Board.gridCell b)))%Z.

(** The grid [g'] is the grid [g] with one empty cell filled by a 2 or a 4. *)
Definition spawned (g g' : list (list Z)) : Prop :=
  ∃ i j v, cell g i j = Some 0%Z ∧ (v = 2%Z ∨ v = 4%Z) ∧
    ∀ i' j', cell g' i' j' =
             if decide (i' = i ∧ j' = j) then Some v else cell g i' j'.

(** The grid and the undo snapshot have the board's size and hold tiles. *)
Definition good (g : Game.t) : Prop :=
  wf (Board.size (Game.board g)) (Board.gridCell (Game.board g)) ∧
  all_cells tile (Board.gridCell (Game.board g)) ∧
  ∀ pg, Game.prev_grid g = Some pg →
        wf (Board.size (Game.board g)) pg ∧ all_cells tile pg.

(** The grid of size [n] holds two tiles, each a 2 or a 4, at two different
    cells, and is empty elsewhere. *)
Definition two_tiles (n : nat) (g : list (list Z)) : Prop :=
  ∃ i1 j1 v1 i2 j2 v2,
    i1 < n ∧ j1 < n ∧ i2 < n ∧ j2 < n ∧ (i1, j1) ≠ (i2, j2) ∧
    (v1 = 2%Z ∨ v1 = 4%Z) ∧ (v2 = 2%Z ∨ v2 = 4%Z) ∧
    cell g i1 j1 = Some v1 ∧ cell g i2 j2 = Some v2 ∧
    ∀ i j, i < n → j < n → (i, j) ≠ (i1, j1) → (i, j) ≠ (i2, j2) →
           cell g i j = Some 0%Z.

(** Some move is possible on the grid: it has an empty cell or two equal
    neighbours. *)
Definition movable (g : list (list Z)) : Prop :=
  has_empty g ∨ equal_neighbours g.

(** What holds of every state the application reaches, beside [good]: the
    board has size 4, score, saved score and move counter are not negative,
    a Playing state can move, and so can the grid of the undo snapshot. *)
Definition sound (g : Game.t) : Prop :=
  good g ∧
  Board.size (Game.board g) = 4 ∧
  (0 ≤ Board.score (Game.board g))%Z ∧
  (0 ≤ Game.prev_score g)%Z ∧
  (0 ≤ Game.move_count g)%Z ∧
  (Game.end_ g = false → Game.won g = false →
   movable (Board.gridCell (Game.board g))) ∧
  (∀ pg, Game.prev_grid g = Some pg → movable pg).

(** The sum of the values [f] gives to the elements of a list; the sum of a
    row and of a grid. *)
Definition sum_with {A : Type} (f : A → Z) (l : list A) : Z :=
  foldr (λ a acc, (f a + acc)%Z) 0%Z l.

Definition row_sum (row : list Z) : Z := sum_with (λ x, x) row.

Definition grid_sum (g : list (list Z)) : Z := sum_with row_sum g.

(** A board whose grid lacks a row. *)
Definition board_short : Board.t :=
  Board.mk 4 [[2;0;0;0]; [0;0;0;0]; [0;0;0;4]]%Z false false false 0%Z.

(** ** Loop rules *)

Section Loops.
Context {St : Type}.

Lemma for_range_inv (I : nat → St → Prop) lo len body s :
  I lo s →
  (∀ j s, lo ≤ j < lo + len → I j s →
          ∃ s', body j s = Some s' ∧ I (S j) s') →
  ∃ s', for_range lo len body s = Some s' ∧ I (lo + len) s'.
Proof.
  revert lo s. induction len as [|len IH]; intros lo s HI Hstep; simpl.
  - exists s. by rewrite Nat.add_0_r.
  - destruct (Hstep lo s) as (s1 & -> & HI1); [lia|done|]. simpl.
    destruct (IH (S lo) s1) as (s2 & Hs2 & HI2); [done| |].
    + intros j s' Hj. apply Hstep. lia.
    + exists s2. split; [done|]. by replace (lo + S len) with (S lo + len) by lia.
Qed.

End Loops.

(** ** Cells of a well-formed grid *)

Lemma wf_row n g i row : wf n g → g !! i = Some row → length row = n.
Proof. intros [_ Hr] Hi. by eapply (Forall_lookup_1 _ _ _ _ Hr Hi). Qed.

Lemma wf_lookup n g i : wf n g → i < n → ∃ row, g !! i = Some row ∧ length row = n.
Proof.
  intros Hwf Hi. destruct (lookup_lt_is_Some_2 g i) as [row Hrow].
  { destruct Hwf as [-> _]. done. }
  exists row. split; [done|]. by eapply wf_row.
Qed.

Lemma cell_lt n g i j v : wf n g → cell g i j = Some v → i < n ∧ j < n.
Proof.
  unfold cell. intros Hwf Hc. destruct (g !! i) as [row|] eqn:Hrow; [|done].
  simpl in Hc. split.
  - destruct Hwf as [<- _]. by eapply lookup_lt_Some.
  - rewrite <- (wf_row _ _ _ _ Hwf Hrow). by eapply lookup_lt_Some.
Qed.

Lemma cell_is_Some n g i j : wf n g → i < n → j < n → ∃ v, cell g i j = Some v.
Proof.
  intros Hwf Hi Hj. destruct (wf_lookup n g i Hwf Hi) as (row & Hrow & Hlen).
  destruct (lookup_lt_is_Some_2 row j) as [v Hv]; [lia|].
  exists v. unfold cell. by rewrite Hrow.
Qed.

Lemma cell_row g i j row : g !! i = Some row → cell g i j = row !! j.
Proof. unfold cell. by intros ->. Qed.

Lemma set_cell_row g i j v row w :
  g !! i = Some row → row !! j = Some w →
  set_cell g i j v = Some (<[i := <[j := v]> row]> g).
Proof. unfold set_cell. intros -> Hw. simpl. by rewrite Hw. Qed.

Lemma wf_insert n g i row : wf n g → length row = n → wf n (<[i := row]> g).
Proof.
  intros [Hl Hr] Hrow. split; [by rewrite length_insert|].
  by apply Forall_insert.
Qed.

Lemma wf_zeros n : wf n (zeros n).
Proof.
  split; [apply length_replicate|].
  apply Forall_forall. intros row Hin.
  apply elem_of_replicate in Hin as [-> _]. apply length_replicate.
Qed.

Lemma set_cell_wf n g i j v :
  wf n g → i < n → j < n →
  ∃ g', set_cell g i j v = Some g' ∧ wf n g' ∧
        ∀ i' j', cell g' i' j' =
                 if decide (i' = i ∧ j' = j) then Some v else cell g i' j'.
Proof.
  intros Hwf Hi Hj. destruct (wf_lookup n g i Hwf Hi) as (row & Hrow & Hlen).
  destruct (lookup_lt_is_Some_2 row j) as [w Hw]; [lia|].
  exists (<[i := <[j := v]> row]> g). unfold set_cell. rewrite Hrow. simpl.
  rewrite Hw. simpl. split; [done|]. split.
  { apply wf_insert; [done|]. by rewrite length_insert. }
  intros i' j'. unfold cell at 1.
  destruct (decide (i' = i)) as [->|Hne].
  - rewrite list_lookup_insert_eq by (destruct Hwf as [-> _]; lia). simpl.
    destruct (decide (j' = j)) as [->|Hnej].
    + rewrite list_lookup_insert_eq by lia. by rewrite decide_True.
    + rewrite list_lookup_insert_ne by done. rewrite decide_False by tauto.
      by rewrite (cell_row _ _ _ _ Hrow).
  - rewrite list_lookup_insert_ne by done. by rewrite decide_False by tauto.
Qed.

Lemma grid_eq n g1 g2 :
  wf n g1 → wf n g2 → (∀ i j, cell g1 i j = cell g2 i j) → g1 = g2.
Proof.
  intros Hwf1 Hwf2 Hc. apply list_eq. intros i.
  destruct (decide (i < n)) as [Hi|Hi].
  - destruct (wf_lookup n g1 i Hwf1 Hi) as (r1 & Hr1 & Hl1).
    destruct (wf_lookup n g2 i Hwf2 Hi) as (r2 & Hr2 & Hl2).
    rewrite Hr1, Hr2. f_equal. apply list_eq. intros j.
    rewrite <- (cell_row _ _ _ _ Hr1), <- (cell_row _ _ _ _ Hr2). apply Hc.
  - destruct Hwf1 as [Hl1 _], Hwf2 as [Hl2 _].
    rewrite !lookup_ge_None_2 by lia. done.
Qed.

Lemma all_cells_lookup P g :
  all_cells P g ↔ ∀ i j v, cell g i j = Some v → P v.
Proof.
  unfold all_cells, cell. split.
  - intros Hall i j v Hc. destruct (g !! i) as [row|] eqn:Hrow; [|done].
    simpl in Hc. eapply Forall_lookup_1; [|exact Hc].
    eapply Forall_lookup_1; [exact Hall | exact Hrow].
  - intros Hc. apply Forall_lookup. intros i row Hrow.
    apply Forall_lookup. intros j v Hv. apply (Hc i j v). by rewrite Hrow.
Qed.

Lemma copy_grid_id g : copy_grid g = g.
Proof. unfold copy_grid. apply map_id. Qed.

(** ** [reverse] *)

Lemma reverse_while_lookup ind j : ∀ i (g : list (list Z)) row,
  g !! ind = Some row →
  j < length row ∨ j ≤ i →
  ∃ res, Board.reverse_while ind i j g = Some (<[ind := res]> g) ∧
         length res = length row ∧
         ∀ k, res !! k =
              if decide (i ≤ k ≤ j) then row !! (i + j - k) else row !! k.
Proof.
  induction j as [|j IH]; intros i g row Hrow Hj; simpl.
  - exists row. split; [by rewrite list_insert_id|]. split; [done|]. intros k.
    case_decide; [|done]. f_equal. lia.
  - case_decide as Hij.
    + destruct Hj as [Hj|]; [|lia].
      assert (ind < length g) as Hind by (by eapply lookup_lt_Some).
      destruct (lookup_lt_is_Some_2 row (S j)) as [x Hx]; [lia|].
      destruct (lookup_lt_is_Some_2 row i) as [y Hy]; [lia|].
      rewrite !(cell_row _ _ _ _ Hrow), Hx, Hy. simpl.
      rewrite (set_cell_row _ _ _ _ _ _ Hrow Hy). simpl.
      erewrite set_cell_row; [|by apply list_lookup_insert_eq|]; last first.
      { rewrite list_lookup_insert_ne by lia. exact Hx. }
      simpl. rewrite list_insert_insert_eq.
      destruct (IH (S i) (<[ind := <[S j := y]> (<[i := x]> row)]> g)
                  (<[S j := y]> (<[i := x]> row)))
        as (res & -> & Hlen & Hres).
      { by apply list_lookup_insert_eq. }
      { rewrite !length_insert. lia. }
      exists res. split; [by rewrite list_insert_insert_eq|].
      rewrite !length_insert in Hlen.
      split; [done|]. intros k. rewrite Hres.
      destruct (decide (k = i)) as [->|Hki].
      * rewrite decide_False by lia. rewrite decide_True by lia.
        rewrite list_lookup_insert_ne by lia.
        rewrite list_lookup_insert_eq by lia.
        rewrite <- Hx. f_equal. lia.
      * destruct (decide (k = S j)) as [->|Hkj].
        -- rewrite decide_False by lia. rewrite decide_True by lia.
           rewrite list_lookup_insert_eq by (rewrite length_insert; lia).
           rewrite <- Hy. f_equal. lia.
        -- case_decide; case_decide; try lia.
           ++ rewrite !list_lookup_insert_ne by lia. f_equal. lia.
           ++ by rewrite !list_lookup_insert_ne by lia.
    + exists row. split; [by rewrite list_insert_id|]. split; [done|]. intros k.
      case_decide; [|done]. f_equal. lia.
Qed.

Lemma reverse_while_row ind (g : list (list Z)) row :
  g !! ind = Some row →
  Board.reverse_while ind 0 (length row - 1) g = Some (<[ind := reverse row]> g).
Proof.
  intros Hrow.
  destruct (reverse_while_lookup ind (length row - 1) 0 g row Hrow)
    as (res & -> & Hlen & Hres).
  { destruct row; simpl; lia. }
  do 2 f_equal. apply list_eq. intros k. rewrite Hres.
  destruct (decide (k < length row)) as [Hk|Hk].
  - rewrite decide_True by lia. rewrite reverse_lookup by done. f_equal. lia.
  - rewrite (lookup_ge_None_2 (reverse row)) by (rewrite length_reverse; lia).
    case_decide; apply lookup_ge_None_2; lia.
Qed.

Lemma reverse_spec b :
  wf (Board.size b) (Board.gridCell b) →
  Board.reverse b = Some (Board.set_gridCell (map reverse (Board.gridCell b)) b).
Proof.
  intros Hwf. unfold Board.reverse.
  set (n := Board.size b) in *. set (g0 := Board.gridCell b) in *.
  destruct (for_range_inv
    (λ ind g, length g = n ∧
              ∀ i, g !! i = if decide (i < ind) then reverse <$> g0 !! i
                            else g0 !! i)
    0 n (λ ind g, Board.reverse_while ind 0 (n - 1) g) g0)
    as (g & -> & Hlen & Hg).
  - split; [apply Hwf|]. intros i. by rewrite decide_False by lia.
  - intros ind g Hind [Hlen Hg].
    destruct (wf_lookup n g0 ind Hwf) as (row & Hrow & Hrl); [lia|].
    assert (g !! ind = Some row) as Hgi.
    { rewrite Hg. by rewrite decide_False by lia. }
    replace (n - 1) with (length row - 1) by lia.
    rewrite (reverse_while_row _ _ _ Hgi).
    eexists. split; [done|]. split; [by rewrite length_insert|].
    intros i. destruct (decide (i = ind)) as [->|Hne].
    + rewrite list_lookup_insert_eq by lia. rewrite decide_True by lia.
      by rewrite Hrow.
    + rewrite list_lookup_insert_ne by done. rewrite Hg.
      repeat case_decide; try lia; done.
  - simpl. do 2 f_equal. apply list_eq. intros i. rewrite Hg.
    rewrite list_lookup_fmap. case_decide as Hi; [done|].
    simpl in Hi. destruct Hwf as [Hl _].
    rewrite lookup_ge_None_2 by lia. done.
Qed.

(** ** [transpose] *)

Lemma zip_star_spec m (g : list (list Z)) :
  Forall (λ row, length row = m) g → g ≠ [] →
  length (zip_star g) = m ∧
  Forall (λ col, length col = length g) (zip_star g) ∧
  ∀ i j, cell (zip_star g) i j = cell g j i.
Proof.
  induction g as [|r g IH]; [done|]. intros Hall _.
  apply Forall_cons in Hall as [Hr Hall].
  destruct g as [|r' g].
  - simpl. split; [by rewrite length_map|]. split.
    + apply Forall_forall. intros col Hin.
      apply list_elem_of_fmap in Hin as (x & -> & _). done.
    + intros i j. unfold cell. rewrite list_lookup_fmap.
      destruct j as [|j]; simpl.
      * by destruct (r !! i).
      * by destruct (r !! i).
  - destruct IH as (Hlen & Hcols & Hcell); [done..|].
    change (zip_star (r :: r' :: g)) with (zip_with cons r (zip_star (r' :: g))).
    set (Z' := zip_star (r' :: g)) in *.
    split; [rewrite length_zip_with; lia|]. split.
    + apply Forall_lookup. intros i col Hcol.
      apply lookup_zip_with_Some in Hcol as (x & y & -> & Hx & Hy).
      simpl. f_equal. by eapply (Forall_lookup_1 _ _ _ _ Hcols Hy).
    + intros i j. unfold cell at 1. rewrite lookup_zip_with.
      destruct (decide (i < m)) as [Hi|Hi].
      * destruct (lookup_lt_is_Some_2 r i) as [x Hx]; [lia|].
        destruct (lookup_lt_is_Some_2 Z' i) as [y Hy]; [lia|].
        rewrite Hx, Hy. simpl. destruct j as [|j]; simpl.
        -- unfold cell. simpl. done.
        -- specialize (Hcell i j). unfold cell at 1 in Hcell.
           rewrite Hy in Hcell. simpl in Hcell. rewrite Hcell. done.
      * rewrite (lookup_ge_None_2 r i) by lia. simpl.
        symmetry. destruct (cell (r :: r' :: g) j i) as [v|] eqn:Hc; [|done].
        unfold cell in Hc. destruct ((r :: r' :: g) !! j) as [row|] eqn:Hrow; [|done].
        simpl in Hc. apply lookup_lt_Some in Hc.
        assert (length row = m); [|lia].
        eapply (Forall_lookup_1 (λ row, length row = m)); [|exact Hrow].
        by apply Forall_cons.
Qed.

Lemma zip_star_wf n g :
  wf n g → wf n (zip_star g) ∧ ∀ i j, cell (zip_star g) i j = cell g j i.
Proof.
  intros [Hlen Hrows]. destruct g as [|r g].
  - simpl in *. subst n. split; [split; [done | constructor]|]. done.
  - destruct (zip_star_spec n (r :: g)) as (Hl & Hc & Hcell); [done..|].
    split; [|done]. split; [done|]. by rewrite Hlen in Hc.
Qed.

Lemma zip_star_involutive n g : wf n g → zip_star (zip_star g) = g.
Proof.
  intros Hwf. destruct (zip_star_wf n g Hwf) as [Hwf1 Hc1].
  destruct (zip_star_wf n _ Hwf1) as [Hwf2 Hc2].
  apply (grid_eq n); [done..|]. intros i j. by rewrite Hc2, Hc1.
Qed.

(** ** [compressGrid] *)

Ltac loop_inv I :=
  match goal with
  | |- context [for_range ?lo ?len ?body ?s] =>
      let H := fresh "Hloop" in
      destruct (for_range_inv I lo len body s) as (? & H & ?);
      [ | | rewrite H; clear H ]
  end.

Lemma filter_nonzero_short (l : list Z) :
  length (filter (λ v, v ≠ 0%Z) l) ≠ length l ↔ ∃ k, l !! k = Some 0%Z.
Proof.
  split.
  - induction l as [|x l IH]; [done|]. rewrite filter_cons.
    destruct (decide (x ≠ 0%Z)) as [Hx|Hx]; simpl.
    + intros Hne. destruct IH as [k Hk]; [lia|]. by exists (S k).
    + intros _. exists 0. simpl. f_equal. lia.
  - intros [k Hk]. apply list_elem_of_lookup_2 in Hk.
    pose proof (length_filter_lt (λ v, v ≠ 0%Z) l 0%Z Hk). lia.
Qed.

Lemma compress_inner n (g0 : list (list Z)) i row temp flag :
  g0 !! i = Some row → length row = n → wf n temp → i < n →
  temp !! i = Some (replicate n 0%Z) →
  ∃ flag' cnt,
    for_range 0 n (λ j '(temp, flag, cnt),
        v ← cell g0 i j;
        if decide (v ≠ 0%Z) then
          temp' ← set_cell temp i cnt v;
          Some (temp', if decide (cnt ≠ j) then true else flag, S cnt)
        else Some (temp, flag, cnt)) (temp, flag, O)
    = Some (<[i := slid_left row]> temp, flag', cnt) ∧
    (flag' = true ↔ flag = true ∨ slides row).
Proof.
  intros Hrow Hlen Hwf Hi Htemp.
  loop_inv (λ j (s : list (list Z) * bool * nat),
    let '(t, f, c) := s in
    c = length (filter (λ v, v ≠ 0%Z) (take j row)) ∧
    t = <[i := filter (λ v, v ≠ 0%Z) (take j row) ++ replicate (n - c) 0%Z]> temp ∧
    (f = true ↔ flag = true ∨
       ∃ k j' v, k < j' < j ∧ row !! k = Some 0%Z ∧ row !! j' = Some v ∧ v ≠ 0%Z)).
  - simpl. split; [done|]. split.
    + rewrite Nat.sub_0_r. symmetry. by apply list_insert_id.
    + split; [tauto|]. intros [?|(k & j' & v & ? & _)]; [done | lia].
  - intros j [[t f] c] Hj (Hc & Ht & Hf).
    destruct (lookup_lt_is_Some_2 row j) as [v Hv]; [lia|].
    rewrite (cell_row _ _ _ _ Hrow), Hv. simpl.
    pose proof (length_filter (λ v, v ≠ 0%Z) (take j row)) as Hle.
    rewrite length_take in Hle.
    rewrite (take_S_r _ _ _ Hv), filter_app, filter_cons, filter_nil.
    destruct (decide (v ≠ 0%Z)) as [Hnz|Hz].
    + unfold set_cell. subst t. rewrite list_lookup_insert_eq by (destruct Hwf as [-> _]; lia).
      simpl. rewrite lookup_app_r by lia.
      rewrite <- Hc, Nat.sub_diag.
      destruct (n - c) as [|m] eqn:Hm; [lia|]. simpl.
      eexists. split; [done|]. split; [rewrite length_app; simpl; lia|]. split.
      * rewrite list_insert_insert_eq. f_equal.
        rewrite insert_app_r_alt by lia. rewrite <- Hc, Nat.sub_diag. simpl.
        rewrite <- app_assoc. simpl. do 3 f_equal. lia.
      * case_decide as Hcj.
        -- split; [|done]. intros _. right.
           destruct (proj1 (filter_nonzero_short (take j row))) as [k Hk].
           { rewrite length_take. lia. }
           apply lookup_take_Some in Hk as [Hk Hkj].
           exists k, j, v. split; [lia|]. done.
        -- rewrite Hf. split.
           ++ intros [?|(k & j' & w & ? & ?)]; [by left|].
              right. exists k, j', w. split; [lia | done].
           ++ intros [?|(k & j' & w & Hkj & Hk & Hj' & Hw)]; [by left|].
              destruct (decide (j' = j)) as [->|].
              ** exfalso.
                 assert (length (filter (λ v, v ≠ 0%Z) (take j row)) ≠ length (take j row)).
                 { apply filter_nonzero_short. exists k.
                   rewrite lookup_take_lt by lia. done. }
                 rewrite length_take in *. lia.
              ** right. exists k, j', w. split; [lia | done].
    + eexists. split; [done|]. rewrite app_nil_r.
      split; [done|]. split; [done|]. rewrite Hf. split.
      * intros [?|(k & j' & w & ? & ?)]; [by left|].
        right. exists k, j', w. split; [lia | done].
      * intros [?|(k & j' & w & Hkj & Hk & Hj' & Hw)]; [by left|].
        destruct (decide (j' = j)) as [->|].
        { rewrite Hv in Hj'. injection Hj' as <-. lia. }
        right. exists k, j', w. split; [lia | done].
  - destruct x as [[t f] c]. destruct H as (Hc & Ht & Hf). simpl in *.
    rewrite take_ge in Hc, Ht by lia.
    exists f, c. split.
    + subst t. unfold slid_left. rewrite Hlen, <- Hc. done.
    + rewrite Hf. unfold slides. split.
      * intros [?|(k & j' & w & ? & ?)]; [by left|].
        right. exists k, j', w. split; [lia | done].
      * intros [?|(k & j' & w & Hkj & Hk & Hj' & Hw)]; [by left|].
        right. exists k, j', w. split; [|done].
        apply lookup_lt_Some in Hj'. lia.
Qed.

Lemma length_slid_left row : length (slid_left row) = length row.
Proof.
  unfold slid_left. rewrite length_app, length_replicate.
  pose proof (length_filter (λ v, v ≠ 0%Z) row). lia.
Qed.

Lemma compressGrid_spec b :
  wf (Board.size b) (Board.gridCell b) →
  ∃ flag,
    Board.compressGrid b =
      Some (Board.set_gridCell (map slid_left (Board.gridCell b))
              (Board.set_compress flag b)) ∧
    (flag = true ↔ Exists slides (Board.gridCell b)).
Proof.
  intros Hwf. unfold Board.compressGrid.
  set (n := Board.size b) in *. set (g0 := Board.gridCell b) in *.
  loop_inv (λ i (s : list (list Z) * bool),
    wf n s.1 ∧
    (∀ i', s.1 !! i' = if decide (i' < i) then slid_left <$> g0 !! i'
                       else zeros n !! i') ∧
    (s.2 = true ↔ ∃ i' row, i' < i ∧ g0 !! i' = Some row ∧ slides row)).
  - simpl. split; [apply wf_zeros|]. split; [done|].
    split; [done|]. intros (i' & ? & ? & _). lia.
  - intros i [temp flag] Hi (Hwt & Htemp & Hflag). simpl in *.
    destruct (wf_lookup n g0 i Hwf) as (row & Hrow & Hlen); [lia|].
    destruct (compress_inner n g0 i row temp flag) as (flag' & cnt & -> & Hflag');
      [done..|lia| |].
    { rewrite Htemp. rewrite decide_False by lia.
      apply lookup_replicate_2. lia. }
    simpl. eexists. split; [done|]. simpl. split.
    { apply wf_insert; [done|]. by rewrite length_slid_left. }
    split.
    + intros i'. destruct (decide (i' = i)) as [->|Hne].
      * rewrite list_lookup_insert_eq by (destruct Hwt as [-> _]; lia).
        rewrite decide_True by lia. by rewrite Hrow.
      * rewrite list_lookup_insert_ne by done. rewrite Htemp.
        repeat case_decide; try lia; done.
    + rewrite Hflag', Hflag. split.
      * intros [(i' & r & ? & ? & ?)|Hs].
        -- exists i', r. split; [lia | done].
        -- exists i, row. split; [lia | done].
      * intros (i' & r & Hi' & Hr & Hs).
        destruct (decide (i' = i)) as [->|].
        -- right. congruence.
        -- left. exists i', r. split; [lia | done].
  - destruct x as [temp flag]. destruct H as (Hwt & Htemp & Hflag). simpl in *.
    exists flag. split.
    + do 2 f_equal. apply list_eq. intros i'. rewrite Htemp.
      rewrite list_lookup_fmap. case_decide as Hi'; [done|].
      destruct Hwf as [Hl _]. rewrite (lookup_ge_None_2 g0) by lia.
      simpl. apply lookup_ge_None_2. unfold zeros. rewrite length_replicate. lia.
    + rewrite Hflag, Exists_exists. split.
      * intros (i' & r & _ & Hr & Hs). exists r. split; [|done].
        by eapply list_elem_of_lookup_2.
      * intros (r & Hin & Hs). apply list_elem_of_lookup_1 in Hin as [i' Hr].
        exists i', r. split; [|done].
        apply lookup_lt_Some in Hr. destruct Hwf as [Hl _]. lia.
Qed.

(** ** [mergeGrid] *)

Ltac split_decide :=
  repeat match goal with
         | |- context [decide ?P] => destruct (decide P)
         end.

Ltac absurd_decide :=
  exfalso;
  repeat match goal with H : _ ∧ _ |- _ => destruct H end;
  first [ lia | congruence
        | match goal with
          | H : ¬ (_ ∧ _) |- _ =>
              solve [apply H; split; [lia | first [assumption | congruence]]]
          end ].

Lemma equal_pair_true row j :
  equal_pair row j = true ↔
  ∃ x, row !! j = Some x ∧ row !! S j = Some x ∧ x ≠ 0%Z.
Proof.
  unfold equal_pair. split.
  - destruct (row !! j) as [x|]; [|done]. destruct (row !! S j) as [y|]; [|done].
    intros [-> Hx]%bool_decide_eq_true. by exists y.
  - intros (x & -> & -> & Hx). by apply bool_decide_eq_true.
Qed.

Lemma merges_at_pair row j : merges_at row j = true → equal_pair row j = true.
Proof. destruct j; simpl; [done|]. by intros [_ ?]%andb_true_iff. Qed.

Lemma merges_at_S row j : merges_at row (S j) = true → merges_at row j = false.
Proof. simpl. intros [H _]%andb_true_iff. by apply negb_true_iff. Qed.

Lemma merges_at_lt row j : merges_at row j = true → S j < length row.
Proof.
  intros (x & _ & H & _)%merges_at_pair%equal_pair_true.
  by eapply lookup_lt_Some.
Qed.

Lemma merged_upto_cond row j x y :
  imap (merged_upto row j) row !! j = Some x →
  imap (merged_upto row j) row !! S j = Some y →
  (x = y ∧ x ≠ 0%Z ↔ merges_at row j = true) ∧
  (merges_at row j = true → row !! j = Some x).
Proof.
  rewrite !list_lookup_imap. unfold merged_upto.
  destruct (row !! j) as [x0|] eqn:Hx; [|done].
  destruct (row !! S j) as [y0|] eqn:Hy; [|done]. simpl.
  rewrite (decide_False (P := j < j ∧ _)) by (intros [? _]; lia).
  rewrite (decide_False (P := S j < j ∧ _)) by (intros [? _]; lia).
  rewrite (decide_False (P := 0 < S j ≤ j ∧ _)) by (intros [? _]; lia).
  intros [= <-] [= <-]. case_decide as Hprev.
  - destruct Hprev as [Hj Hprev]. destruct j as [|j]; [lia|].
    replace (S j - 1) with j in Hprev by lia.
    assert (merges_at row (S j) = false) as ->.
    { simpl. by rewrite Hprev. }
    split; [|done]. split; [intros [_ ?]; done | done].
  - assert (merges_at row j = equal_pair row j) as ->.
    { destruct j as [|j]; [done|]. simpl.
      destruct (merges_at row j) eqn:Hm; [|done].
      exfalso. apply Hprev. split; [lia|]. by replace (S j - 1) with j by lia. }
    unfold equal_pair. rewrite Hx, Hy. rewrite bool_decide_eq_true. done.
Qed.

Lemma merged_upto_merge row j x :
  row !! j = Some x → merges_at row j = true →
  <[S j := 0%Z]> (<[j := (x * 2)%Z]> (imap (merged_upto row j) row))
  = imap (merged_upto row (S j)) row.
Proof.
  intros Hx Hm. pose proof (merges_at_lt _ _ Hm) as Hlt.
  apply list_eq. intros k. rewrite !list_lookup_imap.
  destruct (decide (k = S j)) as [->|Hk1].
  - rewrite list_lookup_insert_eq by (rewrite length_insert, length_imap; lia).
    destruct (lookup_lt_is_Some_2 row (S j)) as [y ->]; [lia|]. simpl.
    unfold merged_upto. rewrite decide_False by lia.
    rewrite decide_True; [done|]. split; [lia|]. by replace (S j - 1) with j by lia.
  - rewrite list_lookup_insert_ne by done.
    destruct (decide (k = j)) as [->|Hk2].
    + rewrite list_lookup_insert_eq by (rewrite length_imap; lia).
      rewrite Hx. simpl. unfold merged_upto. rewrite decide_True; [done|].
      split; [lia | done].
    + rewrite list_lookup_insert_ne by done. rewrite list_lookup_imap.
      destruct (row !! k) as [z|]; [|done]. simpl. f_equal.
      unfold merged_upto. split_decide; try done; absurd_decide.
Qed.

Lemma merged_upto_skip row j :
  merges_at row j = false →
  imap (merged_upto row j) row = imap (merged_upto row (S j)) row.
Proof.
  intros Hm. apply list_eq. intros k. rewrite !list_lookup_imap.
  destruct (row !! k) as [z|]; [|done]. simpl. f_equal.
  unfold merged_upto.
  destruct (decide (k = j)) as [->|Hk2].
  { rewrite !(decide_False (P := j < _ ∧ _))
      by (intros [? ?]; first [lia | congruence]).
    split_decide; try done; absurd_decide. }
  destruct (decide (k = S j)) as [->|Hk1].
  { replace (S j - 1) with j by lia.
    rewrite !decide_False by (intros [? ?]; first [lia | congruence]). done. }
  split_decide; try done; absurd_decide.
Qed.

Lemma merged_upto_last row :
  imap (merged_upto row (length row - 1)) row = merged_row row.
Proof.
  unfold merged_row. apply list_eq. intros k. rewrite !list_lookup_imap.
  destruct (row !! k) as [z|] eqn:Hk; [|done]. simpl. f_equal.
  apply lookup_lt_Some in Hk. unfold merged_upto, merged_cell.
  destruct (merges_at row k) eqn:Hm.
  - apply merges_at_lt in Hm as Hlt. rewrite decide_True; [done|].
    split; [lia | done].
  - rewrite decide_False by (intros [? ?]; congruence). destruct k as [|k].
    + rewrite decide_False by lia. done.
    + replace (S k - 1) with k by lia. destruct (merges_at row k).
      * rewrite decide_True; [done|]. split; [lia | done].
      * rewrite decide_False by (intros [? ?]; congruence). done.
Qed.

Lemma merged_upto_0 row : imap (merged_upto row 0) row = row.
Proof.
  apply list_eq. intros k. rewrite list_lookup_imap.
  destruct (row !! k) as [z|]; [|done]. simpl. f_equal.
  unfold merged_upto. rewrite !decide_False by (intros [? _]; lia). done.
Qed.

Lemma merge_inner n i row g c flag mv sc :
  wf n g → g !! i = Some row →
  for_range 0 (n - 1) (λ j b,
      x ← cell (Board.gridCell b) i j;
      y ← cell (Board.gridCell b) i (S j);
      if decide (x = y ∧ x ≠ 0%Z) then
        g1 ← set_cell (Board.gridCell b) i j (x * 2)%Z;
        g2 ← set_cell g1 i (S j) 0%Z;
        d ← cell g2 i j;
        Some (Board.set_merge true
                (Board.set_score (Board.score b + d)%Z (Board.set_gridCell g2 b)))
      else Some b) (Board.mk n g c flag mv sc)
  = Some (Board.mk n (<[i := merged_row row]> g) c (flag || row_merges row) mv
            (sc + row_gain row)%Z).
Proof.
  intros Hwf Hrow. pose proof (wf_row _ _ _ _ Hwf Hrow) as Hlen.
  assert (i < length g) as Hi by (by eapply lookup_lt_Some).
  loop_inv (λ j s,
    s = Board.mk n (<[i := imap (merged_upto row j) row]> g) c
          (flag || merges_before row j) mv (sc + gain_before row j)%Z).
  - simpl. rewrite merged_upto_0, list_insert_id by done.
    by rewrite orb_false_r, Z.add_0_r.
  - intros j s Hj ->. simpl.
    set (R := imap (merged_upto row j) row).
    assert (length R = n) as HR by (unfold R; by rewrite length_imap).
    assert (<[i := R]> g !! i = Some R) as HgR by (by apply list_lookup_insert_eq).
    destruct (lookup_lt_is_Some_2 R j) as [x Hx]; [lia|].
    destruct (lookup_lt_is_Some_2 R (S j)) as [y Hy]; [lia|].
    rewrite !(cell_row _ _ _ _ HgR), Hx, Hy. simpl.
    destruct (merged_upto_cond row j x y Hx Hy) as [Hcond Hval].
    case_decide as Hc.
    + apply Hcond in Hc as Hm. specialize (Hval Hm).
      rewrite (set_cell_row _ _ _ _ _ _ HgR Hx). simpl.
      rewrite list_insert_insert_eq.
      erewrite set_cell_row; [|by apply list_lookup_insert_eq|]; last first.
      { rewrite list_lookup_insert_ne by lia. exact Hy. }
      simpl. rewrite list_insert_insert_eq.
      erewrite cell_row by (by apply list_lookup_insert_eq).
      rewrite list_lookup_insert_ne by lia.
      rewrite list_lookup_insert_eq by lia. simpl.
      eexists. split; [done|]. unfold Board.set_merge, Board.set_score,
        Board.set_gridCell. simpl.
      unfold R. rewrite (merged_upto_merge _ _ _ Hval Hm).
      rewrite Hm, Hval, orb_true_r, orb_true_r. simpl. f_equal. lia.
    + assert (merges_at row j = false) as Hm.
      { destruct (merges_at row j); [|done]. exfalso. by apply Hc, Hcond. }
      eexists. split; [done|]. unfold R.
      rewrite (merged_upto_skip _ _ Hm), Hm, orb_false_r. f_equal. lia.
  - subst x. simpl. unfold row_merges, row_gain. rewrite Hlen.
    rewrite <- merged_upto_last, Hlen. done.
Qed.

Lemma grid_gain_snoc g row :
  grid_gain (g ++ [row]) = (grid_gain g + row_gain row)%Z.
Proof.
  unfold grid_gain. induction g as [|r g IH]; simpl; [lia|]. rewrite IH. lia.
Qed.

Lemma length_merged_row row : length (merged_row row) = length row.
Proof. unfold merged_row. apply length_imap. Qed.

Lemma rows_done_lookup f i g k :
  rows_done f i g !! k = if decide (k < i) then f <$> g !! k else g !! k.
Proof.
  unfold rows_done. destruct (decide (i ≤ length g)) as [Hi|Hi].
  - case_decide as Hk.
    + rewrite lookup_app_l by (rewrite length_map, length_take; lia).
      rewrite list_lookup_fmap, lookup_take_lt by lia. done.
    + rewrite lookup_app_r by (rewrite length_map, length_take; lia).
      rewrite length_map, length_take, lookup_drop. f_equal. lia.
  - rewrite take_ge, drop_ge, app_nil_r by lia. rewrite list_lookup_fmap.
    case_decide as Hk; [done|]. rewrite lookup_ge_None_2 by lia. done.
Qed.

Lemma rows_done_wf f n i g :
  (∀ row, length (f row) = length row) → wf n g → wf n (rows_done f i g).
Proof.
  intros Hf [Hlen Hrows]. split.
  - unfold rows_done. rewrite length_app, length_map, length_take, length_drop. lia.
  - apply Forall_lookup. intros k row. rewrite rows_done_lookup.
    case_decide.
    + destruct (g !! k) as [r|] eqn:Hr; [|done]. intros [= <-].
      rewrite Hf. by eapply (Forall_lookup_1 _ _ _ _ Hrows).
    + intros Hr. by eapply (Forall_lookup_1 _ _ _ _ Hrows).
Qed.

Lemma rows_done_step f i g row :
  g !! i = Some row →
  <[i := f row]> (rows_done f i g) = rows_done f (S i) g.
Proof.
  intros Hrow. apply list_eq. intros k.
  destruct (decide (k = i)) as [->|Hk].
  - rewrite list_lookup_insert_eq.
    + rewrite rows_done_lookup, decide_True by lia. by rewrite Hrow.
    + apply lookup_lt_is_Some. rewrite rows_done_lookup, decide_False by lia. eauto.
  - rewrite list_lookup_insert_ne by done. rewrite !rows_done_lookup.
    split_decide; try done; lia.
Qed.

Lemma rows_done_all f n g : length g = n → rows_done f n g = map f g.
Proof.
  intros <-. unfold rows_done. by rewrite firstn_all, drop_all, app_nil_r.
Qed.

Lemma mergeGrid_spec b :
  wf (Board.size b) (Board.gridCell b) →
  Board.mergeGrid b =
    Some (Board.mk (Board.size b) (map merged_row (Board.gridCell b))
            (Board.compress b) (existsb row_merges (Board.gridCell b))
            (Board.moved b) (Board.score b + grid_gain (Board.gridCell b))%Z).
Proof.
  intros Hwf. unfold Board.mergeGrid. destruct b as [n g0 c m mv sc]. simpl in *.
  loop_inv (λ i s,
    s = Board.mk n (rows_done merged_row i g0) c (existsb row_merges (take i g0))
          mv (sc + grid_gain (take i g0))%Z).
  - unfold Board.set_merge, rows_done. simpl. f_equal. lia.
  - intros i s Hi ->. simpl.
    destruct (wf_lookup n g0 i Hwf) as (row & Hrow & Hlen); [lia|].
    rewrite (merge_inner n i row).
    + eexists. split; [done|].
      rewrite (rows_done_step _ _ _ _ Hrow), (take_S_r _ _ _ Hrow).
      rewrite existsb_app, grid_gain_snoc. simpl. rewrite orb_false_r.
      f_equal. lia.
    + apply rows_done_wf; [apply length_merged_row | done].
    + rewrite rows_done_lookup, decide_False by lia. done.
  - subst x. simpl. destruct Hwf as [Hl _].
    rewrite (rows_done_all _ _ _ Hl), take_ge by lia. done.
Qed.

(** ** [random_cell] *)

Lemma cells_inner n (g : list (list Z)) i (cells : list (nat * nat)) :
  wf n g → i < n →
  ∃ cells',
    for_range 0 n (λ j cells,
        v ← cell g i j;
        Some (if decide (v = 0%Z) then cells ++ [(i, j)] else cells)) cells
    = Some cells' ∧
    ∀ p, p ∈ cells' ↔ p ∈ cells ∨ (p.1 = i ∧ cell g i p.2 = Some 0%Z).
Proof.
  intros Hwf Hi.
  loop_inv (λ j (cs : list (nat * nat)),
    ∀ p, p ∈ cs ↔ p ∈ cells ∨ (p.1 = i ∧ p.2 < j ∧ cell g i p.2 = Some 0%Z)).
  - intros p. split; [tauto|]. intros [?|(_ & ? & _)]; [done | lia].
  - intros j cs Hj Hcs.
    destruct (cell_is_Some n g i j Hwf Hi) as [v Hv]; [lia|].
    rewrite Hv. simpl. eexists. split; [done|]. intros [pi pj].
    case_decide as Hz.
    + rewrite elem_of_app, Hcs, list_elem_of_singleton. simpl. split.
      * intros [[?|(? & ? & ?)]|[= -> ->]]; [by left|right..].
        -- split; [done|]. split; [lia | done].
        -- subst v. split; [done|]. split; [lia | done].
      * intros [?|(-> & Hlt & Hc)]; [by left; left|].
        destruct (decide (pj = j)) as [->|]; [by right|].
        left. right. split; [done|]. split; [lia | done].
    + rewrite Hcs. simpl. split.
      * intros [?|(? & ? & ?)]; [by left|right].
        split; [done|]. split; [lia | done].
      * intros [?|(-> & Hlt & Hc)]; [by left|].
        destruct (decide (pj = j)) as [->|]; [congruence|].
        right. split; [done|]. split; [lia | done].
  - eexists. split; [done|]. intros p. rewrite H. split.
    + intros [?|(? & _ & ?)]; [by left | by right].
    + intros [?|(? & Hc)]; [by left|]. right. split; [done|]. split; [|done].
      by destruct (cell_lt _ _ _ _ _ Hwf Hc).
Qed.

Lemma random_cell_spec d b :
  wf (Board.size b) (Board.gridCell b) →
  (¬ has_empty (Board.gridCell b) → Board.random_cell d b = Some (false, b)) ∧
  (has_empty (Board.gridCell b) →
   ∃ i j v g',
     cell (Board.gridCell b) i j = Some 0%Z ∧ (v = 2%Z ∨ v = 4%Z) ∧
     Board.random_cell d b = Some (true, Board.set_gridCell g' b) ∧
     wf (Board.size b) g' ∧
     ∀ i' j', cell g' i' j' =
              if decide (i' = i ∧ j' = j) then Some v
              else cell (Board.gridCell b) i' j').
Proof.
  intros Hwf. unfold Board.random_cell.
  set (n := Board.size b) in *. set (g := Board.gridCell b) in *.
  loop_inv (λ i (cs : list (nat * nat)),
    ∀ p, p ∈ cs ↔ (p.1 < i ∧ cell g p.1 p.2 = Some 0%Z)).
  - intros p. split; [by intros ?%elem_of_nil | intros [? _]; lia].
  - intros i cs Hi Hcs.
    destruct (cells_inner n g i cs Hwf) as (cs' & -> & Hcs'); [lia|].
    eexists. split; [done|]. intros p. rewrite Hcs', Hcs. split.
    + intros [[? ?]|[<- ?]]; (split; [lia | done]).
    + intros [Hlt Hc]. destruct (decide (p.1 = i)) as [<-|]; [by right|].
      left. split; [lia | done].
  - rename x into cells. rename H into Hcells. simpl. split.
    + intros Hne. destruct cells as [|[i j] cells]; [done|]. exfalso.
      apply Hne. exists i, j. apply (Hcells (i, j)). by left.
    + intros (i0 & j0 & Hz).
      assert (cells ≠ []) as Hne.
      { intros ->. apply (elem_of_nil (i0, j0)). apply Hcells. simpl.
        split; [|done]. by destruct (cell_lt _ _ _ _ _ Hwf Hz). }
      destruct (lookup_lt_is_Some_2 cells (choice d `mod` length cells))
        as [[i j] Hij].
      { apply Nat.mod_upper_bound. by destruct cells. }
      rewrite Hij. simpl.
      apply list_elem_of_lookup_2, Hcells in Hij as [_ Hc]. simpl in Hc.
      destruct (cell_lt _ _ _ _ _ Hwf Hc) as [Hi Hj].
      destruct (set_cell_wf n g i j (if lt_tenth d then 4%Z else 2%Z) Hwf Hi Hj)
        as (g' & -> & Hwf' & Hcell'). simpl.
      exists i, j, (if lt_tenth d then 4%Z else 2%Z), g'.
      split; [done|]. split; [destruct (lt_tenth d); auto|].
      split; [|done]. destruct cells; [done | done].
Qed.

(** ** [can_merge] and [can_move] *)

Lemma for_return_true lo len (body : nat → option (option bool)) (P : nat → Prop) :
  (∀ j, lo ≤ j < lo + len →
        (P j ∧ body j = Some (Some true)) ∨ (¬ P j ∧ body j = Some None)) →
  (for_return lo len body = Some (Some true) ∧ ∃ j, lo ≤ j < lo + len ∧ P j) ∨
  (for_return lo len body = Some None ∧ ∀ j, lo ≤ j < lo + len → ¬ P j).
Proof.
  revert lo. induction len as [|len IH]; intros lo Hbody; simpl.
  - right. split; [done|]. intros; lia.
  - destruct (Hbody lo) as [[HP ->]|[HP ->]]; [lia| |]; simpl.
    + left. split; [done|]. exists lo. split; [lia | done].
    + destruct (IH (S lo)) as [[-> (j & Hj & HPj)]|[-> Hno]].
      { intros j Hj. apply Hbody. lia. }
      * left. split; [done|]. exists j. split; [lia | done].
      * right. split; [done|]. intros j Hj.
        destruct (decide (j = lo)) as [->|]; [done|]. apply Hno. lia.
Qed.

Lemma can_merge_spec b :
  wf (Board.size b) (Board.gridCell b) →
  ∃ r, Board.can_merge b = Some r ∧
       (r = true ↔ equal_neighbours (Board.gridCell b)).
Proof.
  intros Hwf. unfold Board.can_merge.
  set (n := Board.size b) in *. set (g := Board.gridCell b) in *.
  match goal with |- context [for_return 0 n ?body] =>
    destruct (for_return_true 0 n body
      (λ i, ∃ j x, cell g i j = Some x ∧ cell g i (S j) = Some x))
      as [[-> (i & Hi & j & x & Hx & Hy)]|[-> Hrow]] end.
  - intros i Hi.
    match goal with |- context [for_return 0 (n - 1) ?body] =>
      destruct (for_return_true 0 (n - 1) body
        (λ j, ∃ x, cell g i j = Some x ∧ cell g i (S j) = Some x))
        as [[-> (j & Hj & x & Hx & Hy)]|[-> Hno]] end.
    + intros j Hj.
      destruct (cell_is_Some n g i j Hwf) as [x Hx]; [lia..|].
      destruct (cell_is_Some n g i (S j) Hwf) as [y Hy]; [lia..|].
      rewrite Hx, Hy. simpl. case_decide as Hxy.
      * left. split; [|done]. exists x. by subst y.
      * right. split; [|done]. intros (x' & Hx' & Hy'). congruence.
    + left. split; [|done]. eauto.
    + right. split; [|done]. intros (j & x & Hx & Hy).
      apply (Hno j); [|eauto].
      destruct (cell_lt _ _ _ _ _ Hwf Hy). lia.
  - simpl. exists true. split; [done|]. split; [|done]. intros _.
    exists i, j, x. auto.
  - simpl.
    match goal with |- context [for_return 0 (n - 1) ?body] =>
      destruct (for_return_true 0 (n - 1) body
        (λ i, ∃ j x, cell g (S i) j = Some x ∧ cell g i j = Some x))
        as [[-> (i & Hi & j & x & Hx & Hy)]|[-> Hcol]] end.
    + intros i Hi.
      match goal with |- context [for_return 0 n ?body] =>
        destruct (for_return_true 0 n body
          (λ j, ∃ x, cell g (S i) j = Some x ∧ cell g i j = Some x))
          as [[-> (j & Hj & x & Hx & Hy)]|[-> Hno]] end.
      * intros j Hj.
        destruct (cell_is_Some n g (S i) j Hwf) as [x Hx]; [lia..|].
        destruct (cell_is_Some n g i j Hwf) as [y Hy]; [lia..|].
        rewrite Hx, Hy. simpl. case_decide as Hxy.
        -- left. split; [|done]. exists x. by subst y.
        -- right. split; [|done]. intros (x' & Hx' & Hy'). congruence.
      * left. split; [|done]. eauto.
      * right. split; [|done]. intros (j & x & Hx & Hy).
        apply (Hno j); [|eauto].
        destruct (cell_lt _ _ _ _ _ Hwf Hy). lia.
    + simpl. exists true. split; [done|]. split; [|done]. intros _.
      exists i, j, x. auto.
    + simpl. exists false. split; [done|]. split; [done|].
      intros (i & j & x & Hx & [Hy|Hy]); exfalso.
      * apply (Hrow i); [|eauto]. destruct (cell_lt _ _ _ _ _ Hwf Hx). lia.
      * apply (Hcol i); [|eauto]. destruct (cell_lt _ _ _ _ _ Hwf Hy). lia.
Qed.

Lemma can_move_spec g :
  wf (Board.size (Game.board g)) (Board.gridCell (Game.board g)) →
  ∃ r, Game.can_move g = Some r ∧
       (r = true ↔ has_empty (Board.gridCell (Game.board g)) ∨
                   equal_neighbours (Board.gridCell (Game.board g))).
Proof.
  intros Hwf. unfold Game.can_move.
  set (n := Board.size (Game.board g)) in *.
  set (gr := Board.gridCell (Game.board g)) in *.
  match goal with |- context [for_return 0 n ?body] =>
    destruct (for_return_true 0 n body (λ i, ∃ j, cell gr i j = Some 0%Z))
      as [[-> (i & Hi & j & Hz)]|[-> Hno]] end.
  - intros i Hi.
    match goal with |- context [for_return 0 n ?body] =>
      destruct (for_return_true 0 n body (λ j, cell gr i j = Some 0%Z))
        as [[-> (j & Hj & Hz)]|[-> Hno]] end.
    + intros j Hj. destruct (cell_is_Some n gr i j Hwf) as [x Hx]; [lia..|].
      rewrite Hx. simpl. case_decide as Hz.
      * left. by subst x.
      * right. split; [|done]. congruence.
    + left. split; [|done]. eauto.
    + right. split; [|done]. intros (j & Hz). apply (Hno j); [|done].
      destruct (cell_lt _ _ _ _ _ Hwf Hz). lia.
  - simpl. exists true. split; [done|]. split; [|done]. intros _. left.
    by exists i, j.
  - simpl. destruct (can_merge_spec (Game.board g) Hwf) as (r & -> & Hr).
    exists r. split; [done|]. rewrite Hr. split; [by right|].
    intros [(i & j & Hz)|?]; [|done]. exfalso. apply (Hno i); [|eauto].
    destruct (cell_lt _ _ _ _ _ Hwf Hz). lia.
Qed.

(** ** The directional transform *)

Create HintDb wf.

Lemma wf_map f n g :
  (∀ row, length (f row) = length row) → wf n g → wf n (map f g).
Proof.
  intros Hf [Hlen Hrows]. split; [by rewrite length_map|].
  apply Forall_fmap. eapply Forall_impl; [exact Hrows|].
  intros row Hr. simpl. by rewrite Hf.
Qed.

Lemma wf_map_reverse n g : wf n g → wf n (map reverse g).
Proof. apply wf_map. apply length_reverse. Qed.

Lemma wf_map_slid_left n g : wf n g → wf n (map slid_left g).
Proof. apply wf_map. apply length_slid_left. Qed.

Lemma wf_map_merged_row n g : wf n g → wf n (map merged_row g).
Proof. apply wf_map. apply length_merged_row. Qed.

Lemma wf_zip_star n g : wf n g → wf n (zip_star g).
Proof. intros Hwf. by destruct (zip_star_wf n g Hwf). Qed.

#[local] Hint Resolve wf_map_reverse wf_map_slid_left wf_map_merged_row
  wf_zip_star wf_zeros : wf.

Lemma wf_pre dir n g : wf n g → wf n (pre dir g).
Proof. destruct dir; simpl; auto with wf. Qed.

Lemma wf_post dir n g : wf n g → wf n (post dir g).
Proof. destruct dir; simpl; auto with wf. Qed.

#[local] Hint Resolve wf_pre wf_post : wf.

Lemma wf_slide_grid dir n g : wf n g → wf n (slide_grid dir g).
Proof. unfold slide_grid, slid. auto 10 with wf. Qed.

Ltac run_compress c H :=
  match goal with
  | |- context [Board.compressGrid ?b] =>
      destruct (compressGrid_spec b) as (c & -> & H);
      [simpl; auto 10 with wf | simpl in H |- *]
  end.

Ltac run_merge :=
  match goal with
  | |- context [Board.mergeGrid ?b] =>
      rewrite (mergeGrid_spec b) by (simpl; auto 10 with wf); simpl
  end.

Ltac run_reverse :=
  match goal with
  | |- context [Board.reverse ?b] =>
      rewrite (reverse_spec b) by (simpl; auto 10 with wf); simpl
  end.

Lemma slide_spec dir b :
  wf (Board.size b) (Board.gridCell b) →
  ∃ c1 c2,
    slide dir b =
      Some (c1 || existsb row_merges (slid dir (Board.gridCell b)),
            Board.mk (Board.size b) (slide_grid dir (Board.gridCell b)) c2
              (existsb row_merges (slid dir (Board.gridCell b)))
              (Board.moved b)
              (Board.score b + grid_gain (slid dir (Board.gridCell b)))%Z) ∧
    (c1 = true ↔ Exists slides (pre dir (Board.gridCell b))).
Proof.
  intros Hwf. destruct b as [n g c m mv sc]. simpl in *.
  unfold slide, slide_grid, slid, Board.transpose.
  destruct dir; simpl.
  - run_compress c1 H1. run_merge. run_compress c2 H2.
    exists c1, c2. done.
  - run_reverse. run_compress c1 H1. run_merge. run_compress c2 H2.
    run_reverse. exists c1, c2. done.
  - run_compress c1 H1. run_merge. run_compress c2 H2.
    exists c1, c2. done.
  - run_reverse. run_compress c1 H1. run_merge. run_compress c2 H2.
    run_reverse. exists c1, c2. done.
Qed.

(** ** What the transform keeps *)

Section Cells.
Variable P : Z → Prop.
Hypothesis P_zero : P 0%Z.
Hypothesis P_double : ∀ x, P x → P (x * 2)%Z.

Lemma all_cells_map f g :
  (∀ row, Forall P row → Forall P (f row)) →
  all_cells P g → all_cells P (map f g).
Proof.
  intros Hf Hall. unfold all_cells in *. apply Forall_fmap.
  eapply Forall_impl; [exact Hall|]. intros row. simpl. apply Hf.
Qed.

Lemma all_cells_zip_star n g :
  wf n g → all_cells P g → all_cells P (zip_star g).
Proof.
  intros Hwf Hall. destruct (zip_star_wf n g Hwf) as [_ Hcell].
  apply all_cells_lookup. intros i j v. rewrite Hcell.
  by apply all_cells_lookup.
Qed.

Lemma Forall_slid_left row : Forall P row → Forall P (slid_left row).
Proof.
  intros Hrow. unfold slid_left. apply Forall_app. split.
  - apply Forall_forall. intros x [_ Hx]%list_elem_of_filter.
    by eapply (proj1 (Forall_forall _ _) Hrow).
  - by apply Forall_replicate.
Qed.

Lemma Forall_merged_row row : Forall P row → Forall P (merged_row row).
Proof.
  intros Hrow. unfold merged_row. apply Forall_lookup. intros k y.
  rewrite list_lookup_imap. destruct (row !! k) as [x|] eqn:Hx; [|done].
  intros [= <-]. pose proof (Forall_lookup_1 _ _ _ _ Hrow Hx) as HPx.
  unfold merged_cell. destruct (merges_at row k); [by apply P_double|].
  destruct k as [|k]; [done|]. by destruct (merges_at row k).
Qed.

Lemma all_cells_pre dir n g :
  wf n g → all_cells P g → all_cells P (pre dir g).
Proof.
  intros Hwf Hall. destruct dir; simpl; [done|..].
  - apply all_cells_map; [|done]. intros row. apply Forall_reverse.
  - by eapply all_cells_zip_star.
  - apply all_cells_map; [intros row; apply Forall_reverse|].
    by eapply all_cells_zip_star.
Qed.

Lemma all_cells_post dir n g :
  wf n g → all_cells P g → all_cells P (post dir g).
Proof.
  intros Hwf Hall. destruct dir; simpl; [done|..].
  - apply all_cells_map; [|done]. intros row. apply Forall_reverse.
  - by eapply all_cells_zip_star.
  - eapply all_cells_zip_star; [by apply wf_map_reverse|].
    apply all_cells_map; [intros row; apply Forall_reverse | done].
Qed.

Lemma all_cells_slid dir n g :
  wf n g → all_cells P g → all_cells P (slid dir g).
Proof.
  intros Hwf Hall. unfold slid.
  apply all_cells_map; [apply Forall_slid_left|]. by eapply all_cells_pre.
Qed.

Lemma all_cells_slide_grid dir n g :
  wf n g → all_cells P g → all_cells P (slide_grid dir g).
Proof.
  intros Hwf Hall. unfold slide_grid.
  apply (all_cells_post dir n); [unfold slid; auto 10 with wf|].
  apply all_cells_map; [apply Forall_slid_left|].
  apply all_cells_map; [apply Forall_merged_row|].
  by eapply all_cells_slid.
Qed.

Lemma all_cells_zeros n : all_cells P (zeros n).
Proof.
  unfold all_cells, zeros. apply Forall_replicate. by apply Forall_replicate.
Qed.

Lemma all_cells_set n g g' i j v :
  wf n g → all_cells P g → P v →
  (∀ i' j', cell g' i' j' =
            if decide (i' = i ∧ j' = j) then Some v else cell g i' j') →
  all_cells P g'.
Proof.
  intros Hwf Hall Hv Hcell. apply all_cells_lookup. intros i' j' w.
  rewrite Hcell. case_decide; [by intros [= <-]|].
  by apply all_cells_lookup.
Qed.
End Cells.

Lemma gain_before_nonneg row j :
  Forall (λ x, 0 ≤ x)%Z row → (0 ≤ gain_before row j)%Z.
Proof.
  intros Hrow. induction j as [|j IH]; simpl; [lia|].
  destruct (merges_at row j); [|lia].
  destruct (row !! j) as [x|] eqn:Hx; simpl; [|lia].
  pose proof (Forall_lookup_1 _ _ _ _ Hrow Hx). simpl in *. lia.
Qed.

Lemma grid_gain_nonneg g : all_cells (λ x, 0 ≤ x)%Z g → (0 ≤ grid_gain g)%Z.
Proof.
  unfold all_cells, grid_gain. induction 1 as [|row g Hrow _ IH]; simpl; [lia|].
  pose proof (gain_before_nonneg row (length row - 1) Hrow).
  unfold row_gain at 2. lia.
Qed.

(** ** Empty cells *)

Lemma has_empty_elem g : has_empty g ↔ ∃ row, row ∈ g ∧ 0%Z ∈ row.
Proof.
  unfold has_empty, cell. split.
  - intros (i & j & Hc). destruct (g !! i) as [row|] eqn:Hrow; [|done].
    exists row. split; by eapply list_elem_of_lookup_2.
  - intros (row & [i Hi]%list_elem_of_lookup_1 & [j Hj]%list_elem_of_lookup_1).
    exists i, j. by rewrite Hi.
Qed.

Lemma has_empty_map f g :
  (∀ row, 0%Z ∈ row → 0%Z ∈ f row) → has_empty g → has_empty (map f g).
Proof.
  intros Hf (row & Hin & Hz)%has_empty_elem. apply has_empty_elem.
  exists (f row). split; [by apply list_elem_of_fmap_2 | by apply Hf].
Qed.

Lemma has_empty_zip_star n g : wf n g → has_empty g → has_empty (zip_star g).
Proof.
  intros Hwf (i & j & Hc). destruct (zip_star_wf n g Hwf) as [_ Hcell].
  exists j, i. by rewrite Hcell.
Qed.

Lemma full_all_cells g : ¬ has_empty g ↔ all_cells (λ x, x ≠ 0%Z) g.
Proof.
  rewrite all_cells_lookup. split.
  - intros Hfull i j v Hc ->. apply Hfull. by exists i, j.
  - intros Hall (i & j & Hc). by apply (Hall i j 0%Z).
Qed.

Lemma zero_in_reverse (row : list Z) : 0%Z ∈ row → 0%Z ∈ reverse row.
Proof. by rewrite elem_of_reverse. Qed.

Lemma zero_in_slid_left row : 0%Z ∈ row → 0%Z ∈ slid_left row.
Proof.
  intros Hz. unfold slid_left. apply elem_of_app. right.
  pose proof (length_filter_lt (λ v, v ≠ 0%Z) row 0%Z Hz) as Hlt.
  destruct (length row - length (filter (λ v, v ≠ 0%Z) row)) as [|m] eqn:Hm.
  - exfalso. assert (¬ (0 ≠ 0)%Z) as H0 by lia. specialize (Hlt H0). lia.
  - simpl. by left.
Qed.

Lemma zero_in_merged_row row : 0%Z ∈ row → 0%Z ∈ merged_row row.
Proof.
  intros [k Hk]%list_elem_of_lookup_1. apply list_elem_of_lookup. exists k.
  unfold merged_row. rewrite list_lookup_imap, Hk. simpl. f_equal.
  unfold merged_cell. destruct (merges_at row k); [done|].
  destruct k as [|k]; [done|]. by destruct (merges_at row k).
Qed.

Lemma slides_zero row : slides row → 0%Z ∈ row.
Proof. intros (k & j & v & _ & Hk & _). by eapply list_elem_of_lookup_2. Qed.

Lemma merges_before_true row j :
  merges_before row j = true ↔ ∃ k, k < j ∧ merges_at row k = true.
Proof.
  induction j as [|j IH]; simpl.
  - split; [done | intros (k & ? & _); lia].
  - rewrite orb_true_iff, IH. split.
    + intros [(k & ? & ?)|?]; [exists k | exists j]; (split; [lia | done]).
    + intros (k & Hk & Hm). destruct (decide (k = j)) as [->|]; [by right|].
      left. exists k. split; [lia | done].
Qed.

Lemma merged_row_zeroed row k :
  merges_at row k = true → merged_row row !! S k = Some 0%Z.
Proof.
  intros Hm. pose proof (merges_at_lt _ _ Hm) as Hlt.
  destruct (lookup_lt_is_Some_2 row (S k) Hlt) as [y Hy].
  unfold merged_row. rewrite list_lookup_imap, Hy. simpl. f_equal.
  unfold merged_cell. rewrite Hm. simpl. by rewrite Hm.
Qed.

Lemma row_merges_zero row : row_merges row = true → 0%Z ∈ merged_row row.
Proof.
  unfold row_merges. intros (k & _ & Hm)%merges_before_true.
  eapply list_elem_of_lookup_2. by apply merged_row_zeroed.
Qed.

Lemma has_empty_post dir n g : wf n g → has_empty g → has_empty (post dir g).
Proof.
  intros Hwf He. destruct dir; simpl; [done|..].
  - by apply has_empty_map; [apply zero_in_reverse|].
  - by eapply has_empty_zip_star.
  - eapply has_empty_zip_star; [by apply wf_map_reverse|].
    by apply has_empty_map; [apply zero_in_reverse|].
Qed.

(** A move that reports [moved] leaves an empty cell. *)
Lemma moved_has_empty dir n g c1 :
  wf n g →
  (c1 = true ↔ Exists slides (pre dir g)) →
  c1 || existsb row_merges (slid dir g) = true →
  has_empty (slide_grid dir g).
Proof.
  intros Hwf Hc1 Hmoved. unfold slide_grid.
  apply (has_empty_post dir n); [unfold slid; auto 10 with wf|].
  apply has_empty_map; [apply zero_in_slid_left|].
  apply orb_true_iff in Hmoved as [Hc|Hm].
  - apply has_empty_map; [apply zero_in_merged_row|]. unfold slid.
    apply has_empty_map; [apply zero_in_slid_left|].
    apply Hc1, Exists_exists in Hc as (row & Hin & Hs).
    apply has_empty_elem. exists row. split; [done | by apply slides_zero].
  - apply existsb_exists in Hm as (row & Hin & Hm).
    apply has_empty_elem. exists (merged_row row). split.
    + apply list_elem_of_fmap_2. by apply list_elem_of_In.
    + by apply row_merges_zero.
Qed.

(** ** A full grid without equal neighbours does not move *)

Lemma slid_left_full row : Forall (λ x, x ≠ 0%Z) row → slid_left row = row.
Proof.
  intros Hrow. unfold slid_left.
  assert (filter (λ v, v ≠ 0%Z) row = row) as ->.
  { induction Hrow as [|x l Hx _ IH]; [done|].
    rewrite filter_cons, decide_True by done. by rewrite IH. }
  by rewrite Nat.sub_diag, app_nil_r.
Qed.

Lemma map_slid_left_full g :
  all_cells (λ x, x ≠ 0%Z) g → map slid_left g = g.
Proof.
  unfold all_cells. induction 1 as [|row g Hrow _ IH]; [done|].
  simpl. by rewrite slid_left_full, IH.
Qed.

Lemma cell_map_reverse n g i j :
  wf n g → j < n → cell (map reverse g) i j = cell g i (n - 1 - j).
Proof.
  intros Hwf Hj. unfold cell. rewrite list_lookup_fmap.
  destruct (g !! i) as [row|] eqn:Hrow; [|done]. simpl.
  pose proof (wf_row _ _ _ _ Hwf Hrow) as Hlen.
  rewrite reverse_lookup by lia. f_equal. lia.
Qed.

Lemma equal_neighbours_reverse n g :
  wf n g → equal_neighbours (map reverse g) → equal_neighbours g.
Proof.
  intros Hwf (i & j & x & Hx & Hy).
  pose proof (wf_map_reverse _ _ Hwf) as Hwf'.
  destruct (cell_lt _ _ _ _ _ Hwf' Hx) as [Hi Hj].
  rewrite (cell_map_reverse n) in Hx by done.
  destruct Hy as [Hy|Hy].
  - destruct (cell_lt _ _ _ _ _ Hwf' Hy) as [_ HSj].
    rewrite (cell_map_reverse n) in Hy by done.
    exists i, (n - 1 - S j), x. split; [done|]. left.
    by replace (S (n - 1 - S j)) with (n - 1 - j) by lia.
  - rewrite (cell_map_reverse n) in Hy by done.
    exists i, (n - 1 - j), x. auto.
Qed.

Lemma equal_neighbours_zip_star n g :
  wf n g → equal_neighbours (zip_star g) → equal_neighbours g.
Proof.
  intros Hwf (i & j & x & Hx & Hy).
  destruct (zip_star_wf n g Hwf) as [_ Hcell]. rewrite !Hcell in *.
  exists j, i, x. split; [done|]. tauto.
Qed.

Lemma equal_neighbours_pre dir n g :
  wf n g → equal_neighbours (pre dir g) → equal_neighbours g.
Proof.
  intros Hwf. destruct dir; simpl; [done|..].
  - by apply (equal_neighbours_reverse n).
  - by apply (equal_neighbours_zip_star n).
  - intros He. apply (equal_neighbours_zip_star n); [done|].
    apply (equal_neighbours_reverse n); [by apply wf_zip_star | done].
Qed.

Lemma not_moved dir n g c1 :
  wf n g → ¬ has_empty g → ¬ equal_neighbours g →
  (c1 = true ↔ Exists slides (pre dir g)) →
  c1 || existsb row_merges (slid dir g) = false.
Proof.
  intros Hwf Hfull Hne Hc1.
  assert (all_cells (λ x, x ≠ 0%Z) (pre dir g)) as Hall.
  { apply (all_cells_pre _ dir n); [done|]. by apply full_all_cells. }
  unfold slid. rewrite (map_slid_left_full _ Hall).
  apply orb_false_iff. split.
  - destruct c1; [|done]. exfalso.
    destruct (proj1 (Exists_exists _ _) (proj1 Hc1 eq_refl)) as (row & Hin & Hs).
    apply slides_zero in Hs.
    pose proof (proj1 (Forall_forall _ _) Hall row Hin) as Hrow.
    by apply (proj1 (Forall_forall _ _) Hrow 0%Z Hs).
  - destruct (existsb row_merges (pre dir g)) eqn:Hm; [|done]. exfalso.
    apply existsb_exists in Hm as (row & Hin & Hm).
    apply list_elem_of_In, list_elem_of_lookup_1 in Hin as [i Hi].
    unfold row_merges in Hm.
    apply merges_before_true in Hm as (k & _ & Hk).
    apply merges_at_pair, equal_pair_true in Hk as (x & Hx & Hy & _).
    apply Hne, (equal_neighbours_pre dir n); [done|].
    exists i, k, x. rewrite !(cell_row _ _ _ _ Hi). auto.
Qed.

(** ** The moves of the game, through the transform *)

Lemma move_playing dir d g :
  Game.end_ g = false → Game.won g = false →
  move dir d g =
    '(moved, b) ← slide dir (Game.board g);
    Game.finish_move d moved b (Game.save_undo g).
Proof.
  intros He Hw.
  destruct dir; unfold move, Game.move_left, Game.move_right, Game.move_up,
    Game.move_down, slide; rewrite He, Hw; simpl;
    repeat match goal with
           | |- (?m ≫= _) = _ => destruct m; simpl; [|done]
           end; done.
Qed.

Lemma move_terminal dir d g :
  Game.end_ g = true ∨ Game.won g = true → move dir d g = Some (false, g).
Proof.
  intros Hflag.
  assert (Game.end_ g || Game.won g = true) as H.
  { destruct Hflag as [-> | ->]; [done | by rewrite orb_true_r]. }
  destruct dir; unfold move, Game.move_left, Game.move_right, Game.move_up,
    Game.move_down; by rewrite H.
Qed.

Lemma move_spec dir d g :
  wf (Board.size (Game.board g)) (Board.gridCell (Game.board g)) →
  Game.end_ g = false → Game.won g = false →
  ∃ moved c2,
    slide dir (Game.board g) = Some (moved, slid_board dir c2 (Game.board g)) ∧
    ((moved = false ∧
      move dir d g =
        Some (false, Game.set_board (slid_board dir c2 (Game.board g))
                       (Game.save_undo g))) ∨
     (moved = true ∧
      ∃ g', spawned (slide_grid dir (Board.gridCell (Game.board g))) g' ∧
            wf (Board.size (Game.board g)) g' ∧
            Board.random_cell d (slid_board dir c2 (Game.board g)) =
              Some (true, Board.set_gridCell g' (slid_board dir c2 (Game.board g))) ∧
            move dir d g =
              Some (true,
                    Game.set_board
                      (Board.set_gridCell g' (slid_board dir c2 (Game.board g)))
                      (Game.set_move_count (Game.move_count g + 1)
                         (Game.save_undo g))))).
Proof.
  intros Hwf He Hw. rewrite (move_playing dir d g He Hw).
  destruct (slide_spec dir (Game.board g) Hwf) as (c1 & c2 & Hs & Hc1).
  fold (slid_board dir c2 (Game.board g)) in Hs.
  exists (c1 || existsb row_merges (slid dir (Board.gridCell (Game.board g)))), c2.
  split; [done|]. rewrite Hs. simpl.
  destruct (c1 || existsb row_merges (slid dir (Board.gridCell (Game.board g))))
    eqn:Hmoved.
  - right. split; [done|].
    pose proof (moved_has_empty dir _ _ c1 Hwf Hc1 Hmoved) as Hempty.
    destruct (random_cell_spec d (slid_board dir c2 (Game.board g))) as [_ Hspawn].
    { simpl. by apply wf_slide_grid. }
    destruct (Hspawn Hempty) as (i & j & v & g' & Hz & Hv & Hr & Hwf' & Hcell).
    exists g'. split; [by exists i, j, v|]. split; [done|]. split; [done|].
    unfold Game.finish_move. rewrite Hr. done.
  - left. done.
Qed.

(** ** Sliding twice *)

Lemma slid_left_shape row :
  ∃ front k, slid_left row = front ++ replicate k 0%Z ∧
             Forall (λ x, x ≠ 0%Z) front.
Proof.
  eexists _, _. split; [reflexivity|].
  apply Forall_forall. by intros x [Hx _]%list_elem_of_filter.
Qed.

Lemma filter_nonzero_padded front k :
  Forall (λ x, x ≠ 0%Z) front →
  filter (λ v, v ≠ 0%Z) (front ++ replicate k 0%Z) = front.
Proof.
  intros Hfront. rewrite filter_app.
  assert (filter (λ v, v ≠ 0%Z) (replicate k 0%Z) = []) as ->.
  { induction k as [|k IH]; [done|]. simpl.
    rewrite filter_cons, decide_False by lia. done. }
  rewrite app_nil_r. induction Hfront as [|x l Hx _ IH]; [done|].
  rewrite filter_cons, decide_True by done. by rewrite IH.
Qed.

Lemma slid_left_idemp row : slid_left (slid_left row) = slid_left row.
Proof.
  destruct (slid_left_shape row) as (front & k & Hs & Hfront).
  rewrite Hs. unfold slid_left at 1.
  rewrite (filter_nonzero_padded _ _ Hfront).
  rewrite length_app, length_replicate. f_equal. f_equal. lia.
Qed.

Lemma slid_left_rests row : ¬ slides (slid_left row).
Proof.
  destruct (slid_left_shape row) as (front & m & -> & Hfront).
  intros (k & j & v & Hkj & Hk & Hj & Hv).
  assert (length front ≤ k) as Hle.
  { destruct (decide (length front ≤ k)); [done|]. exfalso.
    rewrite lookup_app_l in Hk by lia.
    by apply (Forall_lookup_1 _ _ _ _ Hfront Hk). }
  rewrite lookup_app_r in Hj by lia.
  apply lookup_replicate_1 in Hj as [-> _]. done.
Qed.

(** ** The invariant of the reachable states *)

Lemma tile_zero : tile 0%Z.
Proof. by left. Qed.

Lemma tile_double x : tile x → tile (x * 2)%Z.
Proof.
  intros [->|[k ->]]; [by left|]. right. exists (S k).
  rewrite (Nat2Z.inj_succ (S k)), Z.pow_succ_r by lia. lia.
Qed.

Lemma tile_spawn v : v = 2%Z ∨ v = 4%Z → tile v.
Proof. intros [->| ->]; right; [by exists 0 | by exists 1]. Qed.

Lemma has_empty_dec g : has_empty g ∨ ¬ has_empty g.
Proof.
  destruct (decide (Exists (λ row : list Z, 0%Z ∈ row) g)) as [He|He].
  - left. apply has_empty_elem. by apply Exists_exists.
  - right. intros Hh. apply He, Exists_exists. by apply has_empty_elem.
Qed.

Lemma random_cell_tiles d b :
  wf (Board.size b) (Board.gridCell b) → all_cells tile (Board.gridCell b) →
  ∃ r b', Board.random_cell d b = Some (r, b') ∧
          Board.size b' = Board.size b ∧
          Board.score b' = Board.score b ∧
          wf (Board.size b) (Board.gridCell b') ∧
          all_cells tile (Board.gridCell b').
Proof.
  intros Hwf Hall. destruct (random_cell_spec d b Hwf) as [Hfull Hspawn].
  destruct (has_empty_dec (Board.gridCell b)) as [He|He].
  - destruct (Hspawn He) as (i & j & v & g' & _ & Hv & -> & Hwf' & Hcell).
    eexists _, _. split; [done|]. simpl. split; [done|]. split; [done|].
    split; [done|].
    eapply (all_cells_set tile); [exact Hwf | exact Hall | | exact Hcell].
    by apply tile_spawn.
  - rewrite (Hfull He). by eexists _, _.
Qed.

Lemma start_good d1 d2 g :
  good g → Game.prev_grid g = None → ∃ g', Game.start d1 d2 g = Some g' ∧ good g'.
Proof.
  intros (Hwf & Hall & _) Hprev. unfold Game.start.
  destruct (random_cell_tiles d1 (Game.board g) Hwf Hall)
    as (r1 & b1 & -> & Hs1 & _ & Hwf1 & Hall1). simpl.
  rewrite <- Hs1 in Hwf1.
  destruct (random_cell_tiles d2 b1 Hwf1 Hall1)
    as (r2 & b2 & -> & Hs2 & _ & Hwf2 & Hall2). simpl.
  eexists. split; [done|]. split; [|split]; simpl.
  - by rewrite Hs2.
  - done.
  - by rewrite Hprev.
Qed.

Lemma init_good n best tgt : good (Game.init (Board.init n) best tgt).
Proof.
  split; [apply wf_zeros|]. split; [apply all_cells_zeros, tile_zero|]. done.
Qed.

Lemma reset_good d1 d2 g :
  ∃ g', Game.reset d1 d2 g = Some g' ∧ good g'.
Proof.
  unfold Game.reset.
  set (g0 := Game.mk _ false false 0%Z None 0%Z _ _).
  assert (good g0) as Hg0.
  { split; [apply wf_zeros|]. split; [apply all_cells_zeros, tile_zero|]. done. }
  destruct (start_good d1 d2 g0 Hg0 eq_refl) as (g' & Hs & Hg').
  exists g'. split; [|done]. exact Hs.
Qed.

Lemma undo_good g : good g → good (Game.undo g).
Proof.
  intros Hgood. pose proof Hgood as (Hwf & Hall & Hprev). unfold Game.undo.
  destruct (Game.prev_grid g) as [pg|] eqn:Hpg; [|done].
  destruct (Hprev pg eq_refl) as [Hwfp Hallp].
  split; [|split]; simpl; rewrite ?copy_grid_id; done.
Qed.

Lemma move_good dir d g :
  good g → ∃ moved g', move dir d g = Some (moved, g') ∧ good g'.
Proof.
  intros Hgood. pose proof Hgood as (Hwf & Hall & Hprev).
  destruct (Game.end_ g) eqn:He.
  { exists false, g. split; [apply move_terminal; by left | done]. }
  destruct (Game.won g) eqn:Hw.
  { exists false, g. split; [apply move_terminal; by right | done]. }
  pose proof (all_cells_slide_grid tile tile_zero tile_double dir _ _ Hwf Hall)
    as Hslide.
  destruct (move_spec dir d g Hwf He Hw)
    as (moved & c2 & _ & [[-> Hm]|[-> (g' & Hsp & Hwf' & _ & Hm)]]);
    eexists _, _; (split; [exact Hm|]).
  - split; [|split]; simpl.
    + by apply wf_slide_grid.
    + done.
    + intros pg [= <-]. by rewrite copy_grid_id.
  - destruct Hsp as (i & j & v & _ & Hv & Hcell).
    split; [|split]; simpl.
    + done.
    + exact (all_cells_set tile _ _ g' i j v (wf_slide_grid dir _ _ Hwf) Hslide
               (tile_spawn _ Hv) Hcell).
    + intros pg [= <-]. by rewrite copy_grid_id.
Qed.

Lemma after_move_updates_frame g g' :
  Game.after_move_updates g = Some g' →
  Game.board g' = Game.board g ∧ Game.prev_grid g' = Game.prev_grid g ∧
  Game.prev_score g' = Game.prev_score g ∧
  Game.move_count g' = Game.move_count g ∧ Game.target g' = Game.target g.
Proof.
  unfold Game.after_move_updates.
  set (g1 := if decide _ then _ else g).
  assert (Game.board g1 = Game.board g ∧ Game.prev_grid g1 = Game.prev_grid g ∧
          Game.prev_score g1 = Game.prev_score g ∧
          Game.move_count g1 = Game.move_count g ∧
          Game.target g1 = Game.target g) as (Hb & Hp & Hs & Hm & Ht).
  { unfold g1. by case_decide. }
  destruct (Game.has_target g1).
  - intros [= <-]. simpl. done.
  - destruct (Game.can_move g1) as [cm|]; [|done]. simpl.
    destruct cm; simpl; intros [= <-]; simpl; done.
Qed.

Lemma post_move_updates_frame g :
  Game.board (App._post_move_updates g) = Game.board g ∧
  Game.prev_grid (App._post_move_updates g) = Game.prev_grid g ∧
  Game.prev_score (App._post_move_updates g) = Game.prev_score g ∧
  Game.move_count (App._post_move_updates g) = Game.move_count g ∧
  Game.end_ (App._post_move_updates g) = Game.end_ g ∧
  Game.won (App._post_move_updates g) = Game.won g ∧
  Game.target (App._post_move_updates g) = Game.target g.
Proof. unfold App._post_move_updates. by case_decide. Qed.

Lemma good_frame g g' :
  Game.board g' = Game.board g → Game.prev_grid g' = Game.prev_grid g →
  good g → good g'.
Proof. unfold good. by intros -> ->. Qed.

Lemma key_handler_move key d g :
  App._key_handler key d g = App.after (move key d g).
Proof. by destruct key. Qed.

Lemma key_handler_good key d g g' :
  good g → App._key_handler key d g = Some g' → good g'.
Proof.
  intros Hgood. rewrite key_handler_move.
  destruct (move_good key d g Hgood) as (moved & g1 & -> & Hg1).
  unfold App.after. simpl.
  destruct moved.
  - destruct (Game.after_move_updates g1) as [g2|] eqn:Ha; [|done]. simpl.
    intros [= <-]. destruct (after_move_updates_frame _ _ Ha) as (Hb & Hp & _).
    destruct (post_move_updates_frame g2) as (Hb' & Hp' & _).
    eapply good_frame; [| |exact Hg1]; congruence.
  - simpl. intros [= <-].
    destruct (post_move_updates_frame g1) as (Hb' & Hp' & _).
    by eapply good_frame.
Qed.

Lemma step_good g g' : good g → step g g' → good g'.
Proof.
  intros Hgood Hstep. destruct Hstep as [key d g g' Hk| g |d1 d2 g g' Hr|t g|g].
  - by eapply key_handler_good.
  - by apply undo_good.
  - destruct (reset_good d1 d2 g) as (g'' & Hr' & Hg''). congruence.
  - by eapply good_frame.
  - by eapply good_frame.
Qed.

Lemma reachable_good g : reachable g → good g.
Proof.
  induction 1 as [best d1 d2 g Hinit|g g' _ IH Hstep].
  - unfold App.init in Hinit.
    destruct (start_good d1 d2 _ (init_good 4 best 2048%Z) eq_refl)
      as (g' & Hs & Hg'). congruence.
  - by eapply step_good.
Qed.

(** ** A move that does not move changes nothing *)

Lemma no_merges row k : row_merges row = false → merges_at row k = false.
Proof.
  intros Hno. destruct (merges_at row k) eqn:Hm; [|done].
  pose proof (merges_at_lt _ _ Hm) as Hlt.
  assert (row_merges row = true) as Hyes; [|congruence].
  apply merges_before_true. exists k. split; [lia | done].
Qed.

Lemma merged_row_id row : row_merges row = false → merged_row row = row.
Proof.
  intros Hno. unfold merged_row. apply list_eq. intros k.
  rewrite list_lookup_imap. destruct (row !! k) as [x|]; [|done].
  simpl. f_equal. unfold merged_cell. rewrite (no_merges _ k Hno).
  destruct k as [|k]; [done|]. by rewrite (no_merges _ k Hno).
Qed.

Lemma gain_before_zero row j : row_merges row = false → gain_before row j = 0%Z.
Proof.
  intros Hno. induction j as [|j IH]; [done|]. simpl.
  rewrite IH, (no_merges _ j Hno). done.
Qed.

Lemma no_merges_grid g :
  existsb row_merges g = false → map merged_row g = g ∧ grid_gain g = 0%Z.
Proof.
  induction g as [|row g IH]; [done|]. simpl.
  intros [Hrow Hg]%orb_false_iff. destruct (IH Hg) as [Hmap Hgain].
  rewrite Hmap, (merged_row_id _ Hrow). split; [done|].
  unfold grid_gain in *. simpl. rewrite Hgain.
  unfold row_gain. by rewrite (gain_before_zero _ _ Hrow).
Qed.

Lemma map_reverse_involutive (g : list (list Z)) : map reverse (map reverse g) = g.
Proof.
  rewrite <- list_fmap_compose. rewrite <- (list_fmap_id g) at 2.
  apply list_fmap_ext. intros i row _. simpl. apply reverse_involutive.
Qed.

Lemma post_pre dir n g : wf n g → post dir (pre dir g) = g.
Proof.
  intros Hwf. destruct dir; simpl; [done|..].
  - apply map_reverse_involutive.
  - by apply (zip_star_involutive n).
  - rewrite map_reverse_involutive. by apply (zip_star_involutive n).
Qed.

Lemma slide_grid_stuck dir n g :
  wf n g → ¬ has_empty g → existsb row_merges (slid dir g) = false →
  slide_grid dir g = g ∧ grid_gain (slid dir g) = 0%Z.
Proof.
  intros Hwf Hfull Hno.
  assert (all_cells (λ x, x ≠ 0%Z) (pre dir g)) as Hall.
  { apply (all_cells_pre _ dir n); [done|]. by apply full_all_cells. }
  destruct (no_merges_grid _ Hno) as [Hmap Hgain]. split; [|done].
  unfold slide_grid. rewrite Hmap. unfold slid.
  rewrite !(map_slid_left_full _ Hall). by apply (post_pre dir n).
Qed.

(** ** A move reports that it moved exactly when it changed the grid *)

Lemma filter_nonzero_all (l : list Z) :
  Forall (λ x, x ≠ 0%Z) l → filter (λ v, v ≠ 0%Z) l = l.
Proof.
  induction 1 as [|x l Hx _ IH]; [done|].
  rewrite filter_cons, decide_True by done. by rewrite IH.
Qed.

Lemma slid_left_zeros (l : list Z) :
  Forall (λ x, x = 0%Z) l → slid_left l = l.
Proof.
  intros Hz. unfold slid_left.
  assert (filter (λ v, v ≠ 0%Z) l = []) as ->.
  { induction Hz as [|x l Hx _ IH]; [done|].
    rewrite filter_cons, decide_False by lia. done. }
  simpl. rewrite Nat.sub_0_r. apply replicate_as_Forall. split; [done|].
  eapply Forall_impl; [exact Hz|]. by intros x ->.
Qed.

Lemma not_slides_fixed row : ¬ slides row → slid_left row = row.
Proof.
  induction row as [|x l IH]; [done|]. intros Hns.
  destruct (decide (x = 0%Z)) as [->|Hx].
  - apply slid_left_zeros. constructor; [done|].
    apply Forall_lookup. intros j v Hv.
    destruct (decide (v = 0%Z)) as [|Hnz]; [done|]. exfalso.
    apply Hns. exists 0, (S j), v. split; [lia | done].
  - assert (slid_left l = l) as Hl.
    { apply IH. intros (k & j & v & Hkj & Hk & Hj & Hv). apply Hns.
      exists (S k), (S j), v. split; [lia | done]. }
    unfold slid_left in *. rewrite filter_cons, decide_True by done.
    simpl. by rewrite Hl.
Qed.

Lemma slid_left_app_nonzero l1 l2 :
  Forall (λ x, x ≠ 0%Z) l1 → slid_left (l1 ++ l2) = l1 ++ slid_left l2.
Proof.
  intros Hnz. unfold slid_left.
  rewrite filter_app, (filter_nonzero_all _ Hnz), <- app_assoc.
  do 2 f_equal. rewrite !length_app. f_equal. lia.
Qed.

Lemma slid_left_prefix l k :
  (∀ k', k' ≤ k → ∃ v, l !! k' = Some v ∧ v ≠ 0%Z) →
  slid_left l !! k = l !! k.
Proof.
  intros Hpre. destruct (Hpre k) as (x & Hx & _); [lia|].
  apply lookup_lt_Some in Hx as Hlt.
  assert (Forall (λ x, x ≠ 0%Z) (take (S k) l)) as Hnz.
  { apply Forall_lookup. intros j v [Hv Hj]%lookup_take_Some.
    destruct (Hpre j) as (w & Hw & Hnz); [lia|]. congruence. }
  rewrite <- (take_drop (S k) l) at 1 2.
  rewrite (slid_left_app_nonzero _ _ Hnz).
  rewrite !lookup_app_l by (rewrite length_take; lia). done.
Qed.

Lemma first_merge row j :
  merges_before row j = true →
  ∃ k, k < j ∧ merges_at row k = true ∧ ∀ k', k' < k → merges_at row k' = false.
Proof.
  induction j as [|j IH]; [done|]. simpl.
  destruct (merges_before row j) eqn:Hb.
  - intros _. destruct (IH eq_refl) as (k & Hk & Hm & Hfirst).
    exists k. split; [lia | done].
  - simpl. intros Hm. exists j. split; [lia|]. split; [done|].
    intros k' Hk'. destruct (merges_at row k') eqn:Hm'; [|done].
    assert (merges_before row j = true) as Hyes; [|congruence].
    apply merges_before_true. by exists k'.
Qed.

Lemma merge_changes row :
  row_merges row = true → slid_left (merged_row row) ≠ row.
Proof.
  intros Hm Heq.
  destruct (first_merge _ _ Hm) as (k & _ & Hk & Hfirst).
  destruct (proj1 (equal_pair_true row k) (merges_at_pair _ _ Hk))
    as (x & Hx & _ & Hnz).
  destruct (slid_left_shape (merged_row row)) as (front & z & Hshape & Hfront).
  rewrite Heq in Hshape.
  assert (∀ k', k' ≤ k → ∃ v, row !! k' = Some v ∧ v ≠ 0%Z) as Hpre.
  { intros k' Hk'. destruct (lookup_lt_is_Some_2 row k') as [v Hv].
    { apply lookup_lt_Some in Hx. lia. }
    exists v. split; [done|]. intros ->.
    rewrite Hshape in Hv, Hx.
    destruct (decide (k' < length front)) as [Hlt|Hge].
    - rewrite lookup_app_l in Hv by done.
      by apply (Forall_lookup_1 _ _ _ _ Hfront Hv).
    - rewrite lookup_app_r in Hx by lia.
      apply lookup_replicate_1 in Hx as [-> _]. done. }
  assert (slid_left (merged_row row) !! k = Some (x * 2)%Z) as Hnew.
  { rewrite slid_left_prefix.
    - unfold merged_row. rewrite list_lookup_imap, Hx. simpl.
      unfold merged_cell. by rewrite Hk.
    - intros k' Hk'. destruct (Hpre k' Hk') as (v & Hv & Hvnz).
      unfold merged_row. rewrite list_lookup_imap, Hv. simpl.
      destruct (decide (k' = k)) as [->|Hne].
      + exists (v * 2)%Z. unfold merged_cell. rewrite Hk. split; [done | lia].
      + exists v. split; [|done]. f_equal. unfold merged_cell.
        rewrite (Hfirst k') by lia. destruct k' as [|k']; [done|].
        by rewrite (Hfirst k') by lia. }
  rewrite Heq, Hx in Hnew. injection Hnew as Hnew. lia.
Qed.

Lemma pre_post dir n g : wf n g → pre dir (post dir g) = g.
Proof.
  intros Hwf. destruct dir; simpl; [done|..].
  - apply map_reverse_involutive.
  - by apply (zip_star_involutive n).
  - rewrite (zip_star_involutive n) by (by apply wf_map_reverse).
    apply map_reverse_involutive.
Qed.

Lemma map_fixed (f : list Z → list Z) g :
  (∀ row, row ∈ g → f row = row) → map f g = g.
Proof.
  induction g as [|row g IH]; [done|]. intros Hf. simpl.
  rewrite Hf by (by left). rewrite IH; [done|].
  intros r Hr. apply Hf. by right.
Qed.

Lemma moved_false_unchanged dir n g c1 :
  wf n g →
  (c1 = true ↔ Exists slides (pre dir g)) →
  c1 || existsb row_merges (slid dir g) = false →
  slide_grid dir g = g ∧ grid_gain (slid dir g) = 0%Z.
Proof.
  intros Hwf Hc1 [-> Hm]%orb_false_iff.
  assert (map slid_left (pre dir g) = pre dir g) as Hslid.
  { apply map_fixed. intros row Hin. apply not_slides_fixed. intros Hs.
    assert (false = true); [|done]. apply Hc1, Exists_exists. eauto. }
  destruct (no_merges_grid _ Hm) as [Hmap Hgain]. split; [|done].
  unfold slide_grid. rewrite Hmap. unfold slid. rewrite !Hslid.
  by apply (post_pre dir n).
Qed.

Lemma moved_true_changed dir n g c1 :
  wf n g →
  (c1 = true ↔ Exists slides (pre dir g)) →
  c1 || existsb row_merges (slid dir g) = true →
  slide_grid dir g ≠ g.
Proof.
  intros Hwf Hc1 Hmoved Heq.
  assert (map slid_left (map merged_row (slid dir g)) = pre dir g) as Hfix.
  { rewrite <- (pre_post dir n (map slid_left (map merged_row (slid dir g))))
      by (unfold slid; auto 10 with wf).
    fold (slide_grid dir g). by rewrite Heq. }
  assert (map slid_left (pre dir g) = pre dir g) as Hslid.
  { rewrite <- Hfix. rewrite <- list_fmap_compose.
    apply list_fmap_ext. intros i row _. simpl. apply slid_left_idemp. }
  unfold slid in *. rewrite Hslid in *.
  apply orb_true_iff in Hmoved as [->|Hm].
  - destruct (proj1 (Exists_exists _ _) (proj1 Hc1 eq_refl)) as (row & Hin & Hs).
    rewrite <- Hfix in Hin. apply list_elem_of_fmap in Hin as (r & -> & _).
    by apply (slid_left_rests r).
  - apply existsb_exists in Hm as (row & Hin & Hm).
    apply list_elem_of_In, list_elem_of_lookup_1 in Hin as [i Hi].
    apply (merge_changes row Hm).
    assert (map slid_left (map merged_row (pre dir g)) !! i = Some row) as Hrow
      by (by rewrite Hfix).
    rewrite !list_lookup_fmap, Hi in Hrow. simpl in Hrow. congruence.
Qed.

Lemma slide_moved_iff dir b moved bt :
  wf (Board.size b) (Board.gridCell b) →
  slide dir b = Some (moved, bt) →
  (moved = true ↔ Board.gridCell bt ≠ Board.gridCell b) ∧
  (moved = false → Board.score bt = Board.score b).
Proof.
  intros Hwf Hs. destruct (slide_spec dir b Hwf) as (c1 & c2 & Hs' & Hc1).
  rewrite Hs' in Hs. injection Hs as <- <-. simpl.
  destruct (c1 || existsb row_merges (slid dir (Board.gridCell b))) eqn:Hm.
  - split; [|done]. split; [|done]. intros _.
    by apply (moved_true_changed dir _ _ c1 Hwf Hc1).
  - destruct (moved_false_unchanged dir _ _ c1 Hwf Hc1 Hm) as [Hg Hgain].
    rewrite Hg, Hgain. split; [|intros _; lia].
    split; [done|]. intros Hne. by destruct Hne.
Qed.

(** ** Win and loss *)

Lemma after_move_updates_spec g :
  wf (Board.size (Game.board g)) (Board.gridCell (Game.board g)) →
  ∃ g', Game.after_move_updates g = Some g' ∧
        (Game.has_target g = true →
         Game.won g' = true ∧ Game.end_ g' = Game.end_ g) ∧
        (Game.has_target g = false →
         Game.won g' = Game.won g ∧
         (has_empty (Board.gridCell (Game.board g)) ∨
          equal_neighbours (Board.gridCell (Game.board g)) →
          Game.end_ g' = Game.end_ g) ∧
         (¬ has_empty (Board.gridCell (Game.board g)) →
          ¬ equal_neighbours (Board.gridCell (Game.board g)) →
          Game.end_ g' = true)).
Proof.
  intros Hwf. unfold Game.after_move_updates.
  set (g1 := if decide _ then _ else g).
  assert (Game.board g1 = Game.board g ∧ Game.target g1 = Game.target g ∧
          Game.end_ g1 = Game.end_ g ∧ Game.won g1 = Game.won g)
    as (Hb & Ht & He & Hw).
  { unfold g1. by case_decide. }
  assert (Game.has_target g1 = Game.has_target g) as ->.
  { unfold Game.has_target. by rewrite Hb, Ht. }
  destruct (Game.has_target g).
  - eexists. split; [done|]. simpl. split; [done | done].
  - destruct (can_move_spec g1) as (cm & -> & Hcm); [by rewrite Hb|].
    rewrite Hb in Hcm. simpl. destruct cm; simpl.
    + eexists. split; [done|]. split; [done|]. intros _.
      split; [done|]. split; [done|]. intros Hfull Hne.
      destruct (proj1 Hcm eq_refl); done.
    + eexists. split; [done|]. split; [done|]. intros _. simpl.
      split; [done|]. split; [|done]. intros Hcan.
      apply Hcm in Hcan. done.
Qed.

Lemma key_handler_total key d g :
  good g → ∃ g', App._key_handler key d g = Some g'.
Proof.
  intros Hgood. rewrite key_handler_move.
  destruct (move_good key d g Hgood) as (moved & g1 & -> & (Hwf1 & _)).
  unfold App.after. simpl. destruct moved; [|by eexists].
  destruct (after_move_updates_spec g1 Hwf1) as (g2 & -> & _). by eexists.
Qed.

Lemma move_stuck dir d g :
  wf (Board.size (Game.board g)) (Board.gridCell (Game.board g)) →
  Game.end_ g = false → Game.won g = false →
  ¬ has_empty (Board.gridCell (Game.board g)) →
  ¬ equal_neighbours (Board.gridCell (Game.board g)) →
  ∃ g1, move dir d g = Some (false, g1) ∧
        Board.gridCell (Game.board g1) = Board.gridCell (Game.board g) ∧
        Board.score (Game.board g1) = Board.score (Game.board g) ∧
        Game.move_count g1 = Game.move_count g ∧
        Game.end_ g1 = false ∧ Game.won g1 = false.
Proof.
  intros Hwf He Hw Hfull Hne. rewrite (move_playing dir d g He Hw).
  destruct (slide_spec dir (Game.board g) Hwf) as (c1 & c2 & -> & Hc1).
  pose proof (not_moved dir _ _ c1 Hwf Hfull Hne Hc1) as Hmoved.
  apply orb_false_iff in Hmoved as [-> Hm].
  destruct (slide_grid_stuck dir _ _ Hwf Hfull Hm) as [Hgrid Hgain].
  rewrite Hm. simpl. eexists. split; [done|]. simpl.
  rewrite Hgrid, Hgain. repeat split; [lia | done..].
Qed.

Lemma move_flags dir d g moved g1 :
  wf (Board.size (Game.board g)) (Board.gridCell (Game.board g)) →
  move dir d g = Some (moved, g1) →
  wf (Board.size (Game.board g1)) (Board.gridCell (Game.board g1)) ∧
  Game.end_ g1 = Game.end_ g ∧ Game.won g1 = Game.won g ∧
  Game.target g1 = Game.target g.
Proof.
  intros Hwf Hmove.
  destruct (Game.end_ g) eqn:He.
  { rewrite move_terminal in Hmove by (by left). by injection Hmove as <- <-. }
  destruct (Game.won g) eqn:Hw.
  { rewrite move_terminal in Hmove by (by right). by injection Hmove as <- <-. }
  destruct (move_spec dir d g Hwf He Hw)
    as (m & c2 & _ & [[-> Hm]|[-> (g' & _ & Hwf' & _ & Hm)]]);
    rewrite Hm in Hmove; injection Hmove as <- <-; simpl.
  - split; [by apply wf_slide_grid | done].
  - done.
Qed.

(** ** Facts about the sample states, and the snapshot of a move *)

Lemma wf_row_2222 : wf 4 row_2222.
Proof. split; [reflexivity | repeat constructor]. Defined.

Lemma wf_checkers : wf 4 checkers.
Proof. split; [reflexivity | repeat constructor]. Defined.

Lemma undo_restores g pg :
  Game.prev_grid g = Some pg →
  Board.gridCell (Game.board (Game.undo g)) = pg ∧
  Board.score (Game.board (Game.undo g)) = Game.prev_score g ∧
  Game.prev_grid (Game.undo g) = None ∧
  Game.prev_score (Game.undo g) = 0%Z ∧
  Game.undo (Game.undo g) = Game.undo g.
Proof.
  intros Hpg. unfold Game.undo. rewrite Hpg. simpl.
  by rewrite copy_grid_id.
Qed.

Lemma move_snapshot dir d g :
  wf (Board.size (Game.board g)) (Board.gridCell (Game.board g)) →
  Game.end_ g = false → Game.won g = false →
  ∃ moved g',
    move dir d g = Some (moved, g') ∧
    Game.prev_grid g' = Some (Board.gridCell (Game.board g)) ∧
    Game.prev_score g' = Board.score (Game.board g) ∧
    wf (Board.size (Game.board g')) (Board.gridCell (Game.board g')).
Proof.
  intros Hwf He Hw.
  destruct (move_spec dir d g Hwf He Hw)
    as (moved & c2 & _ & [[-> Hm]|[-> (g' & _ & Hwf' & _ & Hm)]]);
    eexists _, _; (split; [exact Hm|]); simpl; rewrite copy_grid_id.
  - split; [done|]. split; [done|]. by apply wf_slide_grid.
  - done.
Qed.

(** * The claims *)

(** C1: on every grid of the board's size, [mergeGrid] succeeds and is one
    left-to-right pass over each row.  [merges_at row j] says that the pass
    merges the cells [j] and [j+1] of the row as it was before the pass.
    Where it does, the two cells held the same non-zero value, the left one
    is doubled, the right one is zeroed, and neither takes part in another
    merge: there is no merge at [j+1] and none at [j-1].  A cell that is in
    no merge keeps its value.  The pass is greedy from the left: two equal
    non-zero cells merge unless the left one was just zeroed.  The score
    grows by the sum of the doubled values, and the flag [merge] tells
    whether some merge happened.  In particular a row [2,2,2,2] becomes
    [4,0,4,0]. *)
Theorem mergeGrid_single_pass b :
  wf (Board.size b) (Board.gridCell b) →
  ∃ b',
    Board.mergeGrid b = Some b' ∧
    Board.score b' = (Board.score b + grid_gain (Board.gridCell b))%Z ∧
    Board.merge b' = existsb row_merges (Board.gridCell b) ∧
    (∀ i row, Board.gridCell b !! i = Some row →
       ∃ row',
         Board.gridCell b' !! i = Some row' ∧ length row' = length row ∧
         (∀ j, merges_at row j = true →
               ∃ x, row !! j = Some x ∧ row !! S j = Some x ∧ x ≠ 0%Z ∧
                    row' !! j = Some (x * 2)%Z ∧ row' !! S j = Some 0%Z ∧
                    merges_at row (S j) = false ∧
                    (j = 0 ∨ merges_at row (j - 1) = false)) ∧
         (∀ k x, row !! k = Some x → merges_at row k = false →
                 (k = 0 ∨ merges_at row (k - 1) = false) →
                 row' !! k = Some x) ∧
         (∀ j x, row !! j = Some x → row !! S j = Some x → x ≠ 0%Z →
                 (j = 0 ∨ merges_at row (j - 1) = false) →
                 merges_at row j = true)) ∧
    (∀ i, Board.gridCell b !! i = Some [2; 2; 2; 2]%Z →
          Board.gridCell b' !! i = Some [4; 0; 4; 0]%Z).
Proof.
  intros Hwf. eexists. split; [by apply mergeGrid_spec|]. simpl.
  split; [done|]. split; [done|]. split.
  - intros i row Hrow. exists (merged_row row).
    split; [by rewrite list_lookup_fmap, Hrow|].
    split; [apply length_merged_row|]. split; [|split].
    + intros j Hm.
      destruct (proj1 (equal_pair_true row j) (merges_at_pair _ _ Hm))
        as (x & Hx & Hy & Hnz).
      exists x. split; [done|]. split; [done|]. split; [done|]. split.
      { unfold merged_row. rewrite list_lookup_imap, Hx. simpl.
        unfold merged_cell. by rewrite Hm. }
      split; [by apply merged_row_zeroed|]. split.
      { simpl. by rewrite Hm. }
      destruct j as [|j]; [by left|]. right.
      replace (S j - 1) with j by lia. by apply merges_at_S.
    + intros k x Hx Hm Hprev. unfold merged_row.
      rewrite list_lookup_imap, Hx. simpl. f_equal.
      unfold merged_cell. rewrite Hm. destruct k as [|k]; [done|].
      destruct Hprev as [?|Hprev]; [lia|].
      replace (S k - 1) with k in Hprev by lia. by rewrite Hprev.
    + intros j x Hx Hy Hnz Hprev.
      assert (equal_pair row j = true) as Hp.
      { apply equal_pair_true. by exists x. }
      destruct j as [|j]; [done|]. simpl.
      destruct Hprev as [?|Hprev]; [lia|].
      replace (S j - 1) with j in Hprev by lia. by rewrite Hprev, Hp.
  - intros i Hrow. by rewrite list_lookup_fmap, Hrow.
Qed.

Lemma mergeGrid_single_pass_witness :
  wf (Board.size board_2222) (Board.gridCell board_2222) ∧
  ∃ b', Board.mergeGrid board_2222 = Some b' ∧
        Board.gridCell b' !! 0 = Some [4; 0; 4; 0]%Z ∧
        Board.score b' = 8%Z.
Proof.
  split; [exact wf_row_2222|].
  destruct (mergeGrid_single_pass board_2222 wf_row_2222)
    as (b' & Hm & Hs & _ & _ & Hex).
  exists b'. split; [exact Hm|]. split; [apply Hex; reflexivity|].
  rewrite Hs. reflexivity.
Defined.

(** C2, as stated, fails on a grid that holds a 2 and a 4 far apart and is
    empty elsewhere: [can_merge] answers true there, on two empty
    neighbours, and no two adjacent cells hold equal non-zero values. *)
Lemma can_merge_two_tiles :
  Board.can_merge board_two_tiles = Some true ∧
  ¬ mergeable_neighbours (Board.gridCell board_two_tiles).
Proof.
  split; [reflexivity|]. intros (i & j & x & Hnz & Hx & Hy).
  destruct i as [|[|[|[|i]]]]; destruct j as [|[|[|[|j]]]];
    unfold cell in Hx, Hy; simpl in Hx, Hy; try discriminate Hx;
    injection Hx as <-; try (by apply Hnz);
    destruct Hy as [Hy|Hy]; discriminate Hy.
Qed.

(** C2, amended: on every grid of the board's size [can_merge] returns true
    if and only if some two horizontally or vertically adjacent cells hold
    equal values, zero included; on a grid with no empty cell, which is
    where [can_move] calls it, that is if and only if two adjacent cells hold
    equal non-zero values. *)
Theorem can_merge_equal_neighbours b :
  wf (Board.size b) (Board.gridCell b) →
  ∃ r, Board.can_merge b = Some r ∧
       (r = true ↔ equal_neighbours (Board.gridCell b)) ∧
       (¬ has_empty (Board.gridCell b) →
        (r = true ↔ mergeable_neighbours (Board.gridCell b))).
Proof.
  intros Hwf. destruct (can_merge_spec b Hwf) as (r & Hr & Hiff).
  exists r. split; [done|]. split; [done|]. intros Hfull. rewrite Hiff.
  split.
  - intros (i & j & x & Hx & Hy). exists i, j, x. split; [|done].
    intros ->. apply Hfull. by exists i, j.
  - intros (i & j & x & _ & Hx & Hy). by exists i, j, x.
Qed.

Lemma can_merge_equal_neighbours_witness :
  wf (Board.size board_2222) (Board.gridCell board_2222) ∧
  ∃ r, Board.can_merge board_2222 = Some r ∧
       (r = true ↔ equal_neighbours (Board.gridCell board_2222)).
Proof.
  split; [exact wf_row_2222|].
  destruct (can_merge_equal_neighbours board_2222 wf_row_2222)
    as (r & Hr & Hiff & _).
  exists r. split; [exact Hr | exact Hiff].
Defined.

(** C3, as stated, fails: the Playing game on the checkered grid, full and
    without equal neighbours, stays Playing after a move attempt in any
    direction. *)
Lemma checkers_stays_playing :
  ¬ (∀ g key d g',
       wf (Board.size (Game.board g)) (Board.gridCell (Game.board g)) →
       Game.end_ g = false → Game.won g = false →
       ¬ has_empty (Board.gridCell (Game.board g)) →
       ¬ equal_neighbours (Board.gridCell (Game.board g)) →
       App._key_handler key d g = Some g' →
       Game.end_ g' = true).
Proof.
  intros Hclaim.
  assert (¬ has_empty checkers) as Hfull.
  { apply full_all_cells. repeat constructor; done. }
  assert (¬ equal_neighbours checkers) as Hne.
  { destruct (can_merge_spec (Game.board game_checkers) wf_checkers)
      as (r & Hr & Hiff).
    vm_compute in Hr. injection Hr as <-. intros He. by apply Hiff in He. }
  destruct (App._key_handler Left draw0 game_checkers) as [g'|] eqn:Hk;
    [|vm_compute in Hk; discriminate Hk].
  specialize (Hclaim game_checkers Left draw0 g' wf_checkers
                eq_refl eq_refl Hfull Hne Hk).
  vm_compute in Hk. injection Hk as <-. discriminate Hclaim.
Qed.

(** C3, amended: for every game in the Playing state whose grid has the
    board's size, a move in any direction that is accepted (it returns
    true) transitions the state to Lost when the grid it leaves, after the
    spawn, is full, has no two equal adjacent cells and holds no
    cell equal to the target; and a move attempt on a grid that is already
    full and has no two equal adjacent cells is rejected: it returns false,
    grid, score and move counter are unchanged, and the state stays
    Playing. *)
Theorem lost_after_accepted_move key d g :
  wf (Board.size (Game.board g)) (Board.gridCell (Game.board g)) →
  Game.end_ g = false → Game.won g = false →
  (∀ g1, move key d g = Some (true, g1) →
         ¬ has_empty (Board.gridCell (Game.board g1)) →
         ¬ equal_neighbours (Board.gridCell (Game.board g1)) →
         Game.has_target g1 = false →
         ∃ g', App._key_handler key d g = Some g' ∧
               Game.board g' = Game.board g1 ∧
               Game.end_ g' = true ∧ Game.won g' = false) ∧
  (¬ has_empty (Board.gridCell (Game.board g)) →
   ¬ equal_neighbours (Board.gridCell (Game.board g)) →
   ∃ g1 g', move key d g = Some (false, g1) ∧
            App._key_handler key d g = Some g' ∧
            Board.gridCell (Game.board g') = Board.gridCell (Game.board g) ∧
            Board.score (Game.board g') = Board.score (Game.board g) ∧
            Game.move_count g' = Game.move_count g ∧
            Game.end_ g' = false ∧ Game.won g' = false).
Proof.
  intros Hwf He Hw. split.
  - intros g1 Hmove Hfull Hne Htgt.
    destruct (move_flags _ _ _ _ _ Hwf Hmove) as (Hwf1 & He1 & Hw1 & _).
    destruct (after_move_updates_spec g1 Hwf1) as (g2 & Ha & _ & Hlost).
    destruct (Hlost Htgt) as (Hw2 & _ & He2).
    destruct (after_move_updates_frame _ _ Ha) as (Hb2 & _).
    destruct (post_move_updates_frame g2) as (Hb & _ & _ & _ & Hee & Hww & _).
    exists (App._post_move_updates g2).
    rewrite key_handler_move, Hmove. unfold App.after. simpl. rewrite Ha. simpl.
    split; [done|]. split; [congruence|]. split.
    + rewrite Hee. by apply He2.
    + congruence.
  - intros Hfull Hne.
    destruct (move_stuck key d g Hwf He Hw Hfull Hne)
      as (g1 & Hmove & Hg & Hs & Hm & He1 & Hw1).
    destruct (post_move_updates_frame g1) as (Hb & _ & _ & Hmm & Hee & Hww & _).
    exists g1, (App._post_move_updates g1). split; [done|].
    rewrite key_handler_move, Hmove. unfold App.after. simpl.
    split; [done|]. rewrite Hb, Hmm, Hee, Hww. done.
Qed.

Lemma lost_after_accepted_move_witness :
  wf (Board.size (Game.board game_last_move))
     (Board.gridCell (Game.board game_last_move)) ∧
  Game.end_ game_last_move = false ∧ Game.won game_last_move = false ∧
  ∃ g', App._key_handler Left draw0 game_last_move = Some g' ∧
        Game.end_ g' = true.
Proof.
  assert (wf 4 last_move) as Hwf by (split; [reflexivity | repeat constructor]).
  split; [exact Hwf|]. split; [reflexivity|]. split; [reflexivity|].
  destruct (lost_after_accepted_move Left draw0 game_last_move Hwf eq_refl eq_refl)
    as [Hlost _].
  destruct (move Left draw0 game_last_move) as [[moved g1]|] eqn:Hmove;
    [|vm_compute in Hmove; discriminate Hmove].
  vm_compute in Hmove. injection Hmove as <- <-.
  match type of Hlost with ∀ g1, Some (true, ?x) = _ → _ =>
    destruct (Hlost x eq_refl) as (g' & Hk & _ & He & _) end.
  - apply full_all_cells. repeat constructor; done.
  - match goal with |- ¬ equal_neighbours ?gr =>
      destruct (can_merge_spec (Board.mk 4 gr false false false 0%Z))
        as (r & Hr & Hiff) end.
    { split; [reflexivity | repeat constructor]. }
    vm_compute in Hr. injection Hr as <-. intros Hn. by apply Hiff in Hn.
  - reflexivity.
  - exists g'. split; [exact Hk | exact He].
Defined.

(** C4: for every game in the Playing state whose grid has the board's size,
    a move in any direction succeeds, and [undo] right after it restores
    exactly the grid and the score of before the move and clears the undo
    snapshot; a second [undo] changes nothing at all.  This holds for the
    move of the game controller and for the move as the application runs it,
    with its win and loss checks. *)
Theorem undo_after_move dir d g :
  wf (Board.size (Game.board g)) (Board.gridCell (Game.board g)) →
  Game.end_ g = false → Game.won g = false →
  ∃ moved g' ga,
    move dir d g = Some (moved, g') ∧
    App._key_handler dir d g = Some ga ∧
    (Board.gridCell (Game.board (Game.undo g')) = Board.gridCell (Game.board g) ∧
     Board.score (Game.board (Game.undo g')) = Board.score (Game.board g) ∧
     Game.prev_grid (Game.undo g') = None ∧
     Game.prev_score (Game.undo g') = 0%Z ∧
     Game.undo (Game.undo g') = Game.undo g') ∧
    (Board.gridCell (Game.board (Game.undo ga)) = Board.gridCell (Game.board g) ∧
     Board.score (Game.board (Game.undo ga)) = Board.score (Game.board g) ∧
     Game.prev_grid (Game.undo ga) = None ∧
     Game.prev_score (Game.undo ga) = 0%Z ∧
     Game.undo (Game.undo ga) = Game.undo ga).
Proof.
  intros Hwf He Hw.
  destruct (move_snapshot dir d g Hwf He Hw) as (moved & g' & Hm & Hpg & Hps & Hwf').
  assert (∃ ga, App._key_handler dir d g = Some ga ∧
                Game.prev_grid ga = Game.prev_grid g' ∧
                Game.prev_score ga = Game.prev_score g') as (ga & Hk & Hpa & Hsa).
  { rewrite key_handler_move, Hm. unfold App.after. simpl. destruct moved.
    - destruct (after_move_updates_spec g' Hwf') as (g2 & Ha & _).
      rewrite Ha. simpl. eexists. split; [done|].
      destruct (after_move_updates_frame _ _ Ha) as (_ & Hp2 & Hs2 & _).
      destruct (post_move_updates_frame g2) as (_ & Hp3 & Hs3 & _).
      split; congruence.
    - eexists. split; [done|].
      destruct (post_move_updates_frame g') as (_ & Hp3 & Hs3 & _). done. }
  exists moved, g', ga. split; [done|]. split; [done|].
  rewrite Hpg in Hpa. rewrite Hps in Hsa.
  destruct (undo_restores g' _ Hpg) as (? & Hs1 & ? & ? & ?).
  destruct (undo_restores ga _ Hpa) as (? & Hs2 & ? & ? & ?).
  rewrite Hps in Hs1. rewrite Hsa in Hs2. done.
Qed.

Lemma undo_after_move_witness :
  wf (Board.size (Game.board game_2222)) (Board.gridCell (Game.board game_2222)) ∧
  Game.end_ game_2222 = false ∧ Game.won game_2222 = false ∧
  ∃ moved g',
    move Down draw0 game_2222 = Some (moved, g') ∧
    Board.gridCell (Game.board (Game.undo g')) = row_2222 ∧
    Game.undo (Game.undo g') = Game.undo g'.
Proof.
  split; [exact wf_row_2222|]. split; [reflexivity|]. split; [reflexivity|].
  destruct (undo_after_move Down draw0 game_2222 wf_row_2222 eq_refl eq_refl)
    as (moved & g' & ga & Hm & _ & (Hg & _ & _ & _ & Hu) & _).
  exists moved, g'. split; [exact Hm|]. split; [exact Hg | exact Hu].
Defined.

(** C5: in every game state whose Won or Lost flag is set, a move in any
    direction returns false and leaves the whole state of the game as it
    was: grid, score, move counter, undo snapshot and both flags. *)
Theorem move_terminal_noop dir d g :
  Game.end_ g = true ∨ Game.won g = true →
  move dir d g = Some (false, g).
Proof. apply move_terminal. Qed.

Lemma move_terminal_noop_witness :
  (Game.end_ game_won = true ∨ Game.won game_won = true) ∧
  move Up draw0 game_won = Some (false, game_won).
Proof.
  split; [right; reflexivity|].
  apply (move_terminal_noop Up draw0 game_won). right. reflexivity.
Defined.

(** C6: for every game in the Playing state whose grid has the board's size,
    a move in any direction succeeds, and it is accepted (it returns true)
    exactly when the directional transform changed the grid; when it is
    accepted, the grid the transform produced has an empty cell, the spawn
    succeeds, and the grid after the move is the transformed grid with
    exactly one of its empty cells set to 2 or to 4, every other cell holding
    the value the transform produced. *)
Theorem accepted_move_spawns_one dir d g :
  wf (Board.size (Game.board g)) (Board.gridCell (Game.board g)) →
  Game.end_ g = false → Game.won g = false →
  ∃ moved g' bt,
    move dir d g = Some (moved, g') ∧
    slide dir (Game.board g) = Some (moved, bt) ∧
    (moved = true ↔ Board.gridCell bt ≠ Board.gridCell (Game.board g)) ∧
    (moved = true →
     has_empty (Board.gridCell bt) ∧
     Board.random_cell d bt = Some (true, Game.board g') ∧
     ∃ i j v,
       cell (Board.gridCell bt) i j = Some 0%Z ∧ (v = 2%Z ∨ v = 4%Z) ∧
       cell (Board.gridCell (Game.board g')) i j = Some v ∧
       ∀ i' j', ¬ (i' = i ∧ j' = j) →
                cell (Board.gridCell (Game.board g')) i' j'
                = cell (Board.gridCell bt) i' j').
Proof.
  intros Hwf He Hw.
  destruct (move_spec dir d g Hwf He Hw)
    as (moved & c2 & Hs & [[-> Hm]|[-> (g' & Hsp & _ & Hr & Hm)]]).
  - eexists _, _, _. split; [exact Hm|]. split; [exact Hs|].
    split; [exact (proj1 (slide_moved_iff _ _ _ _ Hwf Hs))|]. done.
  - eexists _, _, _. split; [exact Hm|]. split; [exact Hs|].
    split; [exact (proj1 (slide_moved_iff _ _ _ _ Hwf Hs))|]. intros _.
    destruct Hsp as (i & j & v & Hz & Hv & Hcell). simpl.
    split; [by exists i, j|]. split; [exact Hr|].
    exists i, j, v. split; [done|]. split; [done|]. split.
    + rewrite Hcell. by rewrite decide_True.
    + intros i' j' Hne. rewrite Hcell. by rewrite decide_False.
Qed.

Lemma accepted_move_spawns_one_witness :
  wf (Board.size (Game.board game_2222)) (Board.gridCell (Game.board game_2222)) ∧
  Game.end_ game_2222 = false ∧ Game.won game_2222 = false ∧
  ∃ moved g' bt,
    move Left draw0 game_2222 = Some (moved, g') ∧
    slide Left (Game.board game_2222) = Some (moved, bt).
Proof.
  split; [exact wf_row_2222|]. split; [reflexivity|]. split; [reflexivity|].
  destruct (accepted_move_spawns_one Left draw0 game_2222 wf_row_2222
              eq_refl eq_refl) as (moved & g' & bt & Hm & Hs & _ & _).
  exists moved, g', bt. split; [exact Hm | exact Hs].
Defined.

(** C7: on every grid of the board's size, [compressGrid] succeeds, and
    applying it a second time returns the very board the first application
    left, except that the flag [compress] now reports that no cell changed
    position: the grid of the second application is the grid of the first. *)
Theorem compressGrid_idempotent b :
  wf (Board.size b) (Board.gridCell b) →
  ∃ b1 b2,
    Board.compressGrid b = Some b1 ∧
    Board.compressGrid b1 = Some b2 ∧
    Board.gridCell b2 = Board.gridCell b1 ∧
    Board.compress b2 = false ∧
    b2 = Board.set_compress false b1.
Proof.
  intros Hwf. destruct (compressGrid_spec b Hwf) as (c1 & Hb1 & _).
  set (b1 := Board.set_gridCell (map slid_left (Board.gridCell b))
               (Board.set_compress c1 b)) in *.
  destruct (compressGrid_spec b1) as (c2 & Hb2 & Hc2).
  { simpl. by apply wf_map_slid_left. }
  simpl in Hb2, Hc2.
  assert (c2 = false) as ->.
  { destruct c2; [|done]. exfalso.
    destruct (proj1 (Exists_exists _ _) (proj1 Hc2 eq_refl)) as (row & Hin & Hs).
    apply list_elem_of_fmap in Hin as (r & -> & _).
    by apply (slid_left_rests r). }
  assert (map slid_left (map slid_left (Board.gridCell b))
          = map slid_left (Board.gridCell b)) as Hidem.
  { rewrite <- list_fmap_compose. apply list_fmap_ext.
    intros i row _. simpl. apply slid_left_idemp. }
  rewrite Hidem in Hb2. exists b1. eexists.
  split; [done|]. split; [exact Hb2|]. done.
Qed.

Lemma compressGrid_idempotent_witness :
  wf (Board.size board_2222) (Board.gridCell board_2222) ∧
  ∃ b1, Board.compressGrid board_2222 = Some b1 ∧
        Board.compressGrid b1 = Some (Board.set_compress false b1).
Proof.
  split; [exact wf_row_2222|].
  destruct (compressGrid_idempotent board_2222 wf_row_2222)
    as (b1 & b2 & H1 & H2 & _ & _ & Heq).
  exists b1. split; [exact H1|]. rewrite H2, Heq. reflexivity.
Defined.

(** C8: every state the application can reach, from its start through moves
    in any direction (with their spawns), undo, new game, target changes and
    best-score resets, has a grid of the board's size in which every
    non-zero cell is a power of two that is at least 2; and in every such
    state each of these actions succeeds, so that the reachable states are
    closed under them. *)
Theorem reachable_tiles g :
  reachable g →
  all_cells tile (Board.gridCell (Game.board g)) ∧
  wf (Board.size (Game.board g)) (Board.gridCell (Game.board g)) ∧
  (∀ key d, ∃ g', App._key_handler key d g = Some g' ∧ reachable g') ∧
  (∀ d1 d2, ∃ g', Game.reset d1 d2 g = Some g' ∧ reachable g') ∧
  reachable (Game.undo g).
Proof.
  intros Hreach. pose proof (reachable_good g Hreach) as Hgood.
  pose proof Hgood as (Hwf & Hall & _).
  split; [done|]. split; [done|]. split; [|split].
  - intros key d. destruct (key_handler_total key d g Hgood) as [g' Hk].
    exists g'. split; [done|]. eapply reach_step; [exact Hreach|].
    by eapply step_move.
  - intros d1 d2. destruct (reset_good d1 d2 g) as (g' & Hr & _).
    exists g'. split; [done|]. eapply reach_step; [exact Hreach|].
    by eapply step_new_game.
  - eapply reach_step; [exact Hreach | apply step_undo].
Qed.

Lemma reachable_tiles_witness :
  reachable game_start ∧
  all_cells tile (Board.gridCell (Game.board game_start)).
Proof.
  assert (reachable game_start) as Hreach.
  { apply (reach_init 0%Z draw0 draw0). reflexivity. }
  split; [exact Hreach|].
  exact (proj1 (reachable_tiles game_start Hreach)).
Defined.

(** C9: in every game state whose grid has the board's size and holds no
    negative value, a move request in any direction succeeds and leaves a
    score greater than or equal to the score before it. *)
Theorem move_score_monotone dir d g :
  wf (Board.size (Game.board g)) (Board.gridCell (Game.board g)) →
  all_cells (λ x, 0 ≤ x)%Z (Board.gridCell (Game.board g)) →
  ∃ moved g',
    move dir d g = Some (moved, g') ∧
    (Board.score (Game.board g) ≤ Board.score (Game.board g'))%Z.
Proof.
  intros Hwf Hpos.
  destruct (Game.end_ g) eqn:He.
  { exists false, g. split; [apply move_terminal; by left | lia]. }
  destruct (Game.won g) eqn:Hw.
  { exists false, g. split; [apply move_terminal; by right | lia]. }
  assert (0 ≤ grid_gain (slid dir (Board.gridCell (Game.board g))))%Z as Hgain.
  { apply grid_gain_nonneg.
    apply (all_cells_slid (λ x, 0 ≤ x)%Z (Z.le_refl 0) dir _ _ Hwf Hpos). }
  destruct (move_spec dir d g Hwf He Hw)
    as (moved & c2 & _ & [[-> Hm]|[-> (g' & _ & _ & _ & Hm)]]);
    eexists _, _; (split; [exact Hm|]); simpl; lia.
Qed.

Lemma move_score_monotone_witness :
  wf (Board.size (Game.board game_2222)) (Board.gridCell (Game.board game_2222)) ∧
  all_cells (λ x, 0 ≤ x)%Z (Board.gridCell (Game.board game_2222)) ∧
  ∃ moved g',
    move Left draw0 game_2222 = Some (moved, g') ∧
    (Board.score (Game.board game_2222) ≤ Board.score (Game.board g'))%Z.
Proof.
  assert (all_cells (λ x, 0 ≤ x)%Z row_2222) as Hpos.
  { repeat constructor; simpl; lia. }
  split; [exact wf_row_2222|]. split; [exact Hpos|].
  exact (move_score_monotone Left draw0 game_2222 wf_row_2222 Hpos).
Defined.

(** C10: [undo] leaves the Won and Lost flags and the move counter of every
    game state as they were, and, besides these, the best score, the target
    and the size and flags of the board: it writes the grid, the score and
    the undo snapshot only. *)
Theorem undo_frame g :
  Game.won (Game.undo g) = Game.won g ∧
  Game.end_ (Game.undo g) = Game.end_ g ∧
  Game.move_count (Game.undo g) = Game.move_count g ∧
  Game.best_score (Game.undo g) = Game.best_score g ∧
  Game.target (Game.undo g) = Game.target g ∧
  Board.size (Game.board (Game.undo g)) = Board.size (Game.board g) ∧
  Board.compress (Game.board (Game.undo g)) = Board.compress (Game.board g) ∧
  Board.merge (Game.board (Game.undo g)) = Board.merge (Game.board g) ∧
  Board.moved (Game.board (Game.undo g)) = Board.moved (Game.board g).
Proof. unfold Game.undo. destruct (Game.prev_grid g); simpl; done. Qed.

(** * Further properties of the code *)

(** ** The grid engine *)

Lemma board_eta b :
  Board.set_gridCell (Board.gridCell b) b = b.
Proof. by destruct b. Qed.

(** X1: on a grid of the board's size [reverse] succeeds and mirrors every
    row, leaving the score and the flags alone; reversing again gives the
    board back. *)
Theorem reverse_involutive_board b :
  wf (Board.size b) (Board.gridCell b) →
  ∃ b1,
    Board.reverse b = Some b1 ∧
    b1 = Board.set_gridCell (Board.gridCell b1) b ∧
    wf (Board.size b1) (Board.gridCell b1) ∧
    (∀ i j, j < Board.size b →
            cell (Board.gridCell b1) i j
            = cell (Board.gridCell b) i (Board.size b - 1 - j)) ∧
    Board.reverse b1 = Some b.
Proof.
  intros Hwf. eexists. split; [by apply reverse_spec|]. simpl.
  split; [done|]. split; [by apply wf_map_reverse|]. split.
  - intros i j Hj. by apply cell_map_reverse.
  - rewrite reverse_spec by (simpl; by apply wf_map_reverse). simpl.
    rewrite map_reverse_involutive. by destruct b.
Qed.

Lemma reverse_involutive_board_witness :
  wf (Board.size board_2222) (Board.gridCell board_2222) ∧
  ∃ b1, Board.reverse board_2222 = Some b1 ∧ Board.reverse b1 = Some board_2222.
Proof.
  split; [exact wf_row_2222|].
  destruct (reverse_involutive_board board_2222 wf_row_2222)
    as (b1 & Hr & _ & _ & _ & Hback).
  exists b1. split; [exact Hr | exact Hback].
Defined.

(** X2: on a grid of the board's size [transpose] swaps rows and columns,
    cell [(i, j)] of the result being cell [(j, i)] of the grid, keeps the
    size, the score and the flags, and transposing again gives the board
    back. *)
Theorem transpose_involutive_board b :
  wf (Board.size b) (Board.gridCell b) →
  ∃ b1,
    Board.transpose b = Some b1 ∧
    b1 = Board.set_gridCell (Board.gridCell b1) b ∧
    wf (Board.size b1) (Board.gridCell b1) ∧
    (∀ i j, cell (Board.gridCell b1) i j = cell (Board.gridCell b) j i) ∧
    Board.transpose b1 = Some b.
Proof.
  intros Hwf. destruct (zip_star_wf _ _ Hwf) as [Hwf1 Hcell].
  eexists. split; [reflexivity|]. simpl. split; [done|]. split; [done|].
  split; [done|]. unfold Board.transpose. simpl.
  rewrite (zip_star_involutive _ _ Hwf). by destruct b.
Qed.

Lemma transpose_involutive_board_witness :
  wf (Board.size board_2222) (Board.gridCell board_2222) ∧
  ∃ b1, Board.transpose board_2222 = Some b1 ∧
        cell (Board.gridCell b1) 0 3 = Some 2%Z ∧
        Board.transpose b1 = Some board_2222.
Proof.
  split; [exact wf_row_2222|].
  destruct (transpose_involutive_board board_2222 wf_row_2222)
    as (b1 & Hr & _ & _ & Hcell & Hback).
  exists b1. split; [exact Hr|]. split; [|exact Hback].
  rewrite Hcell. reflexivity.
Defined.

Lemma slid_left_changed row : slides row → slid_left row ≠ row.
Proof. intros Hs Heq. apply (slid_left_rests row). by rewrite Heq. Qed.

Lemma filter_slid_left row :
  filter (λ v, v ≠ 0%Z) (slid_left row) = filter (λ v, v ≠ 0%Z) row.
Proof.
  unfold slid_left. apply filter_nonzero_padded.
  apply Forall_forall. by intros x [Hx _]%list_elem_of_filter.
Qed.

(** X3: on a grid of the board's size [compressGrid] succeeds; every row of
    the result has the length of the row it comes from and is its non-zero
    values, in their order, followed by zeros only; the flag [compress] is
    set exactly when the grid changed; the score, the flag [merge] and the
    size are untouched. *)
Theorem compressGrid_slides_rows b :
  wf (Board.size b) (Board.gridCell b) →
  ∃ b1,
    Board.compressGrid b = Some b1 ∧
    wf (Board.size b1) (Board.gridCell b1) ∧
    Board.size b1 = Board.size b ∧ Board.score b1 = Board.score b ∧
    Board.merge b1 = Board.merge b ∧
    (Board.compress b1 = true ↔ Board.gridCell b1 ≠ Board.gridCell b) ∧
    (∀ i row, Board.gridCell b !! i = Some row →
       ∃ row' k,
         Board.gridCell b1 !! i = Some row' ∧
         length row' = length row ∧
         row' = filter (λ v, v ≠ 0%Z) row ++ replicate k 0%Z ∧
         filter (λ v, v ≠ 0%Z) row' = filter (λ v, v ≠ 0%Z) row).
Proof.
  intros Hwf. destruct (compressGrid_spec b Hwf) as (c & Hc & Hflag).
  eexists. split; [exact Hc|]. simpl.
  split; [by apply wf_map_slid_left|]. split; [done|]. split; [done|].
  split; [done|]. split.
  - rewrite Hflag. split.
    + intros (row & Hin & Hs)%Exists_exists Heq.
      apply list_elem_of_lookup_1 in Hin as [i Hi].
      apply (slid_left_changed row Hs).
      assert (map slid_left (Board.gridCell b) !! i = Some row) as Hrow
        by (by rewrite Heq).
      rewrite list_lookup_fmap, Hi in Hrow. simpl in Hrow. congruence.
    + intros Hne. destruct c.
      { by apply Hflag. }
      exfalso. apply Hne. apply map_fixed. intros row Hin.
      apply not_slides_fixed. intros Hs.
      assert (false = true); [|done]. apply Hflag, Exists_exists. eauto.
  - intros i row Hrow. eexists (slid_left row), _.
    split; [by rewrite list_lookup_fmap, Hrow|].
    split; [apply length_slid_left|]. split; [reflexivity|].
    apply filter_slid_left.
Qed.

Lemma compressGrid_slides_rows_witness :
  wf (Board.size board_2222) (Board.gridCell board_2222) ∧
  ∃ b1, Board.compressGrid board_2222 = Some b1 ∧
        (Board.compress b1 = true ↔
         Board.gridCell b1 ≠ Board.gridCell board_2222).
Proof.
  split; [exact wf_row_2222|].
  destruct (compressGrid_slides_rows board_2222 wf_row_2222)
    as (b1 & Hc & _ & _ & _ & _ & Hflag & _).
  exists b1. split; [exact Hc | exact Hflag].
Defined.

Lemma merged_row_changed row : row_merges row = true → merged_row row ≠ row.
Proof.
  intros (k & _ & Hm)%merges_before_true Heq.
  destruct (proj1 (equal_pair_true row k) (merges_at_pair _ _ Hm))
    as (x & Hx & _ & Hnz).
  assert (merged_row row !! k = Some (x * 2)%Z) as Hnew.
  { unfold merged_row. rewrite list_lookup_imap, Hx. simpl.
    unfold merged_cell. by rewrite Hm. }
  rewrite Heq, Hx in Hnew. injection Hnew as Hnew. lia.
Qed.

Lemma gain_before_pos row j k :
  Forall (λ x, 0 ≤ x)%Z row → k < j → merges_at row k = true →
  (0 < gain_before row j)%Z.
Proof.
  intros Hrow Hk Hm. induction j as [|j IH]; [lia|]. simpl.
  pose proof (gain_before_nonneg row j Hrow) as Hnn.
  destruct (decide (k = j)) as [->|Hne].
  - rewrite Hm.
    destruct (proj1 (equal_pair_true row j) (merges_at_pair _ _ Hm))
      as (x & Hx & _ & Hnz).
    rewrite Hx. simpl. pose proof (Forall_lookup_1 _ _ _ _ Hrow Hx).
    simpl in *. lia.
  - assert (0 < gain_before row j)%Z by (apply IH; lia).
    destruct (merges_at row j); [|lia].
    destruct (row !! j) as [x|] eqn:Hx; simpl; [|lia].
    pose proof (Forall_lookup_1 _ _ _ _ Hrow Hx). simpl in *. lia.
Qed.

Lemma grid_gain_pos g :
  all_cells (λ x, 0 ≤ x)%Z g → existsb row_merges g = true →
  (0 < grid_gain g)%Z.
Proof.
  unfold all_cells, grid_gain.
  induction 1 as [|row g Hrow Hg IH]; [done|]. simpl.
  pose proof (gain_before_nonneg row (length row - 1) Hrow) as Hr.
  pose proof (grid_gain_nonneg g Hg) as Hgn. unfold grid_gain in Hgn.
  intros [Hm|Hm]%orb_true_iff.
  - unfold row_merges in Hm.
    apply merges_before_true in Hm as (k & Hk & Hm).
    pose proof (gain_before_pos row _ k Hrow Hk Hm).
    unfold row_gain at 2. lia.
  - specialize (IH Hm). unfold row_gain at 2. lia.
Qed.

(** X4: on a grid of the board's size [mergeGrid] sets the flag [merge]
    exactly when it changed the grid; when it did not, the score is the
    score of before, and when it did on a grid without negative values, the
    score is strictly greater.  The size and the flag [compress] are
    untouched. *)
Theorem mergeGrid_flag_iff_changed b :
  wf (Board.size b) (Board.gridCell b) →
  ∃ b',
    Board.mergeGrid b = Some b' ∧
    wf (Board.size b') (Board.gridCell b') ∧
    Board.size b' = Board.size b ∧
    Board.compress b' = Board.compress b ∧
    (Board.merge b' = true ↔ Board.gridCell b' ≠ Board.gridCell b) ∧
    (Board.merge b' = false → Board.score b' = Board.score b) ∧
    (all_cells (λ x, 0 ≤ x)%Z (Board.gridCell b) → Board.merge b' = true →
     (Board.score b < Board.score b')%Z).
Proof.
  intros Hwf. eexists. split; [by apply mergeGrid_spec|]. simpl.
  split; [by apply wf_map_merged_row|]. split; [done|]. split; [done|].
  split; [|split].
  - split.
    + intros (row & Hin & Hm)%existsb_exists Heq.
      apply list_elem_of_In, list_elem_of_lookup_1 in Hin as [i Hi].
      apply (merged_row_changed row Hm).
      assert (map merged_row (Board.gridCell b) !! i = Some row) as Hrow
        by (by rewrite Heq).
      rewrite list_lookup_fmap, Hi in Hrow. simpl in Hrow. congruence.
    + intros Hne. destruct (existsb row_merges (Board.gridCell b)) eqn:Hm; [done|].
      exfalso. apply Hne. by destruct (no_merges_grid _ Hm).
  - intros Hm. destruct (no_merges_grid _ Hm) as [_ ->]. lia.
  - intros Hpos Hm. pose proof (grid_gain_pos _ Hpos Hm). lia.
Qed.

Lemma mergeGrid_flag_iff_changed_witness :
  wf (Board.size board_2222) (Board.gridCell board_2222) ∧
  ∃ b', Board.mergeGrid board_2222 = Some b' ∧
        (Board.merge b' = true ↔
         Board.gridCell b' ≠ Board.gridCell board_2222).
Proof.
  split; [exact wf_row_2222|].
  destruct (mergeGrid_flag_iff_changed board_2222 wf_row_2222)
    as (b' & Hm & _ & _ & _ & Hflag & _).
  exists b'. split; [exact Hm | exact Hflag].
Defined.

(** X5: on a grid of the board's size [random_cell] succeeds and touches
    nothing but the grid.  It returns false exactly when the grid has no
    empty cell, and then leaves the board as it was; otherwise it returns
    true and the new grid is the old one with one empty cell set to 2 or
    to 4. *)
Theorem random_cell_fills_one d b :
  wf (Board.size b) (Board.gridCell b) →
  ∃ r b',
    Board.random_cell d b = Some (r, b') ∧
    b' = Board.set_gridCell (Board.gridCell b') b ∧
    wf (Board.size b) (Board.gridCell b') ∧
    (r = true ↔ has_empty (Board.gridCell b)) ∧
    (r = false → b' = b) ∧
    (r = true → spawned (Board.gridCell b) (Board.gridCell b')).
Proof.
  intros Hwf. destruct (random_cell_spec d b Hwf) as [Hfull Hspawn].
  destruct (has_empty_dec (Board.gridCell b)) as [He|He].
  - destruct (Hspawn He) as (i & j & v & g' & Hz & Hv & -> & Hwf' & Hcell).
    eexists _, _. split; [done|]. simpl. split; [done|]. split; [done|].
    split; [done|]. split; [done|]. intros _. by exists i, j, v.
  - rewrite (Hfull He). eexists _, _. split; [done|].
    split; [by rewrite board_eta|]. split; [done|].
    split; [split; [done | by intros ?]|]. split; [done | done].
Qed.

Lemma random_cell_fills_one_witness :
  wf (Board.size board_two_tiles) (Board.gridCell board_two_tiles) ∧
  ∃ b', Board.random_cell draw0 board_two_tiles = Some (true, b') ∧
        spawned (Board.gridCell board_two_tiles) (Board.gridCell b').
Proof.
  assert (wf (Board.size board_two_tiles) (Board.gridCell board_two_tiles))
    as Hwf by (split; [reflexivity | repeat constructor]).
  split; [exact Hwf|].
  destruct (random_cell_fills_one draw0 board_two_tiles Hwf)
    as (r & b' & Hr & _ & _ & _ & _ & Hsp).
  vm_compute in Hr. injection Hr as <- <-.
  eexists. split; [reflexivity|]. apply Hsp. reflexivity.
Defined.

(** X6: on a grid of the board's size [can_move] succeeds and returns true
    exactly when the grid has an empty cell or two equal neighbours. *)
Theorem can_move_iff g :
  wf (Board.size (Game.board g)) (Board.gridCell (Game.board g)) →
  ∃ r, Game.can_move g = Some r ∧
       (r = true ↔ has_empty (Board.gridCell (Game.board g)) ∨
                   equal_neighbours (Board.gridCell (Game.board g))).
Proof. apply can_move_spec. Qed.

Lemma can_move_iff_witness :
  wf (Board.size (Game.board game_checkers))
     (Board.gridCell (Game.board game_checkers)) ∧
  Game.can_move game_checkers = Some false ∧
  ¬ (has_empty (Board.gridCell (Game.board game_checkers)) ∨
     equal_neighbours (Board.gridCell (Game.board game_checkers))).
Proof.
  split; [exact wf_checkers|]. split; [reflexivity|].
  destruct (can_move_iff game_checkers wf_checkers) as (r & Hr & Hiff).
  vm_compute in Hr. injection Hr as <-. intros Hcan.
  apply Hiff in Hcan. discriminate Hcan.
Defined.

(** ** Start and new game *)

Lemma cell_zeros n i j : i < n → j < n → cell (zeros n) i j = Some 0%Z.
Proof.
  intros Hi Hj. unfold cell, zeros. rewrite lookup_replicate_2 by done.
  simpl. by apply lookup_replicate_2.
Qed.

Lemma start_two_tiles d1 d2 g :
  2 ≤ Board.size (Game.board g) →
  Board.gridCell (Game.board g) = zeros (Board.size (Game.board g)) →
  ∃ g', Game.start d1 d2 g = Some g' ∧
        g' = Game.set_board
               (Board.set_gridCell (Board.gridCell (Game.board g')) (Game.board g)) g ∧
        wf (Board.size (Game.board g)) (Board.gridCell (Game.board g')) ∧
        two_tiles (Board.size (Game.board g)) (Board.gridCell (Game.board g')).
Proof.
  intros Hn Hzero. unfold Game.start.
  set (b := Game.board g) in *. set (n := Board.size b) in *.
  assert (wf n (Board.gridCell b)) as Hwf by (rewrite Hzero; apply wf_zeros).
  destruct (random_cell_spec d1 b Hwf) as [_ Hspawn1].
  destruct Hspawn1 as (i1 & j1 & v1 & g1 & Hz1 & Hv1 & -> & Hwf1 & Hcell1).
  { exists 0, 0. rewrite Hzero. apply cell_zeros; lia. }
  simpl. destruct (cell_lt _ _ _ _ _ Hwf Hz1) as [Hi1 Hj1].
  destruct (random_cell_spec d2 (Board.set_gridCell g1 b) Hwf1) as [_ Hspawn2].
  destruct Hspawn2 as (i2 & j2 & v2 & g2 & Hz2 & Hv2 & -> & Hwf2 & Hcell2).
  { simpl. destruct (decide (i1 = 0 ∧ j1 = 0)) as [[-> ->]|Hne].
    - exists 0, 1. rewrite Hcell1, decide_False by (intros [? ?]; lia).
      rewrite Hzero. apply cell_zeros; lia.
    - exists 0, 0. rewrite Hcell1, decide_False by (intros [? ?]; lia).
      rewrite Hzero. apply cell_zeros; lia. }
  simpl in *. destruct (cell_lt _ _ _ _ _ Hwf1 Hz2) as [Hi2 Hj2].
  eexists. split; [done|]. simpl. split; [done|]. split; [done|].
  exists i1, j1, v1, i2, j2, v2.
  assert ((i1, j1) ≠ (i2, j2)) as Hdiff.
  { intros [= <- <-]. rewrite Hcell1, decide_True in Hz2 by done.
    injection Hz2 as ->. by destruct Hv1. }
  repeat (split; [done|]). split; [|split].
  - rewrite Hcell2, decide_False by (intros [-> ->]; done).
    by rewrite Hcell1, decide_True.
  - by rewrite Hcell2, decide_True.
  - intros i j Hi Hj H1 H2.
    rewrite Hcell2, decide_False by (intros [-> ->]; done).
    rewrite Hcell1, decide_False by (intros [-> ->]; done).
    rewrite Hzero. by apply cell_zeros.
Qed.

(** X7: the application starts, whatever the draws, in the Playing state
    with a 4 x 4 grid that holds exactly two tiles, each a 2 or a 4, score
    and move counter 0, no undo snapshot, target 2048 and the best score it
    loaded. *)
Theorem init_two_tiles best d1 d2 :
  ∃ g, App.init best d1 d2 = Some g ∧
       Board.size (Game.board g) = 4 ∧
       wf 4 (Board.gridCell (Game.board g)) ∧
       two_tiles 4 (Board.gridCell (Game.board g)) ∧
       Board.score (Game.board g) = 0%Z ∧ Game.move_count g = 0%Z ∧
       Game.end_ g = false ∧ Game.won g = false ∧
       Game.prev_grid g = None ∧
       Game.best_score g = best ∧ Game.target g = 2048%Z.
Proof.
  unfold App.init.
  destruct (start_two_tiles d1 d2 (Game.init (Board.init 4) best 2048%Z))
    as (g' & -> & Heq & Hwf & Htwo); [simpl; lia | done |].
  exists g'. split; [done|]. rewrite Heq. simpl in *. done.
Qed.

(** X8: on a board of size at least 2, [reset] succeeds from every state,
    whatever its grid and flags: it leaves a grid of the board's size with
    exactly two tiles, each a 2 or a 4, score and move counter 0, both flags
    cleared and no undo snapshot, and keeps the best score and the target. *)
Theorem reset_fresh_game d1 d2 g :
  2 ≤ Board.size (Game.board g) →
  ∃ g', Game.reset d1 d2 g = Some g' ∧
        Board.size (Game.board g') = Board.size (Game.board g) ∧
        wf (Board.size (Game.board g)) (Board.gridCell (Game.board g')) ∧
        two_tiles (Board.size (Game.board g)) (Board.gridCell (Game.board g')) ∧
        Board.score (Game.board g') = 0%Z ∧ Game.move_count g' = 0%Z ∧
        Game.end_ g' = false ∧ Game.won g' = false ∧
        Game.prev_grid g' = None ∧ Game.prev_score g' = 0%Z ∧
        Game.best_score g' = Game.best_score g ∧
        Game.target g' = Game.target g.
Proof.
  intros Hn. unfold Game.reset.
  match goal with |- context [Game.mk ?b false false 0%Z None 0%Z ?bs ?t] =>
    destruct (start_two_tiles d1 d2 (Game.mk b false false 0%Z None 0%Z bs t))
      as (g' & Hs & Heq & Hwf & Htwo); [simpl; lia | done |] end.
  exists g'. split; [exact Hs|]. rewrite Heq. simpl in *. done.
Qed.

Lemma reset_fresh_game_witness :
  2 ≤ Board.size (Game.board game_won) ∧
  ∃ g', Game.reset draw0 draw0 game_won = Some g' ∧
        Game.won g' = false ∧ Board.score (Game.board g') = 0%Z ∧
        Game.best_score g' = 40%Z.
Proof.
  split; [simpl; lia|].
  destruct (reset_fresh_game draw0 draw0 game_won)
    as (g' & Hr & _ & _ & _ & Hs & _ & _ & Hw & _ & _ & Hb & _); [simpl; lia|].
  exists g'. split; [exact Hr|]. split; [exact Hw|]. split; [exact Hs | exact Hb].
Defined.

(** ** Moves, as the game and the application run them *)

Lemma move_frame dir d g moved g1 :
  wf (Board.size (Game.board g)) (Board.gridCell (Game.board g)) →
  move dir d g = Some (moved, g1) →
  Game.move_count g1 = (Game.move_count g + (if moved then 1 else 0))%Z ∧
  Game.best_score g1 = Game.best_score g ∧
  Board.size (Game.board g1) = Board.size (Game.board g).
Proof.
  intros Hwf Hmove.
  destruct (Game.end_ g) eqn:He.
  { rewrite move_terminal in Hmove by (by left). injection Hmove as <- <-.
    split; [lia | done]. }
  destruct (Game.won g) eqn:Hw.
  { rewrite move_terminal in Hmove by (by right). injection Hmove as <- <-.
    split; [lia | done]. }
  destruct (move_spec dir d g Hwf He Hw)
    as (m & c2 & _ & [[-> Hm]|[-> (g' & _ & Hwf' & _ & Hm)]]);
    rewrite Hm in Hmove; injection Hmove as <- <-; simpl;
    (split; [lia | done]).
Qed.

Lemma move_total dir d g :
  wf (Board.size (Game.board g)) (Board.gridCell (Game.board g)) →
  ∃ moved g1, move dir d g = Some (moved, g1).
Proof.
  intros Hwf.
  destruct (Game.end_ g) eqn:He.
  { exists false, g. apply move_terminal. by left. }
  destruct (Game.won g) eqn:Hw.
  { exists false, g. apply move_terminal. by right. }
  destruct (move_spec dir d g Hwf He Hw)
    as (m & c2 & _ & [[-> Hm]|[-> (g' & _ & _ & _ & Hm)]]); eauto.
Qed.

(** X9: on a grid of the board's size a move in any direction succeeds; it
    adds one to the move counter when it is accepted and nothing when it is
    rejected, and it never writes the Won and Lost flags, the target, the
    best score or the size of the board. *)
Theorem move_counts_accepted dir d g :
  wf (Board.size (Game.board g)) (Board.gridCell (Game.board g)) →
  ∃ moved g1,
    move dir d g = Some (moved, g1) ∧
    Game.move_count g1 = (Game.move_count g + (if moved then 1 else 0))%Z ∧
    Game.end_ g1 = Game.end_ g ∧ Game.won g1 = Game.won g ∧
    Game.target g1 = Game.target g ∧
    Game.best_score g1 = Game.best_score g ∧
    Board.size (Game.board g1) = Board.size (Game.board g) ∧
    wf (Board.size (Game.board g1)) (Board.gridCell (Game.board g1)).
Proof.
  intros Hwf. destruct (move_total dir d g Hwf) as (moved & g1 & Hm).
  exists moved, g1. split; [done|].
  destruct (move_frame _ _ _ _ _ Hwf Hm) as (Hc & Hb & Hs).
  destruct (move_flags _ _ _ _ _ Hwf Hm) as (Hwf1 & He & Hw & Ht). done.
Qed.

Lemma move_counts_accepted_witness :
  wf (Board.size (Game.board game_2222)) (Board.gridCell (Game.board game_2222)) ∧
  ∃ g1, move Left draw0 game_2222 = Some (true, g1) ∧
        Game.move_count g1 = 1%Z.
Proof.
  split; [exact wf_row_2222|].
  destruct (move_counts_accepted Left draw0 game_2222 wf_row_2222)
    as (moved & g1 & Hm & Hc & _).
  destruct moved.
  - exists g1. split; [exact Hm | exact Hc].
  - vm_compute in Hm. discriminate Hm.
Defined.

Lemma has_target_iff g :
  Game.has_target g = true ↔
  ∃ i j, cell (Board.gridCell (Game.board g)) i j = Some (Game.target g).
Proof.
  unfold Game.has_target, cell. rewrite existsb_exists. split.
  - intros (row & Hin & Hrow). apply existsb_exists in Hrow as (v & Hv & Heq).
    apply bool_decide_eq_true in Heq as ->.
    apply list_elem_of_In, list_elem_of_lookup_1 in Hin as [i Hi].
    apply list_elem_of_In, list_elem_of_lookup_1 in Hv as [j Hj].
    exists i, j. by rewrite Hi.
  - intros (i & j & Hc). destruct (Board.gridCell (Game.board g) !! i)
      as [row|] eqn:Hrow; [|done]. simpl in Hc.
    exists row. split.
    + apply list_elem_of_In. by eapply list_elem_of_lookup_2.
    + apply existsb_exists. exists (Game.target g). split.
      * apply list_elem_of_In. by eapply list_elem_of_lookup_2.
      * by apply bool_decide_eq_true.
Qed.

Lemma after_move_updates_best g g' :
  Game.after_move_updates g = Some g' →
  Game.best_score g' = Z.max (Game.best_score g) (Board.score (Game.board g)).
Proof.
  unfold Game.after_move_updates.
  set (g1 := if decide _ then _ else g).
  assert (Game.best_score g1
          = Z.max (Game.best_score g) (Board.score (Game.board g))) as Hb.
  { unfold g1. case_decide; simpl; lia. }
  destruct (Game.has_target g1).
  - intros [= <-]. done.
  - destruct (Game.can_move g1) as [cm|]; [|done]. simpl.
    destruct cm; simpl; intros [= <-]; done.
Qed.

Lemma post_move_updates_best g :
  Game.best_score (App._post_move_updates g)
  = Z.max (Game.best_score g) (Board.score (Game.board g)).
Proof. unfold App._post_move_updates. case_decide; simpl; lia. Qed.

Lemma key_handler_after key d g moved g1 :
  wf (Board.size (Game.board g)) (Board.gridCell (Game.board g)) →
  move key d g = Some (moved, g1) →
  ∃ g', App._key_handler key d g = Some g' ∧
        Game.board g' = Game.board g1 ∧
        Game.prev_grid g' = Game.prev_grid g1 ∧
        Game.prev_score g' = Game.prev_score g1 ∧
        Game.move_count g' = Game.move_count g1 ∧
        Game.target g' = Game.target g1 ∧
        Game.best_score g'
        = Z.max (Game.best_score g1) (Board.score (Game.board g1)) ∧
        (moved = false → Game.end_ g' = Game.end_ g1 ∧ Game.won g' = Game.won g1) ∧
        (moved = true →
         ∃ g2, Game.after_move_updates g1 = Some g2 ∧
               Game.end_ g' = Game.end_ g2 ∧ Game.won g' = Game.won g2).
Proof.
  intros Hwf Hmove. rewrite key_handler_move, Hmove. unfold App.after. simpl.
  destruct (move_flags _ _ _ _ _ Hwf Hmove) as (Hwf1 & _).
  destruct moved.
  - destruct (after_move_updates_spec g1 Hwf1) as (g2 & Ha & _).
    rewrite Ha. simpl. eexists. split; [done|].
    destruct (after_move_updates_frame _ _ Ha) as (Hb2 & Hp2 & Hs2 & Hm2 & Ht2).
    pose proof (after_move_updates_best _ _ Ha) as Hbest.
    destruct (post_move_updates_frame g2) as (Hb & Hp & Hs & Hm & He & Hw & Ht).
    rewrite post_move_updates_best, Hb, Hp, Hs, Hm, Ht, He, Hw, Hbest.
    rewrite Hb2, Hp2, Hs2, Hm2, Ht2.
    do 5 (split; [done|]). split; [lia|]. split; [done|].
    intros _. by exists g2.
  - eexists. split; [done|].
    destruct (post_move_updates_frame g1) as (Hb & Hp & Hs & Hm & He & Hw & Ht).
    rewrite post_move_updates_best, Hb, Hp, Hs, Hm, Ht, He, Hw.
    do 7 (split; [done|]). done.
Qed.

(** X10: a key press that leads to an accepted move whose grid holds a cell
    equal to the target sets the Won flag; the Lost flag is not set by that
    move, even when the grid it leaves is stuck, since the win check comes
    first. *)
Theorem won_when_target_reached key d g g1 i j :
  wf (Board.size (Game.board g)) (Board.gridCell (Game.board g)) →
  move key d g = Some (true, g1) →
  cell (Board.gridCell (Game.board g1)) i j = Some (Game.target g1) →
  ∃ g', App._key_handler key d g = Some g' ∧
        Game.board g' = Game.board g1 ∧
        Game.won g' = true ∧ Game.end_ g' = Game.end_ g.
Proof.
  intros Hwf Hmove Hcell.
  destruct (key_handler_after _ _ _ _ _ Hwf Hmove)
    as (g' & Hk & Hb & _ & _ & _ & _ & _ & _ & Hacc).
  destruct (Hacc eq_refl) as (g2 & Ha & He & Hw).
  destruct (move_flags _ _ _ _ _ Hwf Hmove) as (Hwf1 & He1 & _).
  destruct (after_move_updates_spec g1 Hwf1) as (g2' & Ha' & Hwin & _).
  rewrite Ha in Ha'. injection Ha' as <-.
  destruct Hwin as [Hw2 He2]; [apply has_target_iff; eauto|].
  exists g'. split; [done|]. split; [done|]. split; congruence.
Qed.

Lemma won_when_target_reached_witness :
  wf (Board.size (Game.board game_near_win))
     (Board.gridCell (Game.board game_near_win)) ∧
  ∃ g', App._key_handler Left draw0 game_near_win = Some g' ∧
        Game.won g' = true ∧ Game.end_ g' = false.
Proof.
  assert (wf (Board.size (Game.board game_near_win))
             (Board.gridCell (Game.board game_near_win))) as Hwf
    by (split; [reflexivity | repeat constructor]).
  split; [exact Hwf|].
  destruct (move Left draw0 game_near_win) as [[moved g1]|] eqn:Hmove;
    [|vm_compute in Hmove; discriminate Hmove].
  pose proof (won_when_target_reached Left draw0 game_near_win g1 0 0 Hwf)
    as Hwon.
  vm_compute in Hmove. injection Hmove as <- <-.
  destruct (Hwon eq_refl eq_refl) as (g' & Hk & _ & Hw & He).
  exists g'. split; [exact Hk|]. split; [exact Hw | exact He].
Defined.

(** X11: on a grid of the board's size every key press succeeds and leaves
    the best score equal to the greater of the best score of before and the
    score after the move: the best score never decreases under key presses
    and is at least the score after each of them. *)
Theorem key_handler_best_score key d g :
  wf (Board.size (Game.board g)) (Board.gridCell (Game.board g)) →
  ∃ g', App._key_handler key d g = Some g' ∧
        Game.best_score g'
        = Z.max (Game.best_score g) (Board.score (Game.board g')) ∧
        (Game.best_score g ≤ Game.best_score g')%Z ∧
        (Board.score (Game.board g') ≤ Game.best_score g')%Z.
Proof.
  intros Hwf. destruct (move_total key d g Hwf) as (moved & g1 & Hm).
  destruct (key_handler_after _ _ _ _ _ Hwf Hm)
    as (g' & Hk & Hb & _ & _ & _ & _ & Hbest & _).
  destruct (move_frame _ _ _ _ _ Hwf Hm) as (_ & Hb1 & _).
  exists g'. split; [done|]. rewrite Hbest, Hb, Hb1. lia.
Qed.

Lemma key_handler_best_score_witness :
  wf (Board.size (Game.board game_2222)) (Board.gridCell (Game.board game_2222)) ∧
  ∃ g', App._key_handler Left draw0 game_2222 = Some g' ∧
        (Board.score (Game.board g') ≤ Game.best_score g')%Z.
Proof.
  split; [exact wf_row_2222|].
  destruct (key_handler_best_score Left draw0 game_2222 wf_row_2222)
    as (g' & Hk & _ & _ & Hle).
  exists g'. split; [exact Hk | exact Hle].
Defined.



(** ** More invariants of the reachable states *)

Lemma tile_nonneg x : tile x → (0 ≤ x)%Z.
Proof. intros [->|[k ->]]; [lia|]. apply Z.pow_nonneg. lia. Qed.

Lemma tiles_nonneg g : all_cells tile g → all_cells (λ x, 0 ≤ x)%Z g.
Proof.
  unfold all_cells. intros Hall. eapply Forall_impl; [exact Hall|].
  intros row Hrow. eapply Forall_impl; [exact Hrow|]. apply tile_nonneg.
Qed.

Lemma two_tiles_has_empty n g : 2 ≤ n → two_tiles n g → has_empty g.
Proof.
  intros Hn (i1 & j1 & v1 & i2 & j2 & v2 & _ & _ & _ & _ & _ & _ & _ & _ & _ & Hrest).
  destruct (decide ((0, 0) = (i1, j1) ∨ (0, 0) = (i2, j2))) as [H00|H00].
  - destruct (decide ((0, 1) = (i1, j1) ∨ (0, 1) = (i2, j2))) as [H01|H01].
    + exists 1, 0. apply Hrest; [lia..| |];
        intros Heq; destruct H00 as [H|H], H01 as [H'|H']; congruence.
    + exists 0, 1. apply Hrest; [lia..| |]; intros Heq; apply H01; auto.
  - exists 0, 0. apply Hrest; [lia..| |]; intros Heq; apply H00; auto.
Qed.

Lemma equal_neighbours_dec n g :
  wf n g → equal_neighbours g ∨ ¬ equal_neighbours g.
Proof.
  intros Hwf.
  destruct (can_merge_spec (Board.mk n g false false false 0%Z) Hwf)
    as (r & _ & Hiff). simpl in Hiff.
  destruct r; [left; by apply Hiff | right; intros He; by apply Hiff in He].
Qed.

Lemma move_score_le dir d g moved g1 :
  wf (Board.size (Game.board g)) (Board.gridCell (Game.board g)) →
  all_cells (λ x, 0 ≤ x)%Z (Board.gridCell (Game.board g)) →
  move dir d g = Some (moved, g1) →
  (Board.score (Game.board g) ≤ Board.score (Game.board g1))%Z.
Proof.
  intros Hwf Hpos Hmove.
  destruct (Game.end_ g) eqn:He.
  { rewrite move_terminal in Hmove by (by left). injection Hmove as <- <-. lia. }
  destruct (Game.won g) eqn:Hw.
  { rewrite move_terminal in Hmove by (by right). injection Hmove as <- <-. lia. }
  assert (0 ≤ grid_gain (slid dir (Board.gridCell (Game.board g))))%Z as Hgain.
  { apply grid_gain_nonneg.
    apply (all_cells_slid (λ x, 0 ≤ x)%Z (Z.le_refl 0) dir _ _ Hwf Hpos). }
  destruct (move_spec dir d g Hwf He Hw)
    as (m & c2 & _ & [[-> Hm]|[-> (g' & _ & _ & _ & Hm)]]);
    rewrite Hm in Hmove; injection Hmove as <- <-; simpl; lia.
Qed.

Lemma move_playing_cases dir d g moved g1 :
  wf (Board.size (Game.board g)) (Board.gridCell (Game.board g)) →
  Game.end_ g = false → Game.won g = false →
  move dir d g = Some (moved, g1) →
  Game.prev_grid g1 = Some (Board.gridCell (Game.board g)) ∧
  Game.prev_score g1 = Board.score (Game.board g) ∧
  (moved = false →
   Board.gridCell (Game.board g1) = Board.gridCell (Game.board g) ∧
   Board.score (Game.board g1) = Board.score (Game.board g)).
Proof.
  intros Hwf He Hw Hmove.
  destruct (move_spec dir d g Hwf He Hw)
    as (m & c2 & Hs & [[-> Hm]|[-> (g' & _ & _ & _ & Hm)]]);
    rewrite Hm in Hmove; injection Hmove as <- <-; simpl;
    rewrite copy_grid_id; (split; [done|]); (split; [done|]); [|done].
  intros _. destruct (slide_moved_iff _ _ _ _ Hwf Hs) as [Hiff Hscore].
  simpl in *. split; [|by apply Hscore].
  destruct (decide (slide_grid dir (Board.gridCell (Game.board g))
                    = Board.gridCell (Game.board g))) as [|Hne]; [done|].
  by apply Hiff in Hne.
Qed.

Lemma sound_frame g g' :
  Game.board g' = Game.board g → Game.prev_grid g' = Game.prev_grid g →
  Game.prev_score g' = Game.prev_score g →
  Game.move_count g' = Game.move_count g →
  Game.end_ g' = Game.end_ g → Game.won g' = Game.won g →
  sound g → sound g'.
Proof. unfold sound, good. by intros -> -> -> -> -> ->. Qed.

Lemma reset_as_start d1 d2 g :
  Game.reset d1 d2 g =
  Game.start d1 d2
    (Game.mk (Board.set_score 0%Z
                (Board.set_gridCell (zeros (Board.size (Game.board g)))
                   (Game.board g)))
       false false 0%Z None 0%Z (Game.best_score g) (Game.target g)).
Proof. reflexivity. Qed.

Lemma start_sound d1 d2 g g' :
  Board.size (Game.board g) = 4 →
  Board.gridCell (Game.board g) = zeros (Board.size (Game.board g)) →
  Board.score (Game.board g) = 0%Z → Game.move_count g = 0%Z →
  Game.prev_grid g = None → Game.prev_score g = 0%Z →
  Game.start d1 d2 g = Some g' → sound g'.
Proof.
  intros Hsz Hzero Hsc Hmc Hp Hps Hstart.
  assert (good g) as Hgood.
  { split; [rewrite Hzero; apply wf_zeros|].
    split; [rewrite Hzero; apply all_cells_zeros, tile_zero|].
    by rewrite Hp. }
  destruct (start_good d1 d2 g Hgood Hp) as (g1 & Hs1 & Hgood1).
  destruct (start_two_tiles d1 d2 g) as (g2 & Hs2 & Heq & _ & Htwo);
    [lia | done |].
  assert (g1 = g') as -> by congruence.
  assert (g2 = g') as -> by congruence.
  split; [done|]. rewrite Heq. simpl. rewrite Hsc, Hmc, Hp, Hps.
  split; [done|]. split; [lia|]. split; [lia|]. split; [lia|].
  split; [|done]. intros _ _. left.
  apply (two_tiles_has_empty (Board.size (Game.board g))); [lia|].
  by rewrite Heq in Htwo.
Qed.

Lemma init_sound best d1 d2 g : App.init best d1 d2 = Some g → sound g.
Proof. unfold App.init. by apply start_sound. Qed.

Lemma reset_sound d1 d2 g g' :
  Board.size (Game.board g) = 4 → Game.reset d1 d2 g = Some g' → sound g'.
Proof. intros Hsz. rewrite reset_as_start. by apply start_sound. Qed.

Lemma undo_sound g : sound g → sound (Game.undo g).
Proof.
  intros Hsound. pose proof Hsound as (Hgood & Hsz & Hsc & Hps & Hmc & Hlive & Hprev).
  pose proof (undo_good g Hgood) as Hgood'.
  unfold Game.undo in *. destruct (Game.prev_grid g) as [pg|] eqn:Hpg; [|done].
  split; [done|]. simpl. rewrite copy_grid_id.
  split; [done|]. split; [done|]. split; [lia|]. split; [done|].
  split; [|done]. intros _ _. by apply Hprev.
Qed.

Lemma key_handler_sound key d g g' :
  sound g → App._key_handler key d g = Some g' → sound g'.
Proof.
  intros Hsound Hk.
  pose proof Hsound as (Hgood & Hsz & Hsc & Hps & Hmc & Hlive & Hprev).
  pose proof Hgood as (Hwf & Hall & _).
  pose proof (key_handler_good _ _ _ _ Hgood Hk) as Hgood'.
  destruct (move_total key d g Hwf) as (moved & g1 & Hm).
  destruct (key_handler_after _ _ _ _ _ Hwf Hm)
    as (g'' & Hk' & Hb & Hpg & Hpsc & Hcnt & _ & _ & Hrej & Hacc).
  assert (g'' = g') as -> by congruence.
  destruct (move_frame _ _ _ _ _ Hwf Hm) as (Hcnt1 & _ & Hsz1).
  destruct (move_flags _ _ _ _ _ Hwf Hm) as (Hwf1 & He1 & Hw1 & _).
  pose proof (move_score_le _ _ _ _ _ Hwf (tiles_nonneg _ Hall) Hm) as Hle.
  split; [done|]. rewrite Hb, Hpg, Hpsc, Hcnt, Hcnt1.
  split; [congruence|]. split; [lia|].
  destruct (Game.end_ g || Game.won g) eqn:Hterm.
  - assert (move key d g = Some (false, g)) as Hm'.
    { apply move_terminal. apply orb_true_iff in Hterm. tauto. }
    rewrite Hm' in Hm. injection Hm as <- <-.
    destruct (Hrej eq_refl) as [He' Hw'].
    split; [done|]. split; [lia|]. split; [|done].
    intros He2 Hw2. rewrite He' in He2. rewrite Hw' in Hw2.
    rewrite He2, Hw2 in Hterm. done.
  - apply orb_false_iff in Hterm as [He Hw].
    destruct (move_playing_cases _ _ _ _ _ Hwf He Hw Hm) as (Hp1 & Hps1 & Hsame).
    rewrite Hps1, Hp1. split; [done|].
    split; [destruct moved; lia|]. split.
    + intros He2 Hw2. destruct moved.
      * destruct (Hacc eq_refl) as (g2 & Ha & He' & Hw').
        destruct (after_move_updates_spec g1 Hwf1) as (g2' & Ha' & Hwin & Hlose).
        rewrite Ha in Ha'. injection Ha' as <-.
        destruct (Game.has_target g1) eqn:Htgt.
        { destruct (Hwin eq_refl) as [Hw2' _]. congruence. }
        destruct (Hlose eq_refl) as (_ & _ & Hstuck).
        destruct (has_empty_dec (Board.gridCell (Game.board g1))) as [|Hfull];
          [by left|].
        destruct (equal_neighbours_dec _ _ Hwf1) as [|Hne]; [by right|].
        specialize (Hstuck Hfull Hne). congruence.
      * destruct (Hsame eq_refl) as [-> _]. by apply Hlive.
    + intros pg [= <-]. by apply Hlive.
Qed.

Lemma step_sound g g' : sound g → step g g' → sound g'.
Proof.
  intros Hsound Hstep.
  destruct Hstep as [key d g g' Hk| g |d1 d2 g g' Hr|t g|g].
  - by eapply key_handler_sound.
  - by apply undo_sound.
  - eapply reset_sound; [|exact Hr]. apply Hsound.
  - by eapply sound_frame.
  - by eapply sound_frame.
Qed.

Lemma reachable_sound g : reachable g → sound g.
Proof.
  induction 1 as [best d1 d2 g Hinit|g g' _ IH Hstep].
  - by eapply init_sound.
  - by eapply step_sound.
Qed.

(** X13: a reachable state in the Playing state is never stuck: its grid
    has an empty cell or two equal neighbours, and [can_move] returns true
    on it.  The Lost flag is thus set in every reachable state whose grid
    cannot move, unless the Won flag is. *)
Theorem reachable_playing_can_move g :
  reachable g → Game.end_ g = false → Game.won g = false →
  movable (Board.gridCell (Game.board g)) ∧ Game.can_move g = Some true.
Proof.
  intros Hreach He Hw.
  destruct (reachable_sound g Hreach) as ((Hwf & _) & _ & _ & _ & _ & Hlive & _).
  specialize (Hlive He Hw). split; [done|].
  destruct (can_move_spec g Hwf) as (r & -> & Hiff).
  f_equal. by apply Hiff.
Qed.

Lemma reachable_playing_can_move_witness :
  reachable game_start ∧
  Game.end_ game_start = false ∧ Game.won game_start = false ∧
  Game.can_move game_start = Some true.
Proof.
  assert (reachable game_start) as Hreach.
  { apply (reach_init 0%Z draw0 draw0). reflexivity. }
  split; [exact Hreach|]. split; [reflexivity|]. split; [reflexivity|].
  exact (proj2 (reachable_playing_can_move game_start Hreach eq_refl eq_refl)).
Defined.

(** X14: in every reachable state the board has size 4 with a 4 x 4 grid,
    the score, the score saved for undo and the move counter are not
    negative, and the grid of the undo snapshot, when there is one, is a
    4 x 4 grid of tiles. *)
Theorem reachable_counters g :
  reachable g →
  Board.size (Game.board g) = 4 ∧
  wf 4 (Board.gridCell (Game.board g)) ∧
  (0 ≤ Board.score (Game.board g))%Z ∧
  (0 ≤ Game.prev_score g)%Z ∧
  (0 ≤ Game.move_count g)%Z ∧
  (∀ pg, Game.prev_grid g = Some pg → wf 4 pg ∧ all_cells tile pg).
Proof.
  intros Hreach.
  destruct (reachable_sound g Hreach)
    as ((Hwf & _ & Hprev) & Hsz & Hsc & Hps & Hmc & _).
  rewrite Hsz in *. done.
Qed.

Lemma reachable_counters_witness :
  reachable game_start ∧ Board.size (Game.board game_start) = 4.
Proof.
  assert (reachable game_start) as Hreach.
  { apply (reach_init 0%Z draw0 draw0). reflexivity. }
  split; [exact Hreach|].
  exact (proj1 (reachable_counters game_start Hreach)).
Defined.

(** ** A grid that lacks a row *)

Lemma for_range_fails {St : Type} lo len (body : nat → St → option St) s j :
  lo ≤ j < lo + len → (∀ s, body j s = None) →
  for_range lo len body s = None.
Proof.
  revert lo s. induction len as [|len IH]; intros lo s Hj Hfail; [lia|].
  simpl. destruct (decide (j = lo)) as [->|Hne].
  - by rewrite Hfail.
  - destruct (body lo s) as [s'|]; [|done]. simpl. apply IH; [lia | done].
Qed.

Lemma cell_no_row (g : list (list Z)) i j : length g ≤ i → cell g i j = None.
Proof. intros Hi. unfold cell. by rewrite lookup_ge_None_2. Qed.

Lemma for_range_preserves {St : Type} (I : St → Prop) lo len
    (body : nat → St → option St) s s' :
  (∀ k s s', body k s = Some s' → I s → I s') →
  I s → for_range lo len body s = Some s' → I s'.
Proof.
  intros Hbody. revert lo s. induction len as [|len IH]; intros lo s HI; simpl.
  - by intros [= <-].
  - destruct (body lo s) as [s1|] eqn:Hb; [|done]. simpl.
    apply IH. by eapply Hbody.
Qed.

Lemma for_range_fails_inv {St : Type} (I : St → Prop) lo len
    (body : nat → St → option St) s j :
  lo ≤ j < lo + len → I s →
  (∀ k s s', body k s = Some s' → I s → I s') →
  (∀ s, I s → body j s = None) →
  for_range lo len body s = None.
Proof.
  intros Hj HI Hbody Hfail. revert lo s Hj HI.
  induction len as [|len IH]; intros lo s Hj HI; [lia|].
  simpl. destruct (decide (j = lo)) as [->|Hne].
  - by rewrite Hfail.
  - destruct (body lo s) as [s1|] eqn:Hb; [|done]. simpl.
    apply IH; [lia|]. by eapply Hbody.
Qed.

Lemma set_cell_length g i j v g' :
  set_cell g i j v = Some g' → length g' = length g.
Proof.
  unfold set_cell. destruct (g !! i) as [row|]; [|done]. simpl.
  destruct (row !! j); [|done]. simpl. intros [= <-]. apply length_insert.
Qed.

Lemma reverse_while_length ind j : ∀ i g g',
  Board.reverse_while ind i j g = Some g' → length g' = length g.
Proof.
  induction j as [|j IH]; intros i g g'; simpl; [by intros [= <-]|].
  case_decide; [|by intros [= <-]].
  destruct (cell g ind (S j)) as [x|]; [|done]. simpl.
  destruct (cell g ind i) as [y|]; [|done]. simpl.
  destruct (set_cell g ind i x) as [g1|] eqn:H1; [|done]. simpl.
  destruct (set_cell g1 ind (S j) y) as [g2|] eqn:H2; [|done]. simpl.
  intros Hr. apply IH in Hr. apply set_cell_length in H1, H2. lia.
Qed.

(** X15: when the grid has fewer rows than the board's size, the passes that
    index the grid by the size raise [IndexError]: [compressGrid] and
    [random_cell] do, and so do [mergeGrid] and [reverse] when the size is
    at least 2; [transpose], which does not index, succeeds. *)
Theorem short_grid_raises d b :
  length (Board.gridCell b) < Board.size b →
  Board.compressGrid b = None ∧
  Board.random_cell d b = None ∧
  (2 ≤ Board.size b → Board.mergeGrid b = None) ∧
  (2 ≤ Board.size b → Board.reverse b = None) ∧
  is_Some (Board.transpose b).
Proof.
  intros Hshort.
  set (n := Board.size b) in *. set (g := Board.gridCell b) in *.
  split; [|split; [|split; [|split]]].
  - unfold Board.compressGrid. fold n g.
    erewrite (for_range_fails 0 n _ _ (length g)); [done | lia |].
    intros [temp flag].
    erewrite (for_range_fails 0 n _ _ 0); [done | lia |].
    intros [[t f] c]. by rewrite cell_no_row.
  - unfold Board.random_cell. fold n g.
    erewrite (for_range_fails 0 n _ _ (length g)); [done | lia |].
    intros cells.
    erewrite (for_range_fails 0 n _ _ 0); [done | lia |].
    intros cs. by rewrite cell_no_row.
  - intros Hn. unfold Board.mergeGrid. fold n.
    set (I := λ s : Board.t,
           Board.size s = n ∧ length (Board.gridCell s) = length g).
    assert (∀ i k s s',
      (x ← cell (Board.gridCell s) i k;
       y ← cell (Board.gridCell s) i (S k);
       if decide (x = y ∧ x ≠ 0%Z) then
         g1 ← set_cell (Board.gridCell s) i k (x * 2)%Z;
         g2 ← set_cell g1 i (S k) 0%Z;
         d ← cell g2 i k;
         Some (Board.set_merge true
                 (Board.set_score (Board.score s + d)%Z (Board.set_gridCell g2 s)))
       else Some s) = Some s' → I s → I s') as Hinner.
    { intros i k s s' Hs [Hsz Hlen].
      destruct (cell (Board.gridCell s) i k) as [x|]; [|done]. simpl in Hs.
      destruct (cell (Board.gridCell s) i (S k)) as [y|]; [|done]. simpl in Hs.
      case_decide; [|by injection Hs as <-].
      destruct (set_cell _ i k _) as [g1|] eqn:H1; [|done]. simpl in Hs.
      destruct (set_cell g1 i (S k) _) as [g2|] eqn:H2; [|done]. simpl in Hs.
      destruct (cell g2 i k) as [v|]; [|done]. simpl in Hs.
      injection Hs as <-. apply set_cell_length in H1, H2.
      split; simpl; [done | lia]. }
    apply (for_range_fails_inv I 0 n _ _ (length g)); [lia | done | |].
    + intros i s s' Hs HI. eapply (for_range_preserves I); [|exact HI|exact Hs].
      intros k s1 s2. apply Hinner.
    + intros s [Hsz Hlen]. rewrite Hsz.
      apply (for_range_fails_inv I 0 (n - 1) _ _ 0); [lia | done | |].
      * intros k s1 s2. apply Hinner.
      * intros s1 [_ Hl]. rewrite (cell_no_row _ (length g) 0) by lia. done.
  - intros Hn. unfold Board.reverse. fold n g.
    erewrite (for_range_fails_inv (λ s, length s = length g) 0 n _ _ (length g));
      [done | lia | done | |].
    + intros k s s' Hs Hl. apply reverse_while_length in Hs. lia.
    + intros s Hl. destruct (n - 1) as [|m] eqn:Hm; [lia|]. simpl.
      rewrite (cell_no_row _ (length g) (S m)) by lia. done.
  - by eexists.
Qed.

Lemma short_grid_raises_witness :
  length (Board.gridCell board_short) < Board.size board_short ∧
  Board.compressGrid board_short = None ∧
  Board.mergeGrid board_short = None.
Proof.
  assert (length (Board.gridCell board_short) < Board.size board_short)
    as Hshort by (simpl; lia).
  split; [exact Hshort|].
  destruct (short_grid_raises draw0 board_short Hshort) as (Hc & _ & Hm & _).
  split; [exact Hc|]. apply Hm. simpl. lia.
Defined.

(** ** The sum of the tiles *)

Lemma sum_with_app {A : Type} (f : A → Z) l1 l2 :
  sum_with f (l1 ++ l2) = (sum_with f l1 + sum_with f l2)%Z.
Proof.
  unfold sum_with. induction l1 as [|a l1 IH]; simpl; [done|]. rewrite IH. lia.
Qed.

Lemma sum_with_insert {A : Type} (f : A → Z) l i a b :
  l !! i = Some a →
  sum_with f (<[i := b]> l) = (sum_with f l - f a + f b)%Z.
Proof.
  revert i. induction l as [|x l IH]; intros i Hi; [done|].
  destruct i as [|i]; simpl in *.
  - injection Hi as ->. unfold sum_with. simpl. lia.
  - unfold sum_with in *. simpl. rewrite (IH i Hi). lia.
Qed.

Lemma sum_with_map {A : Type} (f : A → Z) (h : A → A) l :
  (∀ a, f (h a) = f a) → sum_with f (map h l) = sum_with f l.
Proof.
  intros Hh. unfold sum_with. induction l as [|a l IH]; simpl; [done|].
  by rewrite IH, Hh.
Qed.

Lemma row_sum_reverse row : row_sum (reverse row) = row_sum row.
Proof.
  unfold row_sum. induction row as [|x l IH]; [done|].
  rewrite reverse_cons, sum_with_app, IH. unfold sum_with. simpl. lia.
Qed.

Lemma row_sum_filter row :
  row_sum (filter (λ v, v ≠ 0%Z) row) = row_sum row.
Proof.
  unfold row_sum, sum_with. induction row as [|x l IH]; [done|].
  rewrite filter_cons. case_decide; simpl; rewrite IH; lia.
Qed.

Lemma row_sum_zeros k : row_sum (replicate k 0%Z) = 0%Z.
Proof.
  unfold row_sum, sum_with. induction k as [|k IH]; simpl; [done|].
  by rewrite IH.
Qed.

Lemma row_sum_slid_left row : row_sum (slid_left row) = row_sum row.
Proof.
  unfold slid_left. unfold row_sum at 1. rewrite sum_with_app.
  fold (row_sum (filter (λ v, v ≠ 0%Z) row)).
  fold (row_sum (replicate (length row - length (filter (λ v, v ≠ 0%Z) row)) 0%Z)).
  rewrite row_sum_filter, row_sum_zeros. lia.
Qed.

Lemma row_sum_merged_upto row j :
  row_sum (imap (merged_upto row j) row) = row_sum row.
Proof.
  induction j as [|j IH]; [by rewrite merged_upto_0|].
  destruct (merges_at row j) eqn:Hm.
  - pose proof (merges_at_lt _ _ Hm) as Hlt.
    set (R := imap (merged_upto row j) row) in *.
    assert (length R = length row) as HR by (unfold R; apply length_imap).
    destruct (lookup_lt_is_Some_2 R j) as [x Hx]; [lia|].
    destruct (lookup_lt_is_Some_2 R (S j)) as [y Hy]; [lia|].
    destruct (merged_upto_cond row j x y Hx Hy) as [Hcond Hval].
    destruct (proj2 Hcond Hm) as [<- _].
    rewrite <- (merged_upto_merge row j x (Hval Hm) Hm). fold R.
    unfold row_sum in *.
    rewrite (sum_with_insert _ _ (S j) x 0%Z)
      by (rewrite list_lookup_insert_ne by lia; exact Hy).
    rewrite (sum_with_insert _ _ j x (x * 2)%Z Hx). lia.
  - by rewrite <- (merged_upto_skip _ _ Hm).
Qed.

Lemma row_sum_merged_row row : row_sum (merged_row row) = row_sum row.
Proof. rewrite <- merged_upto_last. apply row_sum_merged_upto. Qed.

Lemma grid_sum_zip_cons (r : list Z) (cols : list (list Z)) :
  length r = length cols →
  grid_sum (zip_with cons r cols) = (row_sum r + grid_sum cols)%Z.
Proof.
  revert cols. induction r as [|x r IH]; intros [|c cols] Hlen; try done.
  simpl in Hlen. unfold grid_sum, row_sum, sum_with in *. simpl.
  rewrite (IH cols) by lia. lia.
Qed.

Lemma grid_sum_zip_star m (g : list (list Z)) :
  Forall (λ row, length row = m) g → grid_sum (zip_star g) = grid_sum g.
Proof.
  induction g as [|r g IH]; [done|]. intros Hall.
  apply Forall_cons in Hall as [Hr Hall].
  destruct g as [|r' g].
  - simpl. unfold grid_sum, row_sum, sum_with. simpl.
    clear. induction r as [|x r IHr]; simpl; [done|]. rewrite IHr. lia.
  - destruct (zip_star_spec m (r' :: g)) as (Hlen & _); [done..|].
    change (zip_star (r :: r' :: g)) with (zip_with cons r (zip_star (r' :: g))).
    rewrite grid_sum_zip_cons by lia. rewrite (IH Hall).
    unfold grid_sum, sum_with. simpl. lia.
Qed.

Lemma grid_sum_map_rows (h : list Z → list Z) g :
  (∀ row, row_sum (h row) = row_sum row) → grid_sum (map h g) = grid_sum g.
Proof. apply sum_with_map. Qed.

Lemma grid_sum_pre dir n g : wf n g → grid_sum (pre dir g) = grid_sum g.
Proof.
  intros [_ Hrows]. destruct dir; simpl; [done|..].
  - apply grid_sum_map_rows, row_sum_reverse.
  - by apply (grid_sum_zip_star n).
  - rewrite (grid_sum_map_rows _ _ row_sum_reverse).
    by apply (grid_sum_zip_star n).
Qed.

Lemma grid_sum_post dir n g : wf n g → grid_sum (post dir g) = grid_sum g.
Proof.
  intros Hwf. destruct dir; simpl; [done|..].
  - apply grid_sum_map_rows, row_sum_reverse.
  - apply (grid_sum_zip_star n), Hwf.
  - rewrite (grid_sum_zip_star n) by (apply wf_map_reverse, Hwf).
    apply grid_sum_map_rows, row_sum_reverse.
Qed.

Lemma grid_sum_slide_grid dir n g :
  wf n g → grid_sum (slide_grid dir g) = grid_sum g.
Proof.
  intros Hwf. unfold slide_grid, slid.
  rewrite (grid_sum_post dir n) by auto 10 with wf.
  rewrite !(grid_sum_map_rows _ _ row_sum_slid_left).
  rewrite (grid_sum_map_rows _ _ row_sum_merged_row).
  rewrite (grid_sum_map_rows _ _ row_sum_slid_left).
  by apply (grid_sum_pre dir n).
Qed.

Lemma grid_sum_spawned n g g' :
  wf n g → wf n g' → spawned g g' →
  grid_sum g' = (grid_sum g + 2)%Z ∨ grid_sum g' = (grid_sum g + 4)%Z.
Proof.
  intros Hwf Hwf' (i & j & v & Hz & Hv & Hcell).
  destruct (cell_lt _ _ _ _ _ Hwf Hz) as [Hi Hj].
  destruct (wf_lookup n g i Hwf Hi) as (row & Hrow & Hlen).
  assert (row !! j = Some 0%Z) as Hrj by (by rewrite <- (cell_row _ _ _ _ Hrow)).
  destruct (set_cell_wf n g i j v Hwf Hi Hj) as (g'' & Hset & Hwf'' & Hcell'').
  rewrite (set_cell_row _ _ _ _ _ _ Hrow Hrj) in Hset. injection Hset as <-.
  assert (g' = <[i := <[j := v]> row]> g) as ->.
  { apply (grid_eq n); [done..|]. intros i' j'. by rewrite Hcell, Hcell''. }
  assert (row_sum (<[j := v]> row) = (row_sum row - 0 + v)%Z) as Hins
    by exact (sum_with_insert (λ x, x) row j 0%Z v Hrj).
  unfold grid_sum. rewrite (sum_with_insert _ _ _ _ _ Hrow), Hins.
  destruct Hv as [-> | ->]; [left | right]; lia.
Qed.

(** X16: a move conserves the tiles: on a grid of the board's size the
    directional transform of every direction leaves the sum of all cells
    unchanged (a merge puts the sum of two tiles in one cell), so that after
    a move of a Playing game the sum of the cells is the sum of before when
    the move is rejected, and the sum of before plus the spawned 2 or 4 when
    it is accepted. *)
Theorem move_conserves_tiles dir d g :
  wf (Board.size (Game.board g)) (Board.gridCell (Game.board g)) →
  Game.end_ g = false → Game.won g = false →
  ∃ moved g1 bt,
    slide dir (Game.board g) = Some (moved, bt) ∧
    grid_sum (Board.gridCell bt) = grid_sum (Board.gridCell (Game.board g)) ∧
    move dir d g = Some (moved, g1) ∧
    (moved = false →
     grid_sum (Board.gridCell (Game.board g1))
     = grid_sum (Board.gridCell (Game.board g))) ∧
    (moved = true →
     grid_sum (Board.gridCell (Game.board g1))
     = (grid_sum (Board.gridCell (Game.board g)) + 2)%Z ∨
     grid_sum (Board.gridCell (Game.board g1))
     = (grid_sum (Board.gridCell (Game.board g)) + 4)%Z).
Proof.
  intros Hwf He Hw.
  pose proof (grid_sum_slide_grid dir _ _ Hwf) as Hsum.
  destruct (move_spec dir d g Hwf He Hw)
    as (moved & c2 & Hs & [[-> Hm]|[-> (g' & Hsp & Hwf' & _ & Hm)]]);
    eexists _, _, _; (split; [exact Hs|]); (split; [exact Hsum|]);
    (split; [exact Hm|]); simpl.
  - split; [done | done].
  - split; [done|]. intros _. rewrite <- Hsum.
    apply (grid_sum_spawned (Board.size (Game.board g))); [|done..].
    by apply wf_slide_grid.
Qed.

Lemma move_conserves_tiles_witness :
  wf (Board.size (Game.board game_2222)) (Board.gridCell (Game.board game_2222)) ∧
  Game.end_ game_2222 = false ∧ Game.won game_2222 = false ∧
  ∃ moved bt,
    slide Up (Game.board game_2222) = Some (moved, bt) ∧
    grid_sum (Board.gridCell bt) = 54%Z.
Proof.
  split; [exact wf_row_2222|]. split; [reflexivity|]. split; [reflexivity|].
  destruct (move_conserves_tiles Up draw0 game_2222 wf_row_2222 eq_refl eq_refl)
    as (moved & g1 & bt & Hs & Hsum & _).
  exists moved, bt. split; [exact Hs|]. rewrite Hsum. reflexivity.
Defined.

(** ** Rejected moves, terminal states, gaps *)

(** X17: a move of a Playing game that is rejected leaves grid, score, move
    counter, flags, target and best score as they were, but it has already
    overwritten the undo snapshot with the current grid and score: whatever
    snapshot there was is gone, and [undo] after it restores the grid and
    the score the game has now. *)
Theorem rejected_move_overwrites_snapshot dir d g g1 :
  wf (Board.size (Game.board g)) (Board.gridCell (Game.board g)) →
  Game.end_ g = false → Game.won g = false →
  move dir d g = Some (false, g1) →
  Board.gridCell (Game.board g1) = Board.gridCell (Game.board g) ∧
  Board.score (Game.board g1) = Board.score (Game.board g) ∧
  Game.move_count g1 = Game.move_count g ∧
  Game.end_ g1 = false ∧ Game.won g1 = false ∧
  Game.target g1 = Game.target g ∧ Game.best_score g1 = Game.best_score g ∧
  Game.prev_grid g1 = Some (Board.gridCell (Game.board g)) ∧
  Game.prev_score g1 = Board.score (Game.board g) ∧
  Board.gridCell (Game.board (Game.undo g1)) = Board.gridCell (Game.board g) ∧
  Board.score (Game.board (Game.undo g1)) = Board.score (Game.board g).
Proof.
  intros Hwf He Hw Hmove.
  destruct (move_playing_cases _ _ _ _ _ Hwf He Hw Hmove) as (Hpg & Hps & Hsame).
  destruct (Hsame eq_refl) as [Hg Hs].
  destruct (move_frame _ _ _ _ _ Hwf Hmove) as (Hc & Hb & _).
  destruct (move_flags _ _ _ _ _ Hwf Hmove) as (_ & He1 & Hw1 & Ht).
  destruct (undo_restores g1 _ Hpg) as (Hug & Hus & _).
  rewrite Hug, Hus, Hps. repeat split; try done; try congruence. lia.
Qed.

Lemma rejected_move_overwrites_snapshot_witness :
  wf (Board.size (Game.board game_checkers))
     (Board.gridCell (Game.board game_checkers)) ∧
  Game.end_ game_checkers = false ∧ Game.won game_checkers = false ∧
  ∃ g1, move Left draw0 game_checkers = Some (false, g1) ∧
        Game.prev_grid g1 = Some checkers.
Proof.
  split; [exact wf_checkers|]. split; [reflexivity|]. split; [reflexivity|].
  eexists. split; [vm_compute; reflexivity|].
  refine (proj1 (proj2 (proj2 (proj2 (proj2 (proj2 (proj2 (proj2
    (rejected_move_overwrites_snapshot Left draw0 game_checkers _
       wf_checkers eq_refl eq_refl _))))))))).
  vm_compute. reflexivity.
Defined.

(** X18: the Won and Lost flags are terminal under the user actions: from a
    state in which one of them is set, a key press, Undo, Set Target and
    Reset Best all lead to a state with the same two flags; only New Game
    leads out. *)
Theorem terminal_until_new_game g g' :
  step g g' →
  Game.end_ g = true ∨ Game.won g = true →
  (Game.end_ g' = Game.end_ g ∧ Game.won g' = Game.won g) ∨
  (∃ d1 d2, Game.reset d1 d2 g = Some g').
Proof.
  intros Hstep Hterm.
  destruct Hstep as [key d g g' Hk| g |d1 d2 g g' Hr|t g|g].
  - left. rewrite key_handler_move, (move_terminal key d g Hterm) in Hk.
    unfold App.after in Hk. simpl in Hk. injection Hk as <-.
    by destruct (post_move_updates_frame g) as (_ & _ & _ & _ & He & Hw & _).
  - left. unfold Game.undo. by destruct (Game.prev_grid g).
  - right. eauto.
  - by left.
  - by left.
Qed.

Lemma terminal_until_new_game_witness :
  step game_won (Game.undo game_won) ∧
  (Game.end_ game_won = true ∨ Game.won game_won = true) ∧
  Game.won (Game.undo game_won) = true.
Proof.
  split; [apply step_undo|]. split; [right; reflexivity|].
  destruct (terminal_until_new_game game_won (Game.undo game_won)
              (step_undo game_won)) as [[_ Hw]|(d1 & d2 & Hr)];
    [right; reflexivity | exact Hw | reflexivity].
Defined.

(** X19: the second [compressGrid] of a move closes the gaps the merges
    left: seen in the orientation of the move (as a move to the left), no row
    of the grid the directional transform produces has an empty cell to the
    left of a tile, so that sliding it again changes nothing. *)
Theorem slide_leaves_no_gap dir b moved bt :
  wf (Board.size b) (Board.gridCell b) →
  slide dir b = Some (moved, bt) →
  Forall (λ row, ¬ slides row) (pre dir (Board.gridCell bt)) ∧
  map slid_left (pre dir (Board.gridCell bt)) = pre dir (Board.gridCell bt).
Proof.
  intros Hwf Hs. destruct (slide_spec dir b Hwf) as (c1 & c2 & Hs' & _).
  rewrite Hs' in Hs. injection Hs as <- <-. simpl. unfold slide_grid.
  rewrite (pre_post dir (Board.size b)) by (unfold slid; auto 10 with wf).
  assert (Forall (λ row, ¬ slides row)
            (map slid_left (map merged_row (slid dir (Board.gridCell b)))))
    as Hno.
  { apply Forall_fmap, Forall_forall. intros row _. apply slid_left_rests. }
  split; [done|]. apply map_fixed. intros row Hin.
  apply not_slides_fixed. by apply (proj1 (Forall_forall _ _) Hno).
Qed.

Lemma slide_leaves_no_gap_witness :
  wf (Board.size board_2222) (Board.gridCell board_2222) ∧
  ∃ moved bt, slide Down board_2222 = Some (moved, bt) ∧
              Forall (λ row, ¬ slides row) (pre Down (Board.gridCell bt)).
Proof.
  split; [exact wf_row_2222|].
  eexists _, _. split; [vm_compute; reflexivity|].
  refine (proj1 (slide_leaves_no_gap Down board_2222 _ _ wf_row_2222 _)).
  vm_compute. reflexivity.
Defined.
